(** * go-kinesis-writer: the flusher and the Writer, embedded in Rocq

    The development follows the two source files of the package:
    [flusher.go] (delivery of one batch with a bounded retry of the failed
    subset, followed by the configuration surface) and the Writer
    ([New], [Write], [Sync], [Close]).  Collaborators that live outside the
    package (the Kinesis client, the asynchronous buffer, the retry policy)
    appear as interfaces or as small models of their documented contract.
    The bufio scanner that [Write] drives follows the Go standard library,
    with its buffer in an explicit memory: the records [Write] hands on are
    slices of that buffer. *)

From Stdlib Require Import List ZArith String Ascii Bool Arith Lia.
From Stdlib.Strings Require Import Byte.
From Stdlib Require Import Decimal DecimalString.
From Equations Require Import Equations.
From Equations.Prop Require Import Logic.
Import ListNotations.

Local Open Scope string_scope.
Local Open Scope list_scope.

Set Implicit Arguments.

(** ** Basic data *)

(** A Go [[]byte]. *)
Definition bytes := list byte.

(** [len(x)] as the Go [int] it is. *)
Definition len {A : Type} (l : list A) : Z := Z.of_nat (List.length l).

(** [time.Duration]: a count of nanoseconds. *)
Definition Duration := Z.
Definition Millisecond : Duration := 1000000%Z.
Definition Second : Duration := (1000 * Millisecond)%Z.

(** [%d] and [strconv.Itoa]. *)
Definition Itoa (z : Z) : string := NilZero.string_of_int (Z.to_int z).

(** ** Errors

    Go [error] values.  [fmt.Errorf] with a [%w] verb keeps the wrapped
    error; the rendered message is the prefix, a colon and the message of
    the cause. *)
Inductive error : Type :=
| ExternalError (msg : string)
| Errorf (msg : string)
| ErrorfW (prefix : string) (cause : error).

Fixpoint Error (e : error) : string :=
  match e with
  | ExternalError m => m
  | Errorf m => m
  | ErrorfW p c => p ++ ": " ++ Error c
  end.

Definition Unwrap (e : error) : option error :=
  match e with
  | ErrorfW _ c => Some c
  | _ => None
  end.

(** ** The remote service interface (aws-sdk-go-v2 kinesis types) *)

Record PutRecordsRequestEntry := {
  Data : bytes;
  PartitionKey : option string
}.

Record PutRecordsInput := {
  Records : list PutRecordsRequestEntry;
  StreamARN : option string
}.

Record PutRecordsResultEntry := {
  ErrorCode : option string;
  SequenceNumber : option string;
  ShardId : option string
}.

Record PutRecordsOutput := {
  out_Records : list PutRecordsResultEntry;
  FailedRecordCount : option Z
}.

(** [context.Context]: only the timeout the flusher attaches is kept. *)
Record Context := { ctx_timeout : option Duration }.

Definition Background : Context := {| ctx_timeout := None |}.
Definition WithTimeout (_ : Context) (d : Duration) : Context :=
  {| ctx_timeout := Some d |}.

(** [KinesisClient]: the interface of flusher.go.  A client is a state
    machine; a call returns the pair of the Go signature, an
    output pointer and an error, either of which may be nil. *)
Class KinesisClient (C : Type) := {
  PutRecords : Context -> PutRecordsInput -> C ->
               (option PutRecordsOutput * option error) * C
}.

(** One remote call as the flusher saw it. *)
Record Call := {
  call_input : PutRecordsInput;
  call_output : option PutRecordsOutput;
  call_err : option error
}.

Definition call_data (c : Call) : list bytes := map Data (Records (call_input c)).

(** ** The world the flusher runs in

    The client's state, the global random source behind [rand.Int], the
    lines written by [log.Printf], the number of retry attempts that the
    flush deadline leaves time for, and the history of remote calls. *)
Record World (C : Type) := {
  client : C;
  rand_src : nat -> Z;
  rand_pos : nat;
  log_out : list string;
  deadline_attempts : nat;
  calls : list Call
}.

(** A Go function either returns or panics. *)
Inductive Outcome (A : Type) : Type :=
| Return (a : A)
| Panic (msg : string).
Arguments Panic {A} msg.

Section Flusher.

Context {C : Type} `{KinesisClient C}.

Definition M (A : Type) : Type := World C -> Outcome A * World C.

Definition ret {A : Type} (a : A) : M A := fun w => (Return a, w).

Definition panic {A : Type} (msg : string) : M A := fun w => (Panic msg, w).

Definition bind {A B : Type} (m : M A) (k : A -> M B) : M B :=
  fun w =>
    match m w with
    | (Return a, w') => k a w'
    | (Panic msg, w') => (Panic msg, w')
    end.

Notation "x <- m ;; k" := (bind m (fun x => k))
  (at level 100, m at next level, right associativity).

(** [rand.Int()]: a non-negative 63-bit integer from the global source. *)
Definition rand_Int : M Z :=
  fun w =>
    (Return (rand_src w (rand_pos w) mod 2 ^ 63)%Z,
     {| client := client w; rand_src := rand_src w; rand_pos := S (rand_pos w);
        log_out := log_out w; deadline_attempts := deadline_attempts w;
        calls := calls w |}).

(** [log.Printf]. *)
Definition log_Printf (line : string) : M unit :=
  fun w =>
    (Return tt,
     {| client := client w; rand_src := rand_src w; rand_pos := rand_pos w;
        log_out := log_out w ++ [line]; deadline_attempts := deadline_attempts w;
        calls := calls w |}).

(** [f.client.PutRecords(ctx, input)], recorded in the call history. *)
Definition client_PutRecords (ctx : Context) (input : PutRecordsInput)
  : M (option PutRecordsOutput * option error) :=
  fun w =>
    let '(r, c') := PutRecords ctx input (client w) in
    (Return r,
     {| client := c'; rand_src := rand_src w; rand_pos := rand_pos w;
        log_out := log_out w; deadline_attempts := deadline_attempts w;
        calls := calls w ++ [{| call_input := input; call_output := fst r;
                               call_err := snd r |}] |}).

(** *** flusher.go *)

(** The [client] field of the Go struct is a reference to a stateful
    client; what it refers to is the [client] component of the world. *)
Record flusher := {
  flushTimeout : Duration;
  streamARN : string
}.

(** First loop of [putRecords]: one request entry per record, each with a
    fresh random partition key. *)
Fixpoint makeEntries (records : list bytes) : M (list PutRecordsRequestEntry) :=
  match records with
  | [] => ret []
  | r :: rest =>
      key <- rand_Int ;;
      entries <- makeEntries rest ;;
      ret ({| Data := r; PartitionKey := Some (Itoa key) |} :: entries)
  end.

(** Second loop of [putRecords]: [records[i]] is appended for every result
    entry [i] that carries an error code; indexing past the end of [records]
    panics. *)
Fixpoint collectFailed (records : list bytes) (i : nat)
    (results : list PutRecordsResultEntry) (failedRecords : list bytes)
  : Outcome (list bytes) :=
  match results with
  | [] => Return failedRecords
  | rr :: rest =>
      match ErrorCode rr with
      | Some _ =>
          match nth_error records i with
          | Some r => collectFailed records (S i) rest (failedRecords ++ [r])
          | None => Panic "index out of range"
          end
      | None => collectFailed records (S i) rest failedRecords
      end
  end.

Definition lift {A : Type} (o : Outcome A) : M A := fun w => (o, w).

Definition putRecords (f : flusher) (ctx : Context) (records : list bytes)
  : M (list bytes * option error) :=
  entries <- makeEntries records ;;
  r <- client_PutRecords ctx
         {| Records := entries; StreamARN := Some (streamARN f) |} ;;
  match r with
  | (_, Some err) => ret ([], Some (ErrorfW "failed to put records" err))
  | (None, None) => panic "nil pointer dereference"
  | (Some out, None) =>
      match FailedRecordCount out with
      | None => ret ([], None)
      | Some n =>
          if (n =? 0)%Z then ret ([], None)
          else if (n <? 0)%Z then panic "makeslice: cap out of range"
          else
            failedRecords <- lift (collectFailed records 0 (out_Records out) []) ;;
            ret (failedRecords, None)
      end
  end.

(** *** The retry policy *)

(** Modelled from the spec: the policy and retrier of the go-retry package,
    an external dependency whose source is not part of the repository.  The
    spec describes a bounded iterator: at most [MaxCount] attempts,
    scheduled within the flush deadline.  [Continue] therefore grants an
    attempt while fewer than [MaxCount] have been granted and the deadline
    still leaves room for one ([deadline_attempts] of the world). *)
Record Policy := {
  MinDelay : Duration;
  MaxDelay : Duration;
  MaxCount : nat
}.

Record Retrier := {
  policy : Policy;
  retrier_ctx : Context;
  count : nat
}.

Definition Start (p : Policy) (ctx : Context) : Retrier :=
  {| policy := p; retrier_ctx := ctx; count := 0 |}.

Definition Continue (r : Retrier) (w : World C) : bool * Retrier :=
  if ((count r <? MaxCount (policy r)) && (count r <? deadline_attempts w))%nat
  then (true, {| policy := policy r; retrier_ctx := retrier_ctx r;
                 count := S (count r) |})
  else (false, r).

(** One pass through the body of the retry loop of [Flush]: the log line
    and the re-submission of the currently failed records. *)
Definition retryBody (f : flusher) (ctx : Context) (failedRecords : list bytes)
  : M (list bytes * option error) :=
  _ <- log_Printf ("retry to put records: " ++ Itoa (len failedRecords)
                   ++ " records are failed") ;;
  putRecords f ctx failedRecords.

(** The loop [for retrier.Continue() { ... }] of [Flush].  It ends in one of
    two ways: with the error that [Flush] returns from inside the loop
    ([inl]), or by leaving the loop with the records that are still failed
    ([inr]). *)
Equations? retryLoop (f : flusher) (ctx : Context) (retrier : Retrier)
    (failedRecords : list bytes) (w : World C)
  : Outcome (error + list bytes) * World C
  by wf (MaxCount (policy retrier) - count retrier) lt :=
retryLoop f ctx retrier failedRecords w with inspect (Continue retrier w) := {
  | exist _ (false, _) _ := (Return (inr failedRecords), w);
  | exist _ (true, retrier') Hc with retryBody f ctx failedRecords w := {
      | (Panic msg, w') := (Panic msg, w');
      | (Return (_, Some err), w') :=
          (Return (inl (ErrorfW "failed to put records" err)), w');
      | (Return (failedRecords', None), w')
          with (List.length failedRecords' =? 0)%nat := {
          | true := (Return (inr failedRecords'), w');
          | false := retryLoop f ctx retrier' failedRecords' w' } } }.
Proof.
  unfold Continue in Hc.
  destruct ((count retrier <? MaxCount (policy retrier))%nat) eqn:E1;
    destruct ((count retrier <? deadline_attempts w)%nat) eqn:E2;
    simpl in Hc; inversion Hc; subst; simpl.
  apply Nat.ltb_lt in E1. lia.
Qed.

Definition Flush (f : flusher) (records : list bytes) : M (option error) :=
  let ctx := WithTimeout Background (flushTimeout f) in
  r <- putRecords f ctx records ;;
  match r with
  | (_, Some err) => ret (Some (ErrorfW "failed to put records" err))
  | (failedRecords, None) =>
      if (List.length failedRecords =? 0)%nat then ret None
      else
        let retryPolicy := {| MinDelay := (5 * Second)%Z;
                              MaxDelay := flushTimeout f;
                              MaxCount := 3 |} in
        let retrier := Start retryPolicy ctx in
        r <- retryLoop f ctx retrier failedRecords ;;
        match r with
        | inl err => ret (Some err)
        | inr failedRecords =>
            if (0 <? List.length failedRecords)%nat
            then ret (Some (Errorf ("failed to put records: "
                                    ++ Itoa (len failedRecords)
                                    ++ " records are failed")))
            else ret None
        end
  end.

End Flusher.

(** ** Memory and slices

    A Go [[]byte] is a window on an array, and what it reads is what the
    array holds at the time it is read.  The memory is the list of the byte
    arrays allocated so far; an array is named by its position in the list. *)
Definition Mem := list bytes.

Record slice := {
  arr : nat;
  off : nat;
  slen : nat
}.

(** The nil slice has no array and no length. *)
Definition nil_slice : slice := {| arr := 0; off := 0; slen := 0 |}.

Definition array (m : Mem) (a : nat) : bytes := nth a m [].

(** The bytes a slice holds in a memory. *)
Definition deref (m : Mem) (s : slice) : bytes :=
  firstn (slen s) (skipn (off s) (array m (arr s))).

(** [s[lo:hi]]. *)
Definition subslice (s : slice) (lo hi : nat) : slice :=
  {| arr := arr s; off := off s + lo; slen := hi - lo |}.

(** [make([]byte, n)]: a new array of [n] zero bytes. *)
Definition make (n : nat) (m : Mem) : slice * Mem :=
  ({| arr := List.length m; off := 0; slen := n |}, m ++ [repeat x00 n]).

(** The memory with new content in the array [a]. *)
Fixpoint setArray (m : Mem) (a : nat) (content : bytes) : Mem :=
  match m, a with
  | [], _ => []
  | _ :: rest, O => content :: rest
  | x :: rest, S a' => x :: setArray rest a' content
  end.

(** [copy(dst, src)] for a source that has been read before the first byte
    is written, as the built-in does when the two overlap: as many bytes as
    both have room for land in the array of [dst], and their number is
    returned. *)
Definition copy (dst : slice) (src : bytes) (m : Mem) : nat * Mem :=
  let n := Nat.min (slen dst) (List.length src) in
  let old := array m (arr dst) in
  (n, setArray m (arr dst)
        (firstn (off dst) old ++ firstn n src ++ skipn (off dst + n) old)).

(** ** Configuration (second half of flusher.go) *)

Definition defaultBufferRecordWindow : Z := 10.
Definition defaultBufferWriteTimeout : Duration := (5 * Second)%Z.
Definition defaultBufferFlushTimeout : Duration := (30 * Second)%Z.
Definition defaultBufferFlushInterval : Duration := (30 * Second)%Z.

(** An error handler acts on the process's standard error, given here as the
    list of the chunks written to it. *)
Definition ErrHandler := error -> list bytes -> list string -> list string.

Fixpoint failedLogLines (i : nat) (elements : list bytes) : list string :=
  match elements with
  | [] => []
  | elem :: rest =>
      ("failed to write logs [" ++ Itoa (Z.of_nat i) ++ "]="
       ++ string_of_list_byte elem)%string :: failedLogLines (S i) rest
  end.

Definition defaultBufferErrorHandler : ErrHandler :=
  fun err elements stderr =>
    stderr ++ [("async-buffer: error " ++ Error err)%string]
           ++ failedLogLines 0 elements.

(** [bufio.SplitFunc]: from the data at hand, a slice, and the end-of-input
    flag to the triple (advance, token, err); the token is a slice as well,
    and a nil token is [None].  A split function reads the memory and may
    allocate in it. *)
Inductive splitError : Type :=
| ErrFinalToken
| SplitErr (e : error).

Definition SplitFunc :=
  slice -> bool -> Mem -> Z * option slice * option splitError * Mem.

Record bufferConfig := {
  recordWindow : Z;
  writeTimeout : Duration;
  flushTimeout_ : Duration;
  flushInterval : Duration;
  errorHandler : ErrHandler
}.

(** The [client] field holds a client or nil. *)
Record writerConfig (C : Type) := {
  splitFunc : SplitFunc;
  bufferConfig_ : bufferConfig;
  client_ : option C
}.

(** A [WriterConfigOption] mutates the configuration it is given. *)
Definition WriterConfigOption (C : Type) := writerConfig C -> writerConfig C.

Definition WithSplitFunc {C : Type} (fn : SplitFunc) : WriterConfigOption C :=
  fun c => {| splitFunc := fn; bufferConfig_ := bufferConfig_ c;
              client_ := client_ c |}.

(** The argument is an interface value: a client or nil, and it is stored
    as it is. *)
Definition WithKinesisClient {C : Type} (client : option C)
  : WriterConfigOption C :=
  fun c => {| splitFunc := splitFunc c; bufferConfig_ := bufferConfig_ c;
              client_ := client |}.

Definition updBuffer {C : Type} (g : bufferConfig -> bufferConfig)
  : WriterConfigOption C :=
  fun c => {| splitFunc := splitFunc c; bufferConfig_ := g (bufferConfig_ c);
              client_ := client_ c |}.

Definition WithBufferRecordWindow {C : Type} (window : Z) : WriterConfigOption C :=
  updBuffer (fun bc =>
    {| recordWindow := window; writeTimeout := writeTimeout bc;
       flushTimeout_ := flushTimeout_ bc; flushInterval := flushInterval bc;
       errorHandler := errorHandler bc |}).

Definition WithBufferWriteTimeout {C : Type} (timeout : Duration)
  : WriterConfigOption C :=
  updBuffer (fun bc =>
    {| recordWindow := recordWindow bc; writeTimeout := timeout;
       flushTimeout_ := flushTimeout_ bc; flushInterval := flushInterval bc;
       errorHandler := errorHandler bc |}).

Definition WithBufferFlushTimeout {C : Type} (timeout : Duration)
  : WriterConfigOption C :=
  updBuffer (fun bc =>
    {| recordWindow := recordWindow bc; writeTimeout := writeTimeout bc;
       flushTimeout_ := timeout; flushInterval := flushInterval bc;
       errorHandler := errorHandler bc |}).

Definition WithBufferFlushInterval {C : Type} (interval : Duration)
  : WriterConfigOption C :=
  updBuffer (fun bc =>
    {| recordWindow := recordWindow bc; writeTimeout := writeTimeout bc;
       flushTimeout_ := flushTimeout_ bc; flushInterval := interval;
       errorHandler := errorHandler bc |}).

Definition WithBufferErrorHandler {C : Type} (handler : ErrHandler)
  : WriterConfigOption C :=
  updBuffer (fun bc =>
    {| recordWindow := recordWindow bc; writeTimeout := writeTimeout bc;
       flushTimeout_ := flushTimeout_ bc; flushInterval := flushInterval bc;
       errorHandler := handler |}).

(** ** bufio: the line splitter and the scanner

    [ScanLines], [dropCR] and the [Scanner] follow the Go standard library
    (bufio/scan.go), the reader follows [bytes.Reader]. *)

Definition LF : byte := x0a.
Definition CR : byte := x0d.

(** [bytes.IndexByte]: index of the first occurrence, or -1. *)
Fixpoint IndexByte (data : bytes) (c : byte) : Z :=
  match data with
  | [] => (-1)%Z
  | x :: rest =>
      if Byte.eqb x c then 0%Z
      else let i := IndexByte rest c in
           if (i <? 0)%Z then (-1)%Z else (i + 1)%Z
  end.

(** [dropCR]: the slice without its last byte when that is a carriage
    return. *)
Definition dropCR (data : slice) (m : Mem) : slice :=
  if (0 <? slen data)%nat && Byte.eqb (last (deref m data) x00) CR
  then subslice data 0 (slen data - 1)
  else data.

Definition ScanLines : SplitFunc :=
  fun data atEOF m =>
    if atEOF && (slen data =? 0)%nat then (0%Z, None, None, m)
    else
      let i := IndexByte (deref m data) LF in
      if (0 <=? i)%Z
      then ((i + 1)%Z, Some (dropCR (subslice data 0 (Z.to_nat i)) m), None, m)
      else if atEOF then (Z.of_nat (slen data), Some (dropCR data m), None, m)
      else (0%Z, None, None, m).

Definition MaxScanTokenSize : nat := 64 * 1024.
Definition startBufSize : nat := 4096.
Definition maxConsecutiveEmptyReads : nat := 100.
Definition maxInt : Z := (2 ^ 63 - 1)%Z.

Definition ErrTooLong : error := ExternalError "bufio.Scanner: token too long".
Definition ErrNegativeAdvance : error :=
  ExternalError "bufio.Scanner: SplitFunc returns negative advance count".
Definition ErrAdvanceTooFar : error :=
  ExternalError "bufio.Scanner: SplitFunc returns advance count beyond input".
Definition ErrBadReadCount : error :=
  ExternalError "bufio.Scanner: Read returned impossible count".
Definition ErrNoProgress : error :=
  ExternalError "multiple Read calls return no data or error".

(** The sticky error of a scanner: nil, [io.EOF], or another error. *)
Inductive scanErr : Type :=
| NoErr
| EOF
| Failed (e : error).

Definition isSet (e : scanErr) : bool :=
  match e with NoErr => false | _ => true end.

(** [bytes.Reader]: the input and the reading position. *)
Record Reader := {
  r_s : bytes;
  r_i : nat
}.

Definition NewReader (p : bytes) : Reader := {| r_s := p; r_i := 0 |}.

(** [Reader.Read]: the bytes read are copied into the slice it is given. *)
Definition Reader_Read (r : Reader) (dst : slice) (m : Mem)
  : nat * scanErr * Reader * Mem :=
  if (List.length (r_s r) <=? r_i r)%nat then (0%nat, EOF, r, m)
  else
    let '(n, m') := copy dst (skipn (r_i r) (r_s r)) m in
    (n, NoErr, {| r_s := r_s r; r_i := r_i r + n |}, m').

(** [bufio.Scanner].  The [scanCalled] flag, which only guards later calls
    of [Split] and [Buffer], is left out. *)
Record Scanner := {
  rd : Reader;
  split : SplitFunc;
  maxTokenSize : nat;
  token : option slice;
  buf : slice;
  start : nat;
  end_ : nat;
  scan_err : scanErr;
  empties : nat;
  done : bool
}.

Definition NewScanner (r : Reader) : Scanner :=
  {| rd := r; split := ScanLines; maxTokenSize := MaxScanTokenSize;
     token := None; buf := nil_slice; start := 0; end_ := 0;
     scan_err := NoErr; empties := 0; done := false |}.

Definition Scanner_Split (s : Scanner) (fn : SplitFunc) : Scanner :=
  {| rd := rd s; split := fn; maxTokenSize := maxTokenSize s;
     token := token s; buf := buf s; start := start s; end_ := end_ s;
     scan_err := scan_err s; empties := empties s; done := done s |}.

(** [Bytes]: the token as it is, a slice of the scanner's buffer when the
    split function returned one; no copy is made. *)
Definition Scanner_Bytes (s : Scanner) : slice :=
  match token s with
  | Some t => t
  | None => nil_slice
  end.

Definition withReader (s : Scanner) (r : Reader) : Scanner :=
  {| rd := r; split := split s; maxTokenSize := maxTokenSize s;
     token := token s; buf := buf s; start := start s; end_ := end_ s;
     scan_err := scan_err s; empties := empties s; done := done s |}.

Definition withToken (s : Scanner) (t : option slice) : Scanner :=
  {| rd := rd s; split := split s; maxTokenSize := maxTokenSize s;
     token := t; buf := buf s; start := start s; end_ := end_ s;
     scan_err := scan_err s; empties := empties s; done := done s |}.

Definition withWindow (s : Scanner) (bf : slice) (st en : nat) : Scanner :=
  {| rd := rd s; split := split s; maxTokenSize := maxTokenSize s;
     token := token s; buf := bf; start := st; end_ := en;
     scan_err := scan_err s; empties := empties s; done := done s |}.

Definition withEmpties (s : Scanner) (e : nat) : Scanner :=
  {| rd := rd s; split := split s; maxTokenSize := maxTokenSize s;
     token := token s; buf := buf s; start := start s; end_ := end_ s;
     scan_err := scan_err s; empties := e; done := done s |}.

Definition withDone (s : Scanner) (d : bool) : Scanner :=
  {| rd := rd s; split := split s; maxTokenSize := maxTokenSize s;
     token := token s; buf := buf s; start := start s; end_ := end_ s;
     scan_err := scan_err s; empties := empties s; done := d |}.

(** [setErr]: the first error that is not [io.EOF] stays. *)
Definition setErr (s : Scanner) (e : scanErr) : Scanner :=
  match scan_err s with
  | Failed _ => s
  | _ =>
      {| rd := rd s; split := split s; maxTokenSize := maxTokenSize s;
         token := token s; buf := buf s; start := start s; end_ := end_ s;
         scan_err := e; empties := empties s; done := done s |}
  end.

(** [advance]: consume [n] bytes of the buffer, if that many are there. *)
Definition advance (s : Scanner) (n : Z) : bool * Scanner :=
  if (n <? 0)%Z then (false, setErr s (Failed ErrNegativeAdvance))
  else if (Z.of_nat (end_ s - start s) <? n)%Z
       then (false, setErr s (Failed ErrAdvanceTooFar))
       else (true, withWindow s (buf s) (start s + Z.to_nat n) (end_ s)).

(** The data the scanner holds and has not yet processed,
    [s.buf[s.start:s.end]]. *)
Definition held (s : Scanner) : slice := subslice (buf s) (start s) (end_ s).

(** The first step of reading more data: what is held is moved to the
    beginning of the buffer if there is lots of empty space or space is
    needed.  The move overwrites the beginning of the buffer. *)
Definition shift (s : Scanner) (m : Mem) : Scanner * Mem :=
  if (0 <? start s)%nat
     && ((end_ s =? slen (buf s))%nat || (slen (buf s) / 2 <? start s)%nat)
  then
    let '(_, m') := copy (buf s) (deref m (held s)) m in
    (withWindow s (buf s) 0 (end_ s - start s), m')
  else (s, m).

(** The second step: a full buffer is replaced by a new one of twice the
    size, up to the maximal token size; [None] when it cannot grow. *)
Definition grow (s : Scanner) (m : Mem) : option (Scanner * Mem) :=
  if (end_ s =? slen (buf s))%nat then
    if (maxTokenSize s <=? slen (buf s))%nat
       || (maxInt / 2 <? Z.of_nat (slen (buf s)))%Z
    then None
    else
      let newSize := (slen (buf s) * 2)%nat in
      let newSize := if (newSize =? 0)%nat then startBufSize else newSize in
      let newSize := Nat.min newSize (maxTokenSize s) in
      let '(newBuf, m1) := make newSize m in
      let '(_, m2) := copy newBuf (deref m1 (held s)) m1 in
      Some (withWindow s newBuf 0 (end_ s - start s), m2)
  else Some (s, m).

(** The third step: read into the free end of the buffer, at most
    [maxConsecutiveEmptyReads] more times while nothing comes. *)
Fixpoint readMore (tries : nat) (s : Scanner) (m : Mem) : Scanner * Mem :=
  let '(n, err, r, m') :=
    Reader_Read (rd s) (subslice (buf s) (end_ s) (slen (buf s))) m in
  let s := withReader s r in
  if (slen (buf s) - end_ s <? n)%nat
  then (setErr s (Failed ErrBadReadCount), m')
  else
    let s := withWindow s (buf s) (start s) (end_ s + n) in
    if isSet err then (setErr s err, m')
    else if (0 <? n)%nat then (withEmpties s 0, m')
    else match tries with
         | O => (setErr s (Failed ErrNoProgress), m')
         | S tries' => readMore tries' s m'
         end.

(** One pass through the loop of [Scan] either ends the call or leads to the
    next pass. *)
Inductive Pass : Type :=
| Stop (result : Outcome (bool * Scanner))
| Again (s : Scanner).

(** The second half of the loop body: no token can be made from what is
    held. *)
Definition fill (s : Scanner) (m : Mem) : Pass * Mem :=
  if isSet (scan_err s)
  then (Stop (Return (false, withWindow s (buf s) 0 0)), m)
  else
    let '(s1, m1) := shift s m in
    match grow s1 m1 with
    | None => (Stop (Return (false, setErr s1 (Failed ErrTooLong))), m1)
    | Some (s2, m2) =>
        let '(s3, m3) := readMore maxConsecutiveEmptyReads s2 m2 in
        (Again s3, m3)
    end.

(** The loop body of [Scan]. *)
Definition scanPass (s : Scanner) (m : Mem) : Pass * Mem :=
  if (start s <? end_ s)%nat || isSet (scan_err s) then
    let '(adv, tok, err, m1) := split s (held s) (isSet (scan_err s)) m in
    match err with
    | Some ErrFinalToken =>
        (Stop (Return (match tok with Some _ => true | None => false end,
                       withDone (withToken s tok) true)), m1)
    | Some (SplitErr e) => (Stop (Return (false, setErr s (Failed e))), m1)
    | None =>
        match advance s adv with
        | (false, s1) => (Stop (Return (false, s1)), m1)
        | (true, s1) =>
            let s2 := withToken s1 tok in
            match tok with
            | Some _ =>
                if negb (isSet (scan_err s2)) || (0 <? adv)%Z
                then (Stop (Return (true, withEmpties s2 0)), m1)
                else if (maxConsecutiveEmptyReads <? S (empties s2))%nat
                     then (Stop (Panic "bufio.Scan: too many empty tokens without progressing"),
                           m1)
                     else (Stop (Return (true, withEmpties s2 (S (empties s2)))), m1)
            | None => fill s2 m1
            end
        end
    end
  else fill s m.

(** What the reader has left, and one more while no error is set: every
    pass that leads to another one has read something or met the end. *)
Definition scanMeasure (s : Scanner) : nat :=
  (List.length (r_s (rd s)) - r_i (rd s))
  + (if isSet (scan_err s) then 0 else 1).

(** The loop of [Scan]. *)
Equations? scanToken (s : Scanner) (m : Mem) : Outcome (bool * Scanner) * Mem
  by wf (scanMeasure s) lt :=
scanToken s m with inspect (scanPass s m) := {
  | exist _ (Stop result, m') _ := (result, m');
  | exist _ (Again s', m') Hpass := scanToken s' m' }.
Proof.
  assert (Hread : forall tries s0 m0,
             isSet (scan_err s0) = false ->
             scanMeasure (fst (readMore tries s0 m0)) < scanMeasure s0).
  { clear. induction tries as [|tries IH]; intros s0 m0 Herr;
      cbn [readMore]; unfold Reader_Read;
      (destruct (List.length (r_s (rd s0)) <=? r_i (rd s0))%nat eqn:Hex;
       [|apply Nat.leb_gt in Hex; destruct (copy _ _ m0) as [n m1]]);
      cbn [withReader withWindow buf end_ start isSet];
      repeat match goal with
             | |- context [if ?c then _ else _] => destruct c eqn:?
             end;
      try (cbn [fst]; unfold scanMeasure, setErr; cbn;
           destruct (scan_err s0); try discriminate; cbn;
           repeat match goal with
                  | E : (_ <? _)%nat = true |- _ => apply Nat.ltb_lt in E
                  end; lia).
    match goal with E : (0 <? n)%nat = false |- _ => apply Nat.ltb_ge in E end.
    eapply Nat.lt_le_trans; [apply (IH _ m1); exact Herr|].
    unfold scanMeasure. cbn. lia. }
  assert (Hfill : forall s0 m0 s1 m1,
             fill s0 m0 = (Again s1, m1) -> scanMeasure s1 < scanMeasure s0).
  { clear -Hread. intros s0 m0 s1 m1. unfold fill.
    destruct (isSet (scan_err s0)) eqn:Herr; [discriminate|].
    destruct (shift s0 m0) as [sa ma] eqn:Hsh.
    assert (Ha : scanMeasure sa = scanMeasure s0 /\ isSet (scan_err sa) = false).
    { unfold shift in Hsh.
      destruct ((0 <? start s0)%nat
                && ((end_ s0 =? slen (buf s0))%nat || (slen (buf s0) / 2 <? start s0)%nat)).
      - destruct (copy (buf s0) (deref m0 (held s0)) m0). injection Hsh as <- <-.
        split; [reflexivity | exact Herr].
      - injection Hsh as <- <-. split; [reflexivity | exact Herr]. }
    destruct Ha as [Ha1 Ha2].
    destruct (grow sa ma) as [[sb mb]|] eqn:Hgr; [|discriminate].
    assert (Hb : scanMeasure sb = scanMeasure sa /\ isSet (scan_err sb) = false).
    { unfold grow in Hgr.
      destruct (end_ sa =? slen (buf sa))%nat.
      - destruct ((maxTokenSize sa <=? slen (buf sa))%nat
                  || (maxInt / 2 <? Z.of_nat (slen (buf sa)))%Z); [discriminate|].
        cbv zeta in Hgr.
        destruct (make _ ma) as [nb mc].
        destruct (copy nb (deref mc (held sa)) mc).
        injection Hgr as <- <-. split; [reflexivity | exact Ha2].
      - injection Hgr as <- <-. split; [reflexivity | exact Ha2]. }
    destruct Hb as [Hb1 Hb2].
    pose proof (Hread maxConsecutiveEmptyReads sb mb Hb2) as Hlt.
    destruct (readMore maxConsecutiveEmptyReads sb mb) as [sc mc].
    intros Heq. injection Heq as <- <-. cbn [fst] in Hlt. lia. }
  clear Hread. unfold scanPass in Hpass.
  destruct ((start s <? end_ s)%nat || isSet (scan_err s)).
  - destruct (split s (held s) (isSet (scan_err s)) m) as [[[adv tok] err] m1].
    destruct err as [[|e]|]; try discriminate.
    unfold advance in Hpass.
    destruct (adv <? 0)%Z; [discriminate|].
    destruct (Z.of_nat (end_ s - start s) <? adv)%Z; [discriminate|].
    destruct tok as [t|].
    + destruct (negb _ || _); [discriminate|].
      destruct (_ <? _)%nat; discriminate.
    + apply Hfill in Hpass. exact Hpass.
  - apply Hfill in Hpass. exact Hpass.
Qed.

(** [Scan]. *)
Definition Scan (s : Scanner) (m : Mem) : Outcome (bool * Scanner) * Mem :=
  if done s then (Return (false, s), m) else scanToken s m.

(** ** The asynchronous buffer

    The interface the Writer uses of the async-buffer package (an external
    dependency): construction from a flusher, with the client it refers to,
    and the three operations [Write], [Flush] and [Close].  [Write] is
    handed a slice, not a copy of its bytes; what a record holds is read
    from the memory, which each operation is given as it stands when the
    operation is called. *)
Record buffer_Option := {
  Threshold : Z;
  WriteTimeout : Duration;
  FlushTimeout : Duration;
  FlushInterval : Duration;
  ErrHandler_ : ErrHandler
}.

Class AsyncBuffer (C B : Type) := {
  buffer_New : flusher -> C -> buffer_Option -> B;
  buffer_Write : Mem -> slice -> B -> (Z * option error) * B;
  buffer_Flush : Mem -> B -> B;
  buffer_Close : Mem -> B -> option error * B
}.

(** The ambient AWS configuration that [New] falls back on. *)
Class AwsEnv (C : Type) := {
  awsConfig : Type;
  LoadDefaultConfig : Context -> awsConfig + error;
  NewFromConfig : awsConfig -> C
}.

(** ** The Writer *)

Record Writer (C B : Type) := {
  ctx_ : option Context;
  config : writerConfig C;
  kinesisBuffer : B
}.

Section WriterOps.

Context {C B : Type} `{AsyncBuffer C B} `{AwsEnv C}.

Definition New (ctx : Context) (streamARN : string)
    (opts : list (WriterConfigOption C)) : Writer C B + error :=
  let conf := {| splitFunc := ScanLines;
                 bufferConfig_ :=
                   {| recordWindow := defaultBufferRecordWindow;
                      writeTimeout := defaultBufferWriteTimeout;
                      flushTimeout_ := defaultBufferFlushTimeout;
                      flushInterval := defaultBufferFlushInterval;
                      errorHandler := defaultBufferErrorHandler |};
                 client_ := None |} in
  let conf := fold_left (fun c opt => opt c) opts conf in
  let build (conf : writerConfig C) (cl : C) : Writer C B + error :=
    let fl := {| flushTimeout := flushTimeout_ (bufferConfig_ conf);
                 streamARN := streamARN |} in
    let kb := buffer_New fl cl
                {| Threshold := recordWindow (bufferConfig_ conf);
                   WriteTimeout := writeTimeout (bufferConfig_ conf);
                   FlushTimeout := flushTimeout_ (bufferConfig_ conf);
                   FlushInterval := flushInterval (bufferConfig_ conf);
                   ErrHandler_ := errorHandler (bufferConfig_ conf) |} in
    inl {| ctx_ := None; config := conf; kinesisBuffer := kb |} in
  match client_ conf with
  | Some cl => build conf cl
  | None =>
      match LoadDefaultConfig ctx with
      | inr err => inr (ErrorfW "failed to load AWS config" err)
      | inl awsCfg =>
          let cl := NewFromConfig awsCfg in
          build {| splitFunc := splitFunc conf;
                   bufferConfig_ := bufferConfig_ conf;
                   client_ := Some cl |} cl
      end
  end.

Definition withBuffer (w : Writer C B) (kb : B) : Writer C B :=
  {| ctx_ := ctx_ w; config := config w; kinesisBuffer := kb |}.

(** The loop [for scanner.Scan() { ... }] of [Write] and the return after it.
    The line handed to the buffer is the slice [scanner.Bytes()] itself.  A
    split function may make the scanner yield tokens for ever, so the loop
    is given the number of iterations it may take; [None] says they did not
    suffice. *)
Fixpoint scanLoop (fuel : nat) (scanner : Scanner) (w : Writer C B) (p : bytes)
    (m : Mem) : option (Outcome (Z * option error) * Writer C B * Mem) :=
  match fuel with
  | O => None
  | S fuel' =>
      match Scan scanner m with
      | (Panic msg, m') => Some (Panic msg, w, m')
      | (Return (false, _), m') => Some (Return (len p, None), w, m')
      | (Return (true, scanner'), m') =>
          let line := Scanner_Bytes scanner' in
          match buffer_Write m' line (kinesisBuffer w) with
          | ((_, Some err), kb) =>
              Some (Return (0%Z, Some (ErrorfW "failed to write to buffer" err)),
                    withBuffer w kb, m')
          | ((_, None), kb) => scanLoop fuel' scanner' (withBuffer w kb) p m'
          end
      end
  end.

(** [Write].  The input is only read, so it is given by the bytes it holds;
    the scanner's buffers are allocated in the memory [m]. *)
Definition Write (fuel : nat) (w : Writer C B) (p : bytes) (m : Mem)
  : option (Outcome (Z * option error) * Writer C B * Mem) :=
  let scanner := NewScanner (NewReader p) in
  let scanner := Scanner_Split scanner (splitFunc (config w)) in
  scanLoop fuel scanner w p m.


Definition Close (w : Writer C B) (m : Mem) : option error * Writer C B :=
  match buffer_Close m (kinesisBuffer w) with
  | (Some err, kb) => (Some (ErrorfW "failed to close buffer" err), withBuffer w kb)
  | (None, kb) => (None, withBuffer w kb)
  end.

End WriterOps.

(** ** The clients of writer_test.go

    Both record every input they receive.  Their draws from [rand.Int] for
    sequence numbers and shard ids are taken from a source of their own. *)

Record testClientState := {
  inputs : list PutRecordsInput;
  seq_src : nat -> Z;
  seq_pos : nat
}.

Definition test_rand (c : testClientState) (k : nat) : string :=
  Itoa (seq_src c (seq_pos c + k) mod 2 ^ 63)%Z.

(** [successKinesisClient]: every record is accepted and the failed count is
    left nil. *)
Fixpoint successEntries (c : testClientState) (i : nat)
    (records : list PutRecordsRequestEntry) : list PutRecordsResultEntry :=
  match records with
  | [] => []
  | _ :: rest =>
      {| ErrorCode := None;
         SequenceNumber := Some (test_rand c (2 * i));
         ShardId := Some (test_rand c (2 * i + 1)) |}
      :: successEntries c (S i) rest
  end.

Definition successKinesisClient_PutRecords (_ : Context) (params : PutRecordsInput)
    (c : testClientState)
  : (option PutRecordsOutput * option error) * testClientState :=
  let entries := successEntries c 0 (Records params) in
  ((Some {| out_Records := entries; FailedRecordCount := None |}, None),
   {| inputs := inputs c ++ [params]; seq_src := seq_src c;
      seq_pos := seq_pos c + 2 * List.length (Records params) |}).

(** [partialFailedKinesisClient]: every odd index is refused with an error
    code, and the failed count says how many were. *)
Fixpoint partialEntries (c : testClientState) (i : nat)
    (records : list PutRecordsRequestEntry)
  : list PutRecordsResultEntry * Z :=
  match records with
  | [] => ([], 0%Z)
  | _ :: rest =>
      let '(entries, failedErrorCount) := partialEntries c (S i) rest in
      if negb (i mod 2 =? 0)%nat
      then ({| ErrorCode := Some "error"; SequenceNumber := None;
               ShardId := None |} :: entries, (failedErrorCount + 1)%Z)
      else ({| ErrorCode := None;
               SequenceNumber := Some (test_rand c (2 * i));
               ShardId := Some (test_rand c (2 * i + 1)) |} :: entries,
            failedErrorCount)
  end.

Definition partialFailedKinesisClient_PutRecords (_ : Context)
    (params : PutRecordsInput) (c : testClientState)
  : (option PutRecordsOutput * option error) * testClientState :=
  let '(entries, failedErrorCount) := partialEntries c 0 (Records params) in
  ((Some {| out_Records := entries;
            FailedRecordCount := Some failedErrorCount |}, None),
   {| inputs := inputs c ++ [params]; seq_src := seq_src c;
      seq_pos := seq_pos c + 2 * List.length (Records params) |}).

Definition successKinesisClient : KinesisClient testClientState :=
  {| PutRecords := successKinesisClient_PutRecords |}.

Definition partialFailedKinesisClient : KinesisClient testClientState :=
  {| PutRecords := partialFailedKinesisClient_PutRecords |}.

(** A client that plays back a fixed list of responses, one per call, and
    fails with a transport error once the list is used up. *)
Definition scriptedClient : KinesisClient
    (list (option PutRecordsOutput * option error)) :=
  {| PutRecords := fun _ _ script =>
       match script with
       | [] => ((None, Some (ExternalError "connection reset")), [])
       | r :: rest => (r, rest)
       end |}.

Definition newTestClient : testClientState :=
  {| inputs := []; seq_src := fun n => Z.of_nat n; seq_pos := 0 |}.

Definition newWorld {C : Type} (c : C) (attempts : nat) : World C :=
  {| client := c; rand_src := fun n => Z.of_nat (7 * n + 3); rand_pos := 0;
     log_out := []; deadline_attempts := attempts; calls := [] |}.

Definition b (s : string) : bytes := list_byte_of_string s.

Definition testFlusher : flusher :=
  {| flushTimeout := (30 * Second)%Z; streamARN := "stream-arn" |}.


(** ** Buffers to run the Writer against *)

(** Any buffer, decorated with the log of its [Write]: the slice it was
    handed, the bytes the slice held at that moment, and the error the
    write drew. *)
Record Recorded (B : Type) := {
  inner : B;
  enqueued : list (slice * bytes * option error)
}.

Definition recordedBuffer {C B : Type} `{AsyncBuffer C B}
  : AsyncBuffer C (Recorded B) :=
  {| buffer_New := fun fl cl o =>
       {| inner := buffer_New fl cl o; enqueued := [] |};
     buffer_Write := fun m line rb =>
       let '((n, err), kb) := buffer_Write m line (inner rb) in
       ((n, err),
        {| inner := kb;
           enqueued := enqueued rb ++ [(line, deref m line, err)] |});
     buffer_Flush := fun m rb =>
       {| inner := buffer_Flush m (inner rb); enqueued := enqueued rb |};
     buffer_Close := fun m rb =>
       let '(err, kb) := buffer_Close m (inner rb) in
       (err, {| inner := kb; enqueued := enqueued rb |}) |}.

(** A buffer that answers successive writes from a fixed list of results and
    accepts everything once the list is used up. *)
Definition scriptedBuffer {C : Type} : AsyncBuffer C (list (option error)) :=
  {| buffer_New := fun _ _ _ => [];
     buffer_Write := fun _ line script =>
       match script with
       | [] => ((1%Z, None), [])
       | Some err :: rest => ((0%Z, Some err), rest)
       | None :: rest => ((1%Z, None), rest)
       end;
     buffer_Flush := fun _ script => script;
     buffer_Close := fun _ script => (None, script) |}.



Section SeqBuffer.

Context {C : Type} `{KinesisClient C}.





End SeqBuffer.

(** An environment without ambient AWS credentials, and one with a client
    ready to be built. *)
Definition noAwsEnv (C : Type) : AwsEnv C :=
  {| awsConfig := Empty_set;
     LoadDefaultConfig := fun _ => inr (ExternalError "no credentials");
     NewFromConfig := fun x : Empty_set => match x with end |}.

Definition readyAwsEnv {C : Type} (cl : C) : AwsEnv C :=
  {| awsConfig := unit;
     LoadDefaultConfig := fun _ => inl tt;
     NewFromConfig := fun _ => cl |}.

(** ** Lines of an input, for the statements about [Write] *)

(** The first line of a non-empty input and, when a line feed ends it, what
    follows the line feed. *)
Fixpoint breakLine (p : bytes) : bytes * option bytes :=
  match p with
  | [] => ([], None)
  | x :: rest =>
      if Byte.eqb x LF then ([], Some rest)
      else let '(line, after) := breakLine rest in (x :: line, after)
  end.

(** The lines of an input: the stretches between line feeds, without a
    trailing empty one. *)
Fixpoint lines (p : bytes) : list bytes :=
  match p with
  | [] => []
  | x :: rest =>
      if Byte.eqb x LF then [] :: lines rest
      else match lines rest with
           | [] => [[x]]
           | line :: more => (x :: line) :: more
           end
  end.

Fixpoint takeWhile {A : Type} (keep : A -> bool) (l : list A) : list A :=
  match l with
  | [] => []
  | x :: rest => if keep x then x :: takeWhile keep rest else []
  end.

Definition shortLine (line : bytes) : bool :=
  (List.length line <? MaxScanTokenSize)%nat.

(** A line without its last byte when that is a carriage return. *)
Definition trimCR (line : bytes) : bytes :=
  if (0 <? List.length line)%nat && Byte.eqb (last line x00) CR
  then removelast line
  else line.

(** The tokens the scanner yields with [ScanLines]: the lines, each without
    a trailing carriage return, up to the first line that does not fit. *)
Definition scannedLines (p : bytes) : list bytes :=
  map trimCR (takeWhile shortLine (lines p)).

(** Each record followed by a line feed. *)
Definition rejoin (records : list bytes) : bytes :=
  List.concat (map (fun r => r ++ [LF]) records).

(** The records with a line feed between them. *)
Fixpoint joinLF (records : list bytes) : bytes :=
  match records with
  | [] => []
  | [r] => r
  | r :: rest => r ++ LF :: joinLF rest
  end.

(** The input with a final line feed, if it is not empty and lacks one. *)
Definition terminated (p : bytes) : bytes :=
  match p with
  | [] => []
  | _ => if Byte.eqb (last p x00) LF then p else p ++ [LF]
  end.

Definition endsWithCR (line : bytes) : bool :=
  (0 <? List.length line)%nat && Byte.eqb (last line x00) CR.

(** The entries of the log of a recording buffer: the slice that was
    handed over, what it held then, and whether the write was accepted. *)
Definition reference (e : slice * bytes * option error) : slice := fst (fst e).

Definition handed (e : slice * bytes * option error) : bytes := snd (fst e).

Definition accepted (e : slice * bytes * option error) : Prop := snd e = None.


(** ** Vocabulary for runs of the scanner with the line splitter *)

(** What the scanner has not yet turned into tokens: the data it holds in
    its buffer, followed by what the reader has left. *)
Definition pending (s : Scanner) (m : Mem) : bytes :=
  deref m (held s) ++ skipn (r_i (rd s)) (r_s (rd s)).

(** A scanner between two passes of [Scan] over a [bytes.Reader], with the
    line splitter: its buffer is nil or an array allocated since the memory
    had [base] arrays, the window on the unprocessed data lies within it,
    and the only error it can have met is the end of the input. *)
Record scanning (base : nat) (s : Scanner) (m : Mem) : Prop := {
  sc_split : split s = ScanLines;
  sc_max : maxTokenSize s = MaxScanTokenSize;
  sc_done : done s = false;
  sc_off : off (buf s) = 0%nat;
  sc_cap : (slen (buf s) <= MaxScanTokenSize)%nat;
  sc_base : (base <= List.length m)%nat;
  sc_arr : slen (buf s) = 0%nat \/
           ((base <= arr (buf s))%nat /\ (arr (buf s) < List.length m)%nat /\
            List.length (array m (arr (buf s))) = slen (buf s));
  sc_win : (start s <= end_ s)%nat /\ (end_ s <= slen (buf s))%nat;
  sc_err : scan_err s = NoErr \/
           (scan_err s = EOF /\
            (List.length (r_s (rd s)) <= r_i (rd s))%nat /\
            (end_ s < slen (buf s))%nat)
}.

(** The memory [m'] comes from [m] by allocations and by writes to arrays
    allocated since the memory had [base] arrays. *)
Definition frame (base : nat) (m m' : Mem) : Prop :=
  (List.length m <= List.length m')%nat /\
  forall a, (a < base)%nat -> array m' a = array m a.

(** ** What a run of the flusher looks like *)

(** The verdict of [putRecords] on a response, for the records that were
    submitted: the failed subset, an error, or a panic. *)
Definition response_result (records : list bytes)
    (r : option PutRecordsOutput * option error)
  : Outcome (list bytes * option error) :=
  match r with
  | (_, Some err) => Return ([], Some (ErrorfW "failed to put records" err))
  | (None, None) => Panic "nil pointer dereference"
  | (Some out, None) =>
      match FailedRecordCount out with
      | None => Return ([], None)
      | Some n =>
          if (n =? 0)%Z then Return ([], None)
          else if (n <? 0)%Z then Panic "makeslice: cap out of range"
          else
            match collectFailed records 0 (out_Records out) [] with
            | Return failedRecords => Return (failedRecords, None)
            | Panic msg => Panic msg
            end
      end
  end.

Definition call_result (c : Call) : Outcome (list bytes * option error) :=
  response_result (call_data c) (call_output c, call_err c).

(** The calls of one flush form a chain: the first carries the batch, and
    every later one carries the non-empty failed subset of the call before
    it, which returned without error. *)
Inductive retry_chain : list bytes -> list Call -> Prop :=
| chain_last (records : list bytes) (c : Call) :
    call_data c = records -> retry_chain records [c]
| chain_cons (records failedRecords : list bytes) (c : Call) (rest : list Call) :
    call_data c = records ->
    call_result c = Return (failedRecords, None) ->
    failedRecords <> [] ->
    retry_chain failedRecords rest ->
    retry_chain records (c :: rest).

(** What [Flush] returns, read off the last call it made. *)
Definition flush_result (c : Call) : Outcome (option error) :=
  match call_result c with
  | Panic msg => Panic msg
  | Return (_, Some err) => Return (Some (ErrorfW "failed to put records" err))
  | Return (failedRecords, None) =>
      if (0 <? List.length failedRecords)%nat
      then Return (Some (Errorf ("failed to put records: "
                                 ++ Itoa (len failedRecords)
                                 ++ " records are failed")))
      else Return None
  end.

Fixpoint last_call (cs : list Call) : option Call :=
  match cs with
  | [] => None
  | [c] => Some c
  | _ :: rest => last_call rest
  end.

(** How the retry loop ends, read off the last call it made. *)
Definition loop_result (c : Call) : Outcome (error + list bytes) :=
  match call_result c with
  | Panic msg => Panic msg
  | Return (_, Some err) => Return (inl (ErrorfW "failed to put records" err))
  | Return (failedRecords, None) => Return (inr failedRecords)
  end.

(** A response that names no failed record: the failed count is nil or zero,
    or it is positive while no entry carries an error code. *)
Definition hasErrorCode (rr : PutRecordsResultEntry) : bool :=
  match ErrorCode rr with Some _ => true | None => false end.

Definition zero_failed (out : PutRecordsOutput) : bool :=
  match FailedRecordCount out with
  | None => true
  | Some n =>
      (n =? 0)%Z || ((0 <? n)%Z && negb (existsb hasErrorCode (out_Records out)))
  end.

(** What [Flush] returns on an empty batch, read off the response of its
    single call. *)
Definition empty_batch_result (c : Call) : Outcome (option error) :=
  match call_err c with
  | Some err =>
      Return (Some (ErrorfW "failed to put records"
                      (ErrorfW "failed to put records" err)))
  | None =>
      match call_output c with
      | None => Panic "nil pointer dereference"
      | Some out =>
          match FailedRecordCount out with
          | None => Return None
          | Some n =>
              if (n =? 0)%Z then Return None
              else if (n <? 0)%Z then Panic "makeslice: cap out of range"
              else if existsb hasErrorCode (out_Records out)
                   then Panic "index out of range"
                   else Return None
          end
      end
  end.

(** A call was answered by the client in some state of it. *)
Definition answered {C : Type} `{KinesisClient C} (ctx : Context) (c : Call)
  : Prop :=
  exists cst : C,
    (call_output c, call_err c) = fst (PutRecords ctx (call_input c) cst).

(** ** Data for the runs *)

(** The elements that sit at odd positions when the first one sits at
    position [i]. *)
Fixpoint oddFrom {A : Type} (i : nat) (l : list A) : list A :=
  match l with
  | [] => []
  | x :: rest =>
      if negb (i mod 2 =? 0)%nat then x :: oddFrom (S i) rest
      else oddFrom (S i) rest
  end.

(** How a run of the loop of [Write] ends, in terms of what it added to the
    log: either every write to the buffer was accepted and the count is the
    length of the input, or the last write was refused, the count is zero
    and the error wraps the refusal. *)
Definition write_outcome (p : bytes) (n : Z) (err : option error)
    (new : list (slice * bytes * option error)) : Prop :=
  (err = None /\ n = len p /\ Forall accepted new) \/
  (exists pre line cause,
      new = pre ++ [(line, Some cause)] /\ Forall accepted pre /\
      err = Some (ErrorfW "failed to write to buffer" cause) /\ n = 0%Z).


(** The log is only an observer: without it the run is the same. *)
Definition unrecorded {C B : Type} (w : Writer C (Recorded B)) : Writer C B :=
  {| ctx_ := ctx_ w; config := config w; kinesisBuffer := inner (kinesisBuffer w) |}.

(** *** Responses and scripts *)

Definition okEntry : PutRecordsResultEntry :=
  {| ErrorCode := None; SequenceNumber := Some "1"; ShardId := Some "shard-0" |}.

Definition errEntry : PutRecordsResultEntry :=
  {| ErrorCode := Some "ProvisionedThroughputExceededException";
     SequenceNumber := None; ShardId := None |}.

Definition scriptedWorld (script : list (option PutRecordsOutput * option error))
    (attempts : nat) : World (list (option PutRecordsOutput * option error)) :=
  newWorld script attempts.

(** The second of two records is refused, and the retry meets a transport
    failure. *)
Definition retryThenTimeout : list (option PutRecordsOutput * option error) :=
  [ (Some {| out_Records := [okEntry; errEntry];
             FailedRecordCount := Some 1%Z |}, None);
    (None, Some (ExternalError "context deadline exceeded")) ].

(** The single record is refused on every attempt. *)
Definition alwaysRefused : list (option PutRecordsOutput * option error) :=
  repeat (Some {| out_Records := [errEntry]; FailedRecordCount := Some 1%Z |},
          None) 8.

(** An error code on the only entry, but no failed count. *)
Definition codeWithoutCount : list (option PutRecordsOutput * option error) :=
  [ (Some {| out_Records := [errEntry]; FailedRecordCount := None |}, None) ].

Definition noCall : Call :=
  {| call_input := {| Records := []; StreamARN := None |};
     call_output := None; call_err := None |}.

(** *** Writers to run *)

Definition sampleConfig {C : Type} (cl : option C) : writerConfig C :=
  {| splitFunc := ScanLines;
     bufferConfig_ :=
       {| recordWindow := 10%Z; writeTimeout := (5 * Second)%Z;
          flushTimeout_ := (30 * Second)%Z; flushInterval := (30 * Second)%Z;
          errorHandler := defaultBufferErrorHandler |};
     client_ := cl |}.

(** A Writer over the scripted buffer, which logs what it is handed. *)
Definition recordingWriter (script : list (option error))
  : Writer testClientState (Recorded (list (option error))) :=
  {| ctx_ := None; config := sampleConfig (Some newTestClient);
     kinesisBuffer := {| inner := script; enqueued := [] |} |}.

Definition recordingWrite (script : list (option error)) (p : bytes) :=
  Write (H := recordedBuffer (H := scriptedBuffer)) (S (List.length p))
        (recordingWriter script) p [].

(** What the records hold when [Write] hands them to a buffer that accepts
    everything. *)
Definition forwarded (p : bytes) : list bytes :=
  match recordingWrite [] p with
  | Some (_, w', _) => map handed (enqueued (kinesisBuffer w'))
  | None => []
  end.

(** What the same records hold once [Write] has returned. *)
Definition retained (p : bytes) : list bytes :=
  match recordingWrite [] p with
  | Some (_, w', m') =>
      map (fun e => deref m' (reference e)) (enqueued (kinesisBuffer w'))
  | None => []
  end.

Definition returned (script : list (option error)) (p : bytes)
  : option (Outcome (Z * option error)) :=
  option_map (fun r => fst (fst r)) (recordingWrite script p).



Definition defaultWriter : Writer testClientState (list (option error)) :=
  {| ctx_ := None; config := sampleConfig (Some newTestClient);
     kinesisBuffer := [] |}.

(** The Writer of [recordingWriter] after its second write was refused. *)
Definition refusedWriter
  : Writer testClientState (Recorded (list (option error))) :=
  {| ctx_ := None; config := sampleConfig (Some newTestClient);
     kinesisBuffer :=
       {| inner := [];
          enqueued :=
            [({| arr := 0; off := 0; slen := 1 |}, b "a", None);
             ({| arr := 0; off := 2; slen := 1 |}, b "b",
              Some (ExternalError "write timeout"))] |} |}.

(** The memory an input shorter than the first buffer of the scanner
    leaves behind when [Write] starts from the empty memory: one array, which
    begins with the input. *)
Definition lineMem (p : bytes) : Mem :=
  [p ++ repeat x00 (startBufSize - List.length p)].


Definition crlfInput : bytes := b "a" ++ [CR; LF] ++ b "b".
Definition lfInput : bytes := b "a" ++ [LF] ++ b "b".
Definition twoLines : bytes := b "record1" ++ [LF] ++ b "record2".
Definition threeLines : bytes := b "a" ++ [LF] ++ b "b" ++ [LF] ++ b "c".
Definition longLine : bytes := repeat x61 (64 * 1024).
Definition twoRecords : bytes := b "record1" ++ [LF] ++ b "record2" ++ [LF].
Definition movedInput : bytes := repeat x61 3000 ++ [LF] ++ b "bbb".

(** ** More vocabulary for runs of the flusher *)

(** The request entries [putRecords] builds for some records when the
    random source stands at position [pos]: the k-th record gets the k-th
    draw from there on as its partition key. *)
Fixpoint keyedEntries (rnd : nat -> Z) (pos : nat) (records : list bytes)
  : list PutRecordsRequestEntry :=
  match records with
  | [] => []
  | r :: rest =>
      {| Data := r; PartitionKey := Some (Itoa (rnd pos mod 2 ^ 63)%Z) |}
      :: keyedEntries rnd (S pos) rest
  end.

(** The inputs of successive calls that carry the given record lists, each
    call drawing its keys after those of the call before. *)
Fixpoint requests (f : flusher) (rnd : nat -> Z) (pos : nat)
    (batches : list (list bytes)) : list PutRecordsInput :=
  match batches with
  | [] => []
  | records :: rest =>
      {| Records := keyedEntries rnd pos records;
         StreamARN := Some (streamARN f) |}
      :: requests f rnd (pos + List.length records) rest
  end.

(** The line [Flush] logs before the retry that makes call [c]. *)
Definition retry_line (c : Call) : string :=
  "retry to put records: " ++ Itoa (len (call_data c)) ++ " records are failed".

(** The calls were answered by the client one after the other, starting in
    state [cst]. *)
Fixpoint genuine {C : Type} `{KinesisClient C} (ctx : Context) (cst : C)
    (cs : list Call) : Prop :=
  match cs with
  | [] => True
  | c :: rest =>
      (call_output c, call_err c) = fst (PutRecords ctx (call_input c) cst) /\
      genuine ctx (snd (PutRecords ctx (call_input c) cst)) rest
  end.

(** The state of the client after it answered the calls. *)
Fixpoint client_after {C : Type} `{KinesisClient C} (ctx : Context) (cst : C)
    (cs : list Call) : C :=
  match cs with
  | [] => cst
  | c :: rest => client_after ctx (snd (PutRecords ctx (call_input c) cst)) rest
  end.

(** [l1] is [l2] with some elements left out. *)
Inductive subseq {A : Type} : list A -> list A -> Prop :=
| subseq_nil : subseq [] []
| subseq_skip (x : A) (l1 l2 : list A) : subseq l1 l2 -> subseq l1 (x :: l2)
| subseq_take (x : A) (l1 l2 : list A) : subseq l1 l2 -> subseq (x :: l1) (x :: l2).

(** A response [putRecords] can digest: an error, or an output whose failed
    count is not negative and that has no more entries than the request. *)
Definition well_formed_response (input : PutRecordsInput)
    (r : option PutRecordsOutput * option error) : bool :=
  match r with
  | (_, Some _) => true
  | (None, None) => false
  | (Some out, None) =>
      match FailedRecordCount out with
      | None => true
      | Some n =>
          (0 <=? n)%Z
          && (List.length (out_Records out) <=? List.length (Records input))%nat
      end
  end.

(** What a stretch of calls [cs] made by the flusher does to the world,
    apart from the log: the calls are added to the history, their inputs are
    the requests for their record lists with keys drawn one after the other,
    the random source has advanced by one draw per record submitted, and the
    client has answered them in order. *)
Definition run_effects {C : Type} `{KinesisClient C} (f : flusher)
    (ctx : Context) (w : World C) (cs : list Call) (w' : World C) : Prop :=
  calls w' = calls w ++ cs /\
  map call_input cs = requests f (rand_src w) (rand_pos w) (map call_data cs) /\
  rand_src w' = rand_src w /\
  rand_pos w' = (rand_pos w + List.length (List.concat (map call_data cs)))%nat /\
  genuine ctx (client w) cs /\
  client w' = client_after ctx (client w) cs /\
  deadline_attempts w' = deadline_attempts w.

(** ** More vocabulary for the configuration *)

(** The configuration [New] starts from, before any option is applied. *)
Definition initialConfig (C : Type) : writerConfig C :=
  {| splitFunc := ScanLines;
     bufferConfig_ :=
       {| recordWindow := defaultBufferRecordWindow;
          writeTimeout := defaultBufferWriteTimeout;
          flushTimeout_ := defaultBufferFlushTimeout;
          flushInterval := defaultBufferFlushInterval;
          errorHandler := defaultBufferErrorHandler |};
     client_ := None |}.

Definition applyOptions {C : Type} (opts : list (WriterConfigOption C))
  : writerConfig C :=
  fold_left (fun c opt => opt c) opts (initialConfig C).

(** The options the package lets a caller build, by what they set. *)
Inductive optionSpec (C : Type) : Type :=
| SetSplitFunc (fn : SplitFunc)
| SetKinesisClient (client : option C)
| SetRecordWindow (window : Z)
| SetWriteTimeout (timeout : Duration)
| SetFlushTimeout (timeout : Duration)
| SetFlushInterval (interval : Duration)
| SetErrorHandler (handler : ErrHandler).
Arguments SetSplitFunc {C} fn.
Arguments SetKinesisClient {C} client.
Arguments SetRecordWindow {C} window.
Arguments SetWriteTimeout {C} timeout.
Arguments SetFlushTimeout {C} timeout.
Arguments SetFlushInterval {C} interval.
Arguments SetErrorHandler {C} handler.

Definition toOption {C : Type} (o : optionSpec C) : WriterConfigOption C :=
  match o with
  | SetSplitFunc fn => WithSplitFunc fn
  | SetKinesisClient client => WithKinesisClient client
  | SetRecordWindow window => WithBufferRecordWindow window
  | SetWriteTimeout timeout => WithBufferWriteTimeout timeout
  | SetFlushTimeout timeout => WithBufferFlushTimeout timeout
  | SetFlushInterval interval => WithBufferFlushInterval interval
  | SetErrorHandler handler => WithBufferErrorHandler handler
  end.

(** Which field an option sets. *)
Definition optionField {C : Type} (o : optionSpec C) : nat :=
  match o with
  | SetSplitFunc _ => 0
  | SetKinesisClient _ => 1
  | SetRecordWindow _ => 2
  | SetWriteTimeout _ => 3
  | SetFlushTimeout _ => 4
  | SetFlushInterval _ => 5
  | SetErrorHandler _ => 6
  end.

Definition sixteenRecords : list bytes := repeat (b "r") 16.

(** * Facts *)

(** ** The flusher *)

Lemma Continue_true_count {C : Type} (r r' : Retrier) (w : World C) :
  Continue r w = (true, r') ->
  policy r' = policy r /\ count r' = S (count r) /\
  (count r < MaxCount (policy r))%nat /\ (count r < deadline_attempts w)%nat.
Proof.
  unfold Continue.
  destruct (count r <? MaxCount (policy r))%nat eqn:E1;
    destruct (count r <? deadline_attempts w)%nat eqn:E2; simpl; intros Hc;
    inversion Hc; subst; simpl.
  apply Nat.ltb_lt in E1, E2. auto.
Qed.

Section FlusherFacts.

Context {C : Type} `{KinesisClient C}.

Lemma bind_Return {A B : Type} (m : M A) (k : A -> M B) (w w' : World C) (a : A) :
  m w = (Return a, w') -> bind m k w = k a w'.
Proof. unfold bind. intros ->. reflexivity. Qed.

Lemma bind_Panic {A B : Type} (m : M A) (k : A -> M B) (w w' : World C)
    (msg : string) :
  m w = (Panic msg, w') -> bind m k w = (Panic msg, w').
Proof. unfold bind. intros ->. reflexivity. Qed.

Lemma makeEntries_spec (records : list bytes) (w : World C) :
  exists entries w',
    makeEntries records w = (Return entries, w') /\
    map Data entries = records /\
    client w' = client w /\ calls w' = calls w /\
    deadline_attempts w' = deadline_attempts w /\ log_out w' = log_out w.
Proof.
  revert w. induction records as [|r rest IH]; intros w.
  - exists [], w. repeat split.
  - simpl. unfold bind at 1. simpl.
    match goal with |- context [bind (makeEntries rest) _ ?w1] =>
      destruct (IH w1) as (es & w2 & Hm & Hd & Hc & Hk & Ha & Hl) end.
    erewrite bind_Return by exact Hm. unfold ret. simpl in *.
    eexists _, _. split; [reflexivity|]. simpl.
    rewrite Hd. repeat split; assumption.
Qed.

(** [putRecords] makes exactly one remote call, carrying the records it was
    given, and answers with the verdict on that call's response. *)
Lemma putRecords_spec (f : flusher) (ctx : Context) (records : list bytes)
    (w : World C) :
  exists c w',
    putRecords f ctx records w = (call_result c, w') /\
    calls w' = calls w ++ [c] /\
    call_data c = records /\
    StreamARN (call_input c) = Some (streamARN f) /\
    (call_output c, call_err c) = fst (PutRecords ctx (call_input c) (client w)) /\
    client w' = snd (PutRecords ctx (call_input c) (client w)) /\
    deadline_attempts w' = deadline_attempts w.
Proof.
  unfold putRecords.
  destruct (makeEntries_spec records w) as (es & w1 & Hm & Hd & Hc & Hk & Ha & _).
  unfold bind at 1. rewrite Hm.
  unfold bind at 1. unfold client_PutRecords at 1.
  set (input := {| Records := es; StreamARN := Some (streamARN f) |}).
  destruct (PutRecords ctx input (client w1)) as [r c'] eqn:Hp.
  set (c := {| call_input := input; call_output := fst r; call_err := snd r |}).
  exists c.
  assert (Hdata : call_data c = records) by (unfold call_data; simpl; exact Hd).
  unfold call_result. rewrite Hdata.
  destruct r as [[out|] [err|]]; simpl;
    try (eexists; split; [reflexivity|]; simpl; rewrite <- Hc, Hp, Hk;
         repeat split; auto).
  destruct (FailedRecordCount out) as [n|];
    try (eexists; split; [reflexivity|]; simpl; rewrite <- Hc, Hp, Hk;
         repeat split; auto).
  destruct (n =? 0)%Z;
    try (eexists; split; [reflexivity|]; simpl; rewrite <- Hc, Hp, Hk;
         repeat split; auto).
  destruct (n <? 0)%Z;
    try (eexists; split; [reflexivity|]; simpl; rewrite <- Hc, Hp, Hk;
         repeat split; auto).
  unfold bind, lift.
  destruct (collectFailed records 0 (out_Records out) []);
    (eexists; split; [reflexivity|]; simpl; rewrite <- Hc, Hp, Hk;
     repeat split; auto).
Qed.

Lemma retryBody_spec (f : flusher) (ctx : Context) (records : list bytes)
    (w : World C) :
  exists c w',
    retryBody f ctx records w = (call_result c, w') /\
    calls w' = calls w ++ [c] /\
    call_data c = records /\
    StreamARN (call_input c) = Some (streamARN f) /\
    (call_output c, call_err c) = fst (PutRecords ctx (call_input c) (client w)) /\
    client w' = snd (PutRecords ctx (call_input c) (client w)) /\
    deadline_attempts w' = deadline_attempts w.
Proof.
  unfold retryBody, bind at 1, log_Printf.
  match goal with |- context [putRecords f ctx records ?w1] =>
    destruct (putRecords_spec f ctx records w1)
      as (c & w' & Hp & Hk & Hd & Hs & Hr & Hc & Ha) end.
  exists c, w'. simpl in *. repeat split; assumption.
Qed.

Lemma last_call_cons (c : Call) (cs : list Call) :
  cs <> [] -> last_call (c :: cs) = last_call cs.
Proof. destruct cs; [congruence | reflexivity]. Qed.

Lemma retry_chain_nonempty (records : list bytes) (cs : list Call) :
  retry_chain records cs -> cs <> [].
Proof. intros Hc; inversion Hc; congruence. Qed.

Lemma Continue_false_count (r r' : Retrier) (w : World C) :
  Continue r w = (false, r') ->
  Nat.min (MaxCount (policy r) - count r) (deadline_attempts w - count r) = 0%nat.
Proof.
  unfold Continue.
  destruct (count r <? MaxCount (policy r))%nat eqn:E1;
    destruct (count r <? deadline_attempts w)%nat eqn:E2; simpl; intros Hc;
    try discriminate;
    try apply Nat.ltb_ge in E1; try apply Nat.ltb_ge in E2; lia.
Qed.

(** The retry loop extends the call history by a chain that starts with the
    records it was given, is no longer than the attempts the policy and the
    deadline leave, and ends the way its last call says.  It gives up on
    records that are still failed only when no attempt is left. *)
Lemma retryLoop_run (f : flusher) (ctx : Context) (retrier : Retrier)
    (failedRecords : list bytes) (w : World C) :
  exists cs,
    calls (snd (retryLoop f ctx retrier failedRecords w)) = calls w ++ cs /\
    deadline_attempts (snd (retryLoop f ctx retrier failedRecords w))
      = deadline_attempts w /\
    (List.length cs <= MaxCount (policy retrier) - count retrier)%nat /\
    (List.length cs <= deadline_attempts w - count retrier)%nat /\
    Forall (answered ctx) cs /\
    (forall stillFailed,
        fst (retryLoop f ctx retrier failedRecords w) = Return (inr stillFailed) ->
        stillFailed <> [] ->
        List.length cs = Nat.min (MaxCount (policy retrier) - count retrier)
                                 (deadline_attempts w - count retrier)) /\
    ((cs = [] /\
      fst (retryLoop f ctx retrier failedRecords w) = Return (inr failedRecords))
     \/
     (retry_chain failedRecords cs /\
      exists c, last_call cs = Some c /\
        fst (retryLoop f ctx retrier failedRecords w) = loop_result c)).
Proof.
  funelim (retryLoop f ctx retrier failedRecords w);
    try match goal with
    | Hb : retryBody ?f ?ctx ?rs ?w = (_, _) |- _ =>
        destruct (retryBody_spec f ctx rs w)
          as (c & w0 & Hs & Hk & Hd & _ & Hans & _ & Ha);
        rewrite Hb in Hs; injection Hs as Hres Hw; subst w0;
        assert (Hansw : answered ctx c) by (eexists; exact Hans)
    end;
    try match goal with
    | Hc : Continue _ _ = (true, _) |- _ =>
        pose proof Hc as Hc2; apply Continue_true_count in Hc2;
        destruct Hc2 as (Hp & Hn & Hlt & Hdl)
    end.
  - exists []. simpl. rewrite app_nil_r.
    match goal with
    | Hc : Continue _ _ = (false, _) |- _ =>
        pose proof Hc as Hc2; apply Continue_false_count in Hc2
    end.
    repeat split; try lia; auto.
  - exists [c]. simpl. repeat split; try lia; auto; try discriminate. right.
    split; [constructor; assumption|]. exists c. split; [reflexivity|].
    unfold loop_result. rewrite <- Hres. reflexivity.
  - exists [c]. simpl. repeat split; try lia; auto; try discriminate. right.
    split; [constructor; assumption|]. exists c. split; [reflexivity|].
    unfold loop_result. rewrite <- Hres. reflexivity.
  - exists [c]. simpl. repeat split; try lia; auto.
    + intros F HF HFne. injection HF as <-.
      destruct failedRecords'; [congruence | discriminate].
    + right.
      split; [constructor; assumption|]. exists c. split; [reflexivity|].
      unfold loop_result. rewrite <- Hres. reflexivity.
  - match goal with
    | IH : exists _, _ |- _ =>
        destruct IH as (cs & Hcs & Hda & Hl1 & Hl2 & Hall & Hex & Hend)
    end.
    exists (c :: cs). rewrite Hcs, Hk, <- app_assoc. cbn [List.length app].
    rewrite Hda, Ha. rewrite Hp, Hn in Hl1. rewrite Ha, Hn in Hl2.
    rewrite Hp, Hn, Ha in Hex.
    repeat split; try lia; auto.
    + intros F HF HFne. specialize (Hex F HF HFne). lia.
    + right.
      assert (Hne : failedRecords' <> []).
      { intros ->. discriminate. }
      destruct Hend as [[-> Hr] | [Hch (c' & Hlast & Hr)]].
      * split; [constructor; assumption|]. exists c. split; [reflexivity|].
        rewrite Hr. unfold loop_result. rewrite <- Hres. reflexivity.
      * split.
        -- eapply chain_cons; eauto.
        -- exists c'. split; [|assumption].
           rewrite last_call_cons; [assumption|].
           eapply retry_chain_nonempty; eassumption.
Qed.

(** Every run of [Flush]: at least one call, a chain that starts with the
    batch, at most three retries, and the result its last call dictates;
    records are reported as failed only once the retries are used up. *)
Lemma Flush_run (f : flusher) (records : list bytes) (w : World C) :
  exists cs c w',
    Flush f records w = (flush_result c, w') /\
    calls w' = calls w ++ cs /\
    retry_chain records cs /\
    last_call cs = Some c /\
    (List.length cs <= 1 + 3)%nat /\
    (List.length cs <= 1 + deadline_attempts w)%nat /\
    Forall (answered (WithTimeout Background (flushTimeout f))) cs /\
    (forall stillFailed,
        call_result c = Return (stillFailed, None) -> stillFailed <> [] ->
        List.length cs = (1 + Nat.min 3 (deadline_attempts w))%nat).
Proof.
  unfold Flush.
  destruct (putRecords_spec f (WithTimeout Background (flushTimeout f)) records w)
    as (c0 & w1 & Hp & Hk & Hd & _ & Hans & _ & Ha).
  assert (Hansw : answered (WithTimeout Background (flushTimeout f)) c0)
    by (eexists; exact Hans).
  unfold bind at 1. rewrite Hp.
  destruct (call_result c0) as [[failedRecords [err|]]|msg] eqn:Hres.
  - exists [c0], c0, w1. unfold ret, flush_result. rewrite Hres. simpl.
    repeat split; auto; try lia; try discriminate. constructor; assumption.
  - destruct (List.length failedRecords =? 0)%nat eqn:Hlen.
    + apply Nat.eqb_eq in Hlen. destruct failedRecords; [|discriminate].
      exists [c0], c0, w1. unfold ret, flush_result. rewrite Hres. simpl.
      repeat split; auto; try lia.
      * constructor; assumption.
      * intros F HF HFne. congruence.
    + apply Nat.eqb_neq in Hlen.
      assert (Hne : failedRecords <> []) by (intros ->; apply Hlen; reflexivity).
      match goal with |- context [retryLoop ?f ?ctx ?r ?fr] =>
        destruct (retryLoop_run f ctx r fr w1)
          as (cs & Hcs & Hda & Hl1 & Hl2 & Hall & Hex & Hend);
        unfold bind; destruct (retryLoop f ctx r fr w1) as [res w2] eqn:HL
      end.
      simpl in Hcs, Hda, Hl1, Hl2, Hend, Hex. rewrite Ha in Hl2, Hex.
      rewrite Nat.sub_0_r in Hex.
      destruct Hend as [[-> Hr] | [Hch (c' & Hlast & Hr)]].
      * subst res. exists [c0], c0, w2.
        destruct failedRecords as [|r0 rest]; [congruence|].
        unfold ret, flush_result. rewrite Hres. simpl.
        rewrite Hcs, Hk, app_nil_r.
        repeat split; auto; try lia.
        -- constructor; assumption.
        -- intros F HF HFne. specialize (Hex (r0 :: rest) eq_refl Hne).
           simpl in Hex. lia.
      * exists (c0 :: cs), c', w2.
        rewrite last_call_cons by (eapply retry_chain_nonempty; eassumption).
        rewrite Hcs, Hk, <- app_assoc.
        split.
        { subst res. unfold loop_result, flush_result.
          destruct (call_result c') as [[fr [e|]]|m]; try reflexivity.
          destruct fr; reflexivity. }
        repeat split; auto; simpl; try lia.
        -- eapply chain_cons; eauto.
        -- intros F HF HFne. subst res. unfold loop_result in Hex.
           rewrite HF in Hex. specialize (Hex F eq_refl HFne). lia.
  - exists [c0], c0, w1. unfold flush_result. rewrite Hres. simpl.
    repeat split; auto; try lia; try discriminate. constructor; assumption.
Qed.

Lemma retry_chain_middle (records : list bytes) (pre : list Call) (c : Call)
    (post : list Call) :
  retry_chain records (pre ++ c :: post) -> post <> [] ->
  exists failedRecords,
    call_result c = Return (failedRecords, None) /\ failedRecords <> [].
Proof.
  revert records. induction pre as [|c0 pre IH]; intros records Hch Hpost.
  - simpl in Hch. inversion Hch; subst; [congruence|]. eauto.
  - simpl in Hch. inversion Hch; subst.
    + destruct pre; discriminate.
    + eapply IH; eauto.
Qed.

Lemma last_call_app (pre : list Call) (c : Call) :
  last_call (pre ++ [c]) = Some c.
Proof.
  induction pre as [|c0 pre IH]; [reflexivity|].
  change ((c0 :: pre) ++ [c]) with (c0 :: (pre ++ [c])).
  rewrite last_call_cons; [assumption|].
  destruct pre; discriminate.
Qed.

Lemma collectFailed_no_codes (records : list bytes)
    (results : list PutRecordsResultEntry) (i : nat) (acc : list bytes) :
  existsb hasErrorCode results = false ->
  collectFailed records i results acc = Return acc.
Proof.
  revert i acc. induction results as [|rr rest IH]; intros i acc Hno.
  - reflexivity.
  - simpl in Hno. apply orb_false_iff in Hno. destruct Hno as [Hrr Hrest].
    unfold hasErrorCode in Hrr. simpl.
    destruct (ErrorCode rr); [discriminate|]. apply IH; assumption.
Qed.

Lemma zero_failed_result (records : list bytes) (out : PutRecordsOutput) :
  zero_failed out = true ->
  response_result records (Some out, None) = Return ([], None).
Proof.
  unfold zero_failed, response_result.
  destruct (FailedRecordCount out) as [n|]; [|reflexivity].
  destruct (n =? 0)%Z eqn:E0; [reflexivity|]. simpl.
  intros Hz. apply andb_true_iff in Hz. destruct Hz as [Hpos Hno].
  apply Z.ltb_lt in Hpos.
  destruct (n <? 0)%Z eqn:E1; [apply Z.ltb_lt in E1; lia|].
  apply negb_true_iff in Hno.
  rewrite collectFailed_no_codes by assumption. reflexivity.
Qed.

(** What the calls of a flush are, given its final history. *)
Lemma Flush_run_calls (f : flusher) (records : list bytes) (w : World C)
    (cs : list Call) :
  calls (snd (Flush f records w)) = calls w ++ cs ->
  exists c,
    fst (Flush f records w) = flush_result c /\
    retry_chain records cs /\
    last_call cs = Some c /\
    (List.length cs <= 1 + 3)%nat /\
    Forall (answered (WithTimeout Background (flushTimeout f))) cs /\
    (forall stillFailed,
        call_result c = Return (stillFailed, None) -> stillFailed <> [] ->
        List.length cs = (1 + Nat.min 3 (deadline_attempts w))%nat).
Proof.
  intros Hcalls.
  destruct (Flush_run f records w)
    as (cs' & c & w' & HF & Hk & Hch & Hl & Hb & _ & Hall & Hex).
  rewrite HF in Hcalls. simpl in Hcalls. rewrite Hk in Hcalls.
  apply app_inv_head in Hcalls. subst cs'.
  exists c. rewrite HF. simpl. repeat split; assumption.
Qed.

End FlusherFacts.

(** *** Against the partially failing client of the tests *)

Lemma oddFrom_map {A B : Type} (g : A -> B) (l : list A) (i : nat) :
  oddFrom i (map g l) = map g (oddFrom i l).
Proof.
  revert i. induction l as [|x rest IH]; intros i; [reflexivity|].
  cbn [oddFrom map]. destruct (negb (i mod 2 =? 0)%nat); cbn [map]; rewrite IH;
    reflexivity.
Qed.

Lemma partialEntries_count (c : testClientState) (es : list PutRecordsRequestEntry)
    (i : nat) :
  snd (partialEntries c i es) = len (oddFrom i es).
Proof.
  revert i. induction es as [|e rest IH]; intros i; [reflexivity|].
  cbn [partialEntries oddFrom]. specialize (IH (S i)).
  destruct (partialEntries c (S i) rest) as [entries n]. simpl in IH. subst n.
  destruct (negb (i mod 2 =? 0)%nat); cbn [snd]; unfold len;
    cbn [List.length]; lia.
Qed.

Lemma partialEntries_collect (c : testClientState)
    (es : list PutRecordsRequestEntry) (i : nat) (pre acc : list bytes) :
  List.length pre = i ->
  collectFailed (pre ++ map Data es) i (fst (partialEntries c i es)) acc
  = Return (acc ++ oddFrom i (map Data es)).
Proof.
  revert i pre acc. induction es as [|e rest IH]; intros i pre acc Hlen.
  - simpl. rewrite app_nil_r. reflexivity.
  - cbn [partialEntries oddFrom map].
    specialize (IH (S i) (pre ++ [Data e])).
    destruct (partialEntries c (S i) rest) as [entries n]. simpl in IH.
    assert (Hnth : nth_error (pre ++ Data e :: map Data rest) i = Some (Data e)).
    { rewrite nth_error_app2 by lia. subst i. rewrite Nat.sub_diag. reflexivity. }
    assert (Heq : pre ++ Data e :: map Data rest = (pre ++ [Data e]) ++ map Data rest).
    { rewrite <- app_assoc. reflexivity. }
    destruct (negb (i mod 2 =? 0)%nat); simpl.
    + rewrite Hnth, Heq, IH by (rewrite length_app; simpl; lia).
      rewrite <- app_assoc. reflexivity.
    + rewrite Heq, IH by (rewrite length_app; simpl; lia). reflexivity.
Qed.

(** Whatever its state, the partially failing client makes [putRecords] find
    the records at the odd positions failed. *)
Lemma partial_call_result (ctx : Context) (c : Call) :
  answered (H:=partialFailedKinesisClient) ctx c ->
  call_result c = Return (oddFrom 0 (call_data c), None).
Proof.
  intros [cst Hans]. simpl in Hans.
  unfold partialFailedKinesisClient_PutRecords in Hans.
  pose proof (partialEntries_count cst (Records (call_input c)) 0) as Hn.
  assert (Hcol : collectFailed (map Data (Records (call_input c))) 0
                   (fst (partialEntries cst 0 (Records (call_input c)))) []
                 = Return (oddFrom 0 (map Data (Records (call_input c)))))
    by (apply (partialEntries_collect cst (Records (call_input c)) [] []
                 eq_refl)).
  destruct (partialEntries cst 0 (Records (call_input c))) as [entries n] eqn:Hpe.
  cbn [fst snd] in Hans, Hn, Hcol. injection Hans as Hout Herr.
  unfold call_result, response_result. rewrite Hout, Herr.
  cbn [FailedRecordCount out_Records].
  unfold call_data. subst n. rewrite oddFrom_map.
  destruct (oddFrom 0 (Records (call_input c))) as [|x l] eqn:Hodd.
  - reflexivity.
  - replace (len (x :: l) =? 0)%Z with false
      by (symmetry; apply Z.eqb_neq; unfold len; cbn [List.length]; lia).
    replace (len (x :: l) <? 0)%Z with false
      by (symmetry; apply Z.ltb_ge; unfold len; lia).
    rewrite Hcol. rewrite oddFrom_map, Hodd. reflexivity.
Qed.

(** ** Memory and slices *)

Lemma length_setArray (m : Mem) (a : nat) (content : bytes) :
  List.length (setArray m a content) = List.length m.
Proof.
  revert a. induction m as [|x rest IH]; intros a; [reflexivity|].
  destruct a as [|a]; cbn [setArray List.length]; [reflexivity|].
  rewrite IH. reflexivity.
Qed.

Lemma array_setArray_same (m : Mem) (a : nat) (content : bytes) :
  (a < List.length m)%nat -> array (setArray m a content) a = content.
Proof.
  unfold array. revert a. induction m as [|x rest IH]; intros a Ha.
  - cbn in Ha. lia.
  - destruct a as [|a]; cbn [setArray nth]; [reflexivity|].
    apply IH. cbn in Ha. lia.
Qed.

Lemma array_setArray_other (m : Mem) (a a' : nat) (content : bytes) :
  a' <> a -> array (setArray m a content) a' = array m a'.
Proof.
  unfold array. revert a a'. induction m as [|x rest IH]; intros a a' Hne.
  - reflexivity.
  - destruct a as [|a], a' as [|a']; cbn [setArray nth]; try reflexivity.
    + congruence.
    + apply IH. congruence.
Qed.

Lemma setArray_beyond (m : Mem) (a : nat) (content : bytes) :
  (List.length m <= a)%nat -> setArray m a content = m.
Proof.
  revert a. induction m as [|x rest IH]; intros a Ha; [reflexivity|].
  destruct a as [|a]; cbn in Ha; [lia|].
  cbn [setArray]. rewrite IH by lia. reflexivity.
Qed.

Lemma array_make_old (n : nat) (m : Mem) (a : nat) :
  (a < List.length m)%nat -> array (snd (make n m)) a = array m a.
Proof. intros Ha. unfold array, make. cbn [snd]. apply app_nth1. exact Ha. Qed.

Lemma array_make_new (n : nat) (m : Mem) :
  array (snd (make n m)) (List.length m) = repeat x00 n.
Proof.
  unfold array, make. cbn [snd]. rewrite app_nth2 by lia.
  rewrite Nat.sub_diag. reflexivity.
Qed.

(** What [copy] does to the memory: the array of the destination gets the
    bytes copied at the offset of the destination, and no other array
    changes. *)
Lemma copy_spec (dst : slice) (src : bytes) (m : Mem) :
  fst (copy dst src m) = Nat.min (slen dst) (List.length src) /\
  List.length (snd (copy dst src m)) = List.length m /\
  (forall a, a <> arr dst -> array (snd (copy dst src m)) a = array m a) /\
  ((arr dst < List.length m)%nat ->
   array (snd (copy dst src m)) (arr dst)
   = firstn (off dst) (array m (arr dst))
     ++ firstn (Nat.min (slen dst) (List.length src)) src
     ++ skipn (off dst + Nat.min (slen dst) (List.length src))
              (array m (arr dst))).
Proof.
  unfold copy. cbn [fst snd]. repeat split.
  - apply length_setArray.
  - intros a Ha. apply array_setArray_other. exact Ha.
  - intros Ha. apply array_setArray_same. exact Ha.
Qed.

Lemma deref_subslice (m : Mem) (s : slice) (lo hi : nat) :
  (hi <= slen s)%nat ->
  deref m (subslice s lo hi) = firstn (hi - lo) (skipn lo (deref m s)).
Proof.
  intros Hhi. unfold deref, subslice. cbn [arr off slen].
  rewrite skipn_firstn_comm, firstn_firstn, skipn_skipn.
  rewrite Nat.min_l by lia.
  replace (lo + off s)%nat with (off s + lo)%nat by lia. reflexivity.
Qed.

Lemma length_deref (m : Mem) (s : slice) :
  (off s + slen s <= List.length (array m (arr s)))%nat ->
  List.length (deref m s) = slen s.
Proof.
  intros Hin. unfold deref. rewrite length_firstn, length_skipn. lia.
Qed.

Lemma removelast_firstn_le {A : Type} (n : nat) (l : list A) :
  (n <= List.length l)%nat -> removelast (firstn n l) = firstn (n - 1) l.
Proof.
  intros Hn. destruct n as [|n]; [reflexivity|].
  replace (S n - 1)%nat with n by lia.
  apply removelast_firstn. lia.
Qed.

(** [dropCR] on a slice is [trimCR] on what it holds. *)
Lemma deref_dropCR (m : Mem) (s : slice) :
  (off s + slen s <= List.length (array m (arr s)))%nat ->
  deref m (dropCR s m) = trimCR (deref m s) /\
  arr (dropCR s m) = arr s.
Proof.
  intros Hin. unfold dropCR, trimCR. rewrite (length_deref m s Hin).
  destruct ((0 <? slen s)%nat && Byte.eqb (last (deref m s) x00) CR).
  - split; [|reflexivity]. unfold deref, subslice. cbn [arr off slen].
    rewrite Nat.add_0_r, Nat.sub_0_r.
    rewrite removelast_firstn_le; [reflexivity|].
    rewrite length_skipn. lia.
  - split; reflexivity.
Qed.
(** ** The scanner with the line splitter *)

Lemma MaxScanTokenSize_pos : (0 < MaxScanTokenSize)%nat.
Proof. apply Nat.ltb_lt. vm_compute. reflexivity. Qed.

Lemma MaxScanTokenSize_Z : Z.of_nat MaxScanTokenSize = 65536%Z.
Proof. vm_compute. reflexivity. Qed.

Lemma startBufSize_bounds :
  (0 < startBufSize)%nat /\ (startBufSize <= MaxScanTokenSize)%nat.
Proof.
  split; [apply Nat.ltb_lt | apply Nat.leb_le]; vm_compute; reflexivity.
Qed.

Global Opaque MaxScanTokenSize startBufSize.

Lemma breakLine_split (p : bytes) :
  p = fst (breakLine p)
      ++ match snd (breakLine p) with Some after => LF :: after | None => [] end.
Proof.
  induction p as [|x rest IH]; [reflexivity|].
  simpl. destruct (Byte.eqb x LF) eqn:Ex.
  - apply Byte.byte_dec_bl in Ex. subst x. reflexivity.
  - destruct (breakLine rest) as [line after]. simpl in *. congruence.
Qed.

Lemma IndexByte_breakLine (p : bytes) :
  IndexByte p LF = match snd (breakLine p) with
                   | Some _ => len (fst (breakLine p))
                   | None => (-1)%Z
                   end.
Proof.
  induction p as [|x rest IH]; [reflexivity|].
  simpl. destruct (Byte.eqb x LF); [reflexivity|].
  destruct (breakLine rest) as [line after]. simpl in *. rewrite IH.
  destruct after.
  - replace (len line <? 0)%Z with false
      by (symmetry; apply Z.ltb_ge; unfold len; lia).
    unfold len. cbn [List.length]. lia.
  - reflexivity.
Qed.

Lemma breakLine_app (data rest : bytes) :
  breakLine (data ++ rest) =
  match snd (breakLine data) with
  | Some after => (fst (breakLine data), Some (after ++ rest))
  | None => (data ++ fst (breakLine rest), snd (breakLine rest))
  end.
Proof.
  induction data as [|x data IH].
  - cbn. destruct (breakLine rest). reflexivity.
  - change ((x :: data) ++ rest) with (x :: (data ++ rest)).
    cbn [breakLine]. destruct (Byte.eqb x LF); [reflexivity|].
    rewrite IH. destruct (breakLine data) as [line [after|]]; reflexivity.
Qed.

Lemma lines_breakLine (x : byte) (rest : bytes) :
  lines (x :: rest) =
  fst (breakLine (x :: rest))
  :: match snd (breakLine (x :: rest)) with
     | Some after => lines after
     | None => []
     end.
Proof.
  revert x. induction rest as [|y rest IH]; intros x.
  - simpl. destruct (Byte.eqb x LF); reflexivity.
  - cbn [lines breakLine] in *. destruct (Byte.eqb x LF); [reflexivity|].
    specialize (IH y). cbn [lines breakLine] in IH. rewrite IH.
    destruct (Byte.eqb y LF); [reflexivity|].
    destruct (breakLine rest) as [line after]. reflexivity.
Qed.

Lemma frame_refl (base : nat) (m : Mem) : frame base m m.
Proof. split; [lia | reflexivity]. Qed.

Lemma frame_trans (base : nat) (m1 m2 m3 : Mem) :
  frame base m1 m2 -> frame base m2 m3 -> frame base m1 m3.
Proof.
  intros [Hl1 Ha1] [Hl2 Ha2]. split; [lia|].
  intros a Ha. rewrite Ha2, Ha1 by exact Ha. reflexivity.
Qed.

(** The data held, read off the array of the buffer. *)
Lemma held_deref (base : nat) (s : Scanner) (m : Mem) :
  scanning base s m ->
  deref m (held s)
  = firstn (end_ s - start s) (skipn (start s) (array m (arr (buf s)))) /\
  List.length (deref m (held s)) = (end_ s - start s)%nat.
Proof.
  intros Hsc. destruct Hsc as [_ _ _ Hoff _ _ Harr [Hse Hel] _].
  assert (Heq : deref m (held s)
                = firstn (end_ s - start s)
                    (skipn (start s) (array m (arr (buf s))))).
  { unfold deref, held, subslice. cbn [arr off slen]. rewrite Hoff. reflexivity. }
  split; [exact Heq|]. rewrite Heq, length_firstn, length_skipn.
  destruct Harr as [Hz | (_ & _ & Hlen)]; lia.
Qed.

Lemma scanning_frame (base : nat) (s : Scanner) (m m' : Mem) :
  scanning base s m ->
  (List.length m <= List.length m')%nat ->
  array m' (arr (buf s)) = array m (arr (buf s)) ->
  scanning base s m'.
Proof.
  intros [H1 H2 H3 H4 H5 H6 H7 H8 H9] Hlen Harr.
  constructor; try assumption; [lia|].
  destruct H7 as [Hz | (Hb & Ha & Hl)]; [left; exact Hz|].
  right. rewrite Harr. repeat split; try assumption. lia.
Qed.

(** Moving the data to the beginning of the buffer keeps the data. *)
Lemma shift_scanning (base : nat) (s : Scanner) (m : Mem) :
  scanning base s m -> scan_err s = NoErr ->
  scanning base (fst (shift s m)) (snd (shift s m)) /\
  deref (snd (shift s m)) (held (fst (shift s m))) = deref m (held s) /\
  rd (fst (shift s m)) = rd s /\
  scan_err (fst (shift s m)) = NoErr /\
  (end_ (fst (shift s m)) = slen (buf (fst (shift s m))) ->
   start (fst (shift s m)) = 0%nat) /\
  frame base m (snd (shift s m)).
Proof.
  intros Hsc Herr. pose proof (held_deref Hsc) as [Hheld Hhlen].
  pose proof Hsc as [H1 H2 H3 H4 H5 H6 H7 [Hse Hel] H9].
  unfold shift.
  destruct ((0 <? start s)%nat
            && ((end_ s =? slen (buf s))%nat || (slen (buf s) / 2 <? start s)%nat))
    eqn:Hcond.
  - apply andb_true_iff in Hcond. destruct Hcond as [Hpos _].
    apply Nat.ltb_lt in Hpos.
    destruct H7 as [Hz | (Hb & Ha & Hl)]; [lia|].
    pose proof (copy_spec (buf s) (deref m (held s)) m) as (_ & Hclen & Hother & Hsame).
    specialize (Hsame Ha). rewrite Hhlen, H4 in Hsame.
    rewrite Nat.min_r in Hsame by lia. cbn [firstn app] in Hsame.
    rewrite firstn_all2 in Hsame by lia. cbn [Nat.add] in Hsame.
    destruct (copy (buf s) (deref m (held s)) m) as [n m'] eqn:Hcp.
    cbn [fst snd] in *.
    assert (Hdata : deref m' (held (withWindow s (buf s) 0 (end_ s - start s)))
                    = deref m (held s)).
    { remember (deref m (held s)) as data eqn:Hd.
      unfold deref, held, subslice.
      cbn [arr off slen buf start end_ withWindow].
      rewrite H4, Hsame. cbn [Nat.add skipn]. rewrite Nat.sub_0_r, app_nil_l.
      rewrite firstn_app, Hhlen, Nat.sub_diag. cbn [firstn].
      rewrite app_nil_r. apply firstn_all2. lia. }
    repeat split; cbn [split maxTokenSize done buf start end_ scan_err rd withWindow];
      try assumption; try lia.
    + right. repeat split; try lia.
      rewrite Hsame, app_nil_l, length_app, Hhlen, length_skipn. lia.
    + left. exact Herr.
    + intros a Hlt. apply Hother. lia.
  - cbn [fst snd]. repeat split; try assumption; try lia.
    intros Heq. apply andb_false_iff in Hcond.
    destruct Hcond as [Hc | Hc].
    + apply Nat.ltb_ge in Hc. lia.
    + apply orb_false_iff in Hc. destruct Hc as [Hc _].
      apply Nat.eqb_neq in Hc. congruence.
Qed.

(** A full buffer either cannot grow, being of the maximal token size, or is
    replaced by a larger one that holds the same data and has room. *)
Lemma grow_scanning (base : nat) (s : Scanner) (m : Mem) :
  scanning base s m -> scan_err s = NoErr ->
  match grow s m with
  | None => end_ s = MaxScanTokenSize /\ slen (buf s) = MaxScanTokenSize
  | Some (s', m') =>
      scanning base s' m' /\ pending s' m' = pending s m /\
      scan_err s' = NoErr /\ (end_ s' < slen (buf s'))%nat /\
      frame base m m'
  end.
Proof.
  intros Hsc Herr. pose proof (held_deref Hsc) as [Hheld Hhlen].
  pose proof Hsc as [H1 H2 H3 H4 H5 H6 H7 [Hse Hel] H9].
  pose proof MaxScanTokenSize_pos as HM. pose proof MaxScanTokenSize_Z as HMZ.
  pose proof startBufSize_bounds as [HS1 HS2].
  unfold grow. destruct (end_ s =? slen (buf s))%nat eqn:Hfull.
  - apply Nat.eqb_eq in Hfull. rewrite H2.
    replace (maxInt / 2 <? Z.of_nat (slen (buf s)))%Z with false.
    2:{ symmetry. apply Z.ltb_ge.
        transitivity 65536%Z; [lia|]. vm_compute. discriminate. }
    rewrite orb_false_r.
    destruct (MaxScanTokenSize <=? slen (buf s))%nat eqn:Hmax.
    + apply Nat.leb_le in Hmax. lia.
    + apply Nat.leb_gt in Hmax. cbv zeta.
      set (newSize := Nat.min (if (slen (buf s) * 2 =? 0)%nat
                               then startBufSize else (slen (buf s) * 2)%nat)
                              MaxScanTokenSize).
      assert (Hnew : (slen (buf s) < newSize)%nat /\ (newSize <= MaxScanTokenSize)%nat).
      { unfold newSize. destruct (slen (buf s) * 2 =? 0)%nat eqn:Hz.
        - apply Nat.eqb_eq in Hz. lia.
        - apply Nat.eqb_neq in Hz. lia. }
      destruct Hnew as [Hn1 Hn2].
      unfold make.
      set (m1 := m ++ [repeat x00 newSize]).
      set (newBuf := {| arr := List.length m; off := 0; slen := newSize |}).
      assert (Hd1 : deref m1 (held s) = deref m (held s)).
      { destruct H7 as [Hz | (Hb & Ha & Hl)].
        - unfold deref, held, subslice. cbn [arr off slen].
          replace (end_ s - start s)%nat with 0%nat by lia. reflexivity.
        - unfold deref, held, subslice. cbn [arr off slen].
          f_equal. f_equal. unfold m1, array. apply app_nth1. exact Ha. }
      rewrite Hd1.
      pose proof (copy_spec newBuf (deref m (held s)) m1) as (_ & Hclen & Hother & Hsame).
      assert (Hin : (arr newBuf < List.length m1)%nat).
      { unfold m1. rewrite length_app. cbn. lia. }
      specialize (Hsame Hin). cbn [arr off slen newBuf] in Hsame.
      rewrite Hhlen in Hsame. rewrite Nat.min_r in Hsame by lia.
      cbn [firstn Nat.add] in Hsame. rewrite app_nil_l in Hsame.
      rewrite firstn_all2 in Hsame by lia.
      assert (Hzero : array m1 (List.length m) = repeat x00 newSize).
      { unfold m1, array. rewrite app_nth2 by lia. rewrite Nat.sub_diag. reflexivity. }
      rewrite Hzero in Hsame.
      destruct (copy newBuf (deref m (held s)) m1) as [n m2] eqn:Hcp.
      cbn [fst snd] in *.
      assert (Hm1 : List.length m1 = S (List.length m)).
      { unfold m1. rewrite length_app. cbn. lia. }
      assert (Hdata : deref m2 (held (withWindow s newBuf 0 (end_ s - start s)))
                      = deref m (held s)).
      { remember (deref m (held s)) as data eqn:Hd.
        unfold deref, held, subslice.
        cbn [arr off slen buf start end_ withWindow newBuf].
        rewrite Hsame. cbn [Nat.add skipn]. rewrite Nat.sub_0_r.
        rewrite firstn_app, Hhlen, Nat.sub_diag. cbn [firstn].
        rewrite app_nil_r. apply firstn_all2. lia. }
      repeat split;
        cbn [split maxTokenSize done buf start end_ scan_err rd withWindow
             arr off slen newBuf];
        try assumption; try lia.
      * right. repeat split; try lia.
        rewrite Hsame, length_app, Hhlen, length_skipn, repeat_length. lia.
      * left. exact Herr.
      * unfold pending. rewrite Hdata. reflexivity.
      * intros a Hlt. rewrite Hother by (cbn [arr newBuf]; lia).
        unfold m1, array. apply app_nth1. lia.
  - apply Nat.eqb_neq in Hfull.
    repeat split; try assumption; try lia.
Qed.

(** Reading into the free end of the buffer moves bytes from the reader to
    the data held, or sets the end of the input; one read is enough. *)
Lemma readMore_scanning (base tries : nat) (s : Scanner) (m : Mem) :
  scanning base s m -> scan_err s = NoErr -> (end_ s < slen (buf s))%nat ->
  scanning base (fst (readMore tries s m)) (snd (readMore tries s m)) /\
  pending (fst (readMore tries s m)) (snd (readMore tries s m)) = pending s m /\
  frame base m (snd (readMore tries s m)).
Proof.
  intros Hsc Herr Hroom. pose proof (held_deref Hsc) as [Hheld Hhlen].
  pose proof Hsc as [H1 H2 H3 H4 H5 H6 H7 [Hse Hel] H9].
  destruct H7 as [Hz | (Hb & Ha & Hl)]; [lia|].
  assert (Hunfold : readMore tries s m =
            let '(n, err, r, m') :=
              Reader_Read (rd s) (subslice (buf s) (end_ s) (slen (buf s))) m in
            let s := withReader s r in
            if (slen (buf s) - end_ s <? n)%nat
            then (setErr s (Failed ErrBadReadCount), m')
            else
              let s := withWindow s (buf s) (start s) (end_ s + n) in
              if isSet err then (setErr s err, m')
              else if (0 <? n)%nat then (withEmpties s 0, m')
              else match tries with
                   | O => (setErr s (Failed ErrNoProgress), m')
                   | S tries' => readMore tries' s m'
                   end).
  { destruct tries; reflexivity. }
  rewrite Hunfold. clear Hunfold. unfold Reader_Read.
  destruct (List.length (r_s (rd s)) <=? r_i (rd s))%nat eqn:Hex.
  - apply Nat.leb_le in Hex.
    cbn [withReader withWindow buf end_ start isSet fst snd].
    replace (slen (buf s) - end_ s <? 0)%nat with false
      by (symmetry; apply Nat.ltb_ge; lia).
    cbn [fst snd]. unfold setErr. cbn [scan_err withWindow withReader].
    rewrite Herr, Nat.add_0_r.
    repeat split; cbn [split maxTokenSize done buf start end_ scan_err rd];
      try assumption; try lia.
    + right. repeat split; try assumption; lia.
    + right. repeat split; try assumption; lia.
  - apply Nat.leb_gt in Hex.
    set (rest := skipn (r_i (rd s)) (r_s (rd s))).
    assert (Hrest : List.length rest = (List.length (r_s (rd s)) - r_i (rd s))%nat).
    { unfold rest. apply length_skipn. }
    set (dst := subslice (buf s) (end_ s) (slen (buf s))).
    pose proof (copy_spec dst rest m) as (Hn & Hclen & Hother & Hsame).
    assert (Hin : (arr dst < List.length m)%nat) by exact Ha.
    specialize (Hsame Hin). cbn [arr off slen dst subslice] in Hsame, Hn.
    rewrite H4 in Hsame. cbn [Nat.add] in Hsame.
    destruct (copy dst rest m) as [n m'] eqn:Hcp. cbn [fst snd] in *.
    rewrite <- Hn in Hsame.
    assert (Hnpos : (0 < n)%nat) by lia.
    assert (Hnle : (n <= slen (buf s) - end_ s)%nat) by lia.
    assert (Hnrest : (n <= List.length rest)%nat) by lia.
    cbn [withReader withWindow buf end_ start isSet].
    replace (slen (buf s) - end_ s <? n)%nat with false
      by (symmetry; apply Nat.ltb_ge; lia).
    replace (0 <? n)%nat with true by (symmetry; apply Nat.ltb_lt; lia).
    cbn [fst snd].
    assert (Hdata : deref m' (held (withEmpties
                       (withWindow (withReader s {| r_s := r_s (rd s);
                                                    r_i := r_i (rd s) + n |})
                                   (buf s) (start s) (end_ s + n)) 0))
                    = deref m (held s) ++ firstn n rest).
    { rewrite Hheld. unfold deref, held, subslice.
      cbn [arr off slen buf start end_ withWindow withReader withEmpties].
      rewrite H4, Hsame. cbn [Nat.add].
      rewrite skipn_app, length_firstn, Nat.min_l by lia.
      replace (start s - end_ s)%nat with 0%nat by lia. cbn [skipn].
      rewrite firstn_app, length_skipn, length_firstn, Nat.min_l by lia.
      rewrite (firstn_all2 (skipn (start s) (firstn (end_ s) _)))
        by (rewrite length_skipn, length_firstn; lia).
      replace (end_ s + n - start s - (end_ s - start s))%nat with n by lia.
      rewrite firstn_app, length_firstn, Nat.min_l by lia.
      rewrite Nat.sub_diag. cbn [firstn]. rewrite app_nil_r.
      rewrite (firstn_all2 (firstn n rest)) by (rewrite length_firstn; lia).
      rewrite skipn_firstn_comm. reflexivity. }
    repeat split;
      cbn [split maxTokenSize done buf start end_ scan_err rd withWindow
           withReader withEmpties];
      try assumption; try lia.
    + right. repeat split; try lia.
      rewrite Hsame, !length_app, !length_firstn, length_skipn. lia.
    + left. exact Herr.
    + unfold pending. rewrite Hdata, <- app_assoc.
      cbn [rd withEmpties withWindow withReader r_i r_s].
      f_equal. fold rest.
      replace (skipn (r_i (rd s) + n) (r_s (rd s))) with (skipn n rest).
      * apply firstn_skipn.
      * unfold rest. rewrite skipn_skipn. f_equal. lia.
    + intros a Hlt. apply Hother. cbn [arr dst subslice]. lia.
Qed.

Lemma breakLine_nil_tail (data : bytes) :
  snd (breakLine data) = None -> fst (breakLine data) = data.
Proof.
  intros Hn. pose proof (breakLine_split data) as Hs. rewrite Hn in Hs.
  rewrite app_nil_r in Hs. symmetry. exact Hs.
Qed.

(** No token can be made from the data held: the scanner reads more, or it
    stops, at the end of the input or before a line that does not fit. *)
Lemma fill_scanning (base : nat) (s : Scanner) (m : Mem) :
  scanning base s m ->
  snd (breakLine (deref m (held s))) = None ->
  (isSet (scan_err s) = true -> deref m (held s) = []) ->
  match fill s m with
  | (Again s', m') =>
      scanning base s' m' /\ pending s' m' = pending s m /\ frame base m m'
  | (Stop (Return (false, s')), m') =>
      frame base m m' /\
      (pending s m = [] \/ shortLine (fst (breakLine (pending s m))) = false)
  | _ => False
  end.
Proof.
  intros Hsc Hnolf Heof. unfold fill.
  destruct (isSet (scan_err s)) eqn:Hset.
  - split; [apply frame_refl|]. left. unfold pending.
    rewrite (Heof eq_refl).
    destruct Hsc as [_ _ _ _ _ _ _ _ [Hn | (_ & Hex & _)]].
    + rewrite Hn in Hset. discriminate.
    + rewrite skipn_all2 by exact Hex. reflexivity.
  - assert (Herr : scan_err s = NoErr)
      by (destruct (scan_err s); [reflexivity | discriminate | discriminate]).
    pose proof (shift_scanning Hsc Herr) as (Hsc1 & Hd1 & Hr1 & He1 & Hs1 & Hf1).
    destruct (shift s m) as [s1 m1]. cbn [fst snd] in *.
    pose proof (grow_scanning Hsc1 He1) as Hg.
    destruct (grow s1 m1) as [[s2 m2]|].
    + destruct Hg as (Hsc2 & Hp2 & He2 & Hroom & Hf2).
      pose proof (readMore_scanning maxConsecutiveEmptyReads Hsc2 He2 Hroom)
        as (Hsc3 & Hp3 & Hf3).
      destruct (readMore maxConsecutiveEmptyReads s2 m2) as [s3 m3].
      cbn [fst snd] in *. split; [exact Hsc3|]. split.
      * rewrite Hp3, Hp2. unfold pending. rewrite Hd1, Hr1. reflexivity.
      * eapply frame_trans; [exact Hf1|]. eapply frame_trans; eassumption.
    + destruct Hg as [Hend Hcap]. split; [exact Hf1|]. right.
      assert (Hst : start s1 = 0%nat) by (apply Hs1; congruence).
      pose proof (held_deref Hsc1) as [_ Hlen1]. rewrite Hd1 in Hlen1.
      unfold pending. rewrite breakLine_app, Hnolf. cbn [fst].
      unfold shortLine. apply Nat.ltb_ge. rewrite length_app. lia.
Qed.

Lemma scanning_advance (base : nat) (s : Scanner) (m : Mem) (k : nat)
    (t : option slice) (e : nat) :
  scanning base s m -> (k <= end_ s - start s)%nat ->
  scanning base
    (withEmpties (withToken (withWindow s (buf s) (start s + k) (end_ s)) t) e) m /\
  deref m (held (withEmpties
                   (withToken (withWindow s (buf s) (start s + k) (end_ s)) t) e))
  = skipn k (deref m (held s)).
Proof.
  intros Hsc Hk. pose proof (held_deref Hsc) as [Hheld _].
  destruct Hsc as [H1 H2 H3 H4 H5 H6 H7 [Hse Hel] H9].
  split.
  - constructor; cbn; try assumption. lia.
  - rewrite Hheld. unfold deref, held, subslice. cbn. rewrite H4. cbn [Nat.add].
    rewrite skipn_firstn_comm, skipn_skipn. f_equal; [lia|]. f_equal. lia.
Qed.

Lemma scanning_token (base : nat) (s : Scanner) (m : Mem) (t : option slice) :
  scanning base s m ->
  scanning base (withToken (withWindow s (buf s) (start s + 0) (end_ s)) t) m /\
  deref m (held (withToken (withWindow s (buf s) (start s + 0) (end_ s)) t))
  = deref m (held s) /\
  pending (withToken (withWindow s (buf s) (start s + 0) (end_ s)) t) m
  = pending s m.
Proof.
  intros Hsc.
  assert (Hd : deref m (held (withToken (withWindow s (buf s) (start s + 0) (end_ s)) t))
               = deref m (held s)).
  { unfold deref, held, subslice. cbn. rewrite !Nat.add_0_r. reflexivity. }
  destruct Hsc as [H1 H2 H3 H4 H5 H6 H7 [Hse Hel] H9].
  split; [|split].
  - constructor; cbn; try assumption. lia.
  - exact Hd.
  - unfold pending. rewrite Hd. reflexivity.
Qed.

Ltac by_fill H :=
  match type of H with
  | match fill ?s ?m with _ => _ end =>
      destruct (fill s m) as [[[[[|] ?]|?]|?] ?];
      [destruct H | exact H | destruct H | exact H]
  end.

(** One pass of [Scan] with the line splitter: it yields the first line of
    what is pending, without its carriage return, when a line feed or the
    end of the input shows where the line ends; it stops when nothing is
    pending or the line does not fit; or it reads more.  The token is a
    window on the buffer of the scanner, and the pass that yields it leaves
    the memory as it stands. *)
Lemma scanPass_ScanLines (base : nat) (s : Scanner) (m : Mem) :
  scanning base s m ->
  match scanPass s m with
  | (Again s', m') =>
      scanning base s' m' /\ pending s' m' = pending s m /\ frame base m m'
  | (Stop (Return (true, s')), m') =>
      m' = m /\ scanning base s' m /\
      shortLine (fst (breakLine (pending s m))) = true /\
      pending s m <> [] /\
      deref m (Scanner_Bytes s') = trimCR (fst (breakLine (pending s m))) /\
      pending s' m = match snd (breakLine (pending s m)) with
                     | Some after => after
                     | None => []
                     end /\
      arr (Scanner_Bytes s') = arr (buf s') /\
      (base <= arr (Scanner_Bytes s'))%nat
  | (Stop (Return (false, s')), m') =>
      frame base m m' /\
      (pending s m = [] \/ shortLine (fst (breakLine (pending s m))) = false)
  | (Stop (Panic _), _) => False
  end.
Proof.
  intros Hsc. pose proof (held_deref Hsc) as [Hheld Hhlen].
  pose proof Hsc as [H1 H2 H3 H4 H5 H6 H7 [Hse Hel] H9].
  pose proof MaxScanTokenSize_pos as HM.
  unfold scanPass.
  destruct ((start s <? end_ s)%nat || isSet (scan_err s)) eqn:Hcond.
  2:{ apply orb_false_iff in Hcond. destruct Hcond as [Hlt Hset].
      apply Nat.ltb_ge in Hlt.
      assert (Hnil : deref m (held s) = []).
      { apply length_zero_iff_nil. lia. }
      pose proof (@fill_scanning base s m Hsc) as Hfill.
      rewrite Hnil in Hfill. specialize (Hfill eq_refl (fun _ => eq_refl)).
      by_fill Hfill. }
  rewrite H1. unfold ScanLines.
  assert (Hsl : slen (held s) = (end_ s - start s)%nat) by reflexivity.
  rewrite Hsl.
  (* the array that holds the data *)
  assert (Hvalid : (0 < end_ s - start s)%nat ->
                   (base <= arr (buf s))%nat /\ (arr (buf s) < List.length m)%nat /\
                   List.length (array m (arr (buf s))) = slen (buf s)).
  { intros Hpos. destruct H7 as [Hz | Hv]; [lia | exact Hv]. }
  destruct (isSet (scan_err s) && (end_ s - start s =? 0)%nat) eqn:Hempty.
  - (* nothing held at the end of the input *)
    apply andb_true_iff in Hempty. destruct Hempty as [Hset Hz].
    apply Nat.eqb_eq in Hz.
    assert (Hnil : deref m (held s) = []).
    { apply length_zero_iff_nil. lia. }
    unfold advance. cbn [Z.ltb Z.compare].
    replace (Z.of_nat (end_ s - start s) <? 0)%Z with false
      by (symmetry; apply Z.ltb_ge; lia).
    cbn [Z.to_nat].
    pose proof (scanning_token None Hsc) as (Hsc' & Hd' & Hp').
    pose proof (@fill_scanning base
                  (withToken (withWindow s (buf s) (start s + 0) (end_ s)) None) m Hsc')
      as Hfill.
    rewrite Hd', Hnil, Hp' in Hfill.
    specialize (Hfill eq_refl (fun _ => eq_refl)).
    by_fill Hfill.
  - rewrite IndexByte_breakLine.
    pose proof (breakLine_split (deref m (held s))) as Hsplit.
    pose proof (breakLine_app (deref m (held s)) (skipn (r_i (rd s)) (r_s (rd s))))
      as Happ.
    fold (pending s m) in Happ.
    destruct (breakLine (deref m (held s))) as [line [after|]] eqn:Hbl;
      cbn [fst snd] in *.
    + (* a line feed in the data held *)
      assert (Hlen : (end_ s - start s = List.length line + 1 + List.length after)%nat).
      { rewrite <- Hhlen, Hsplit, length_app. cbn [List.length]. lia. }
      destruct (Hvalid ltac:(lia)) as (Hb & Ha & Hl).
      replace (0 <=? len line)%Z with true
        by (symmetry; apply Z.leb_le; unfold len; lia).
      unfold advance.
      replace (len line + 1 <? 0)%Z with false
        by (symmetry; apply Z.ltb_ge; unfold len; lia).
      replace (Z.of_nat (end_ s - start s) <? len line + 1)%Z with false
        by (symmetry; apply Z.ltb_ge; unfold len; lia).
      replace (0 <? len line + 1)%Z with true
        by (symmetry; apply Z.ltb_lt; unfold len; lia).
      rewrite orb_true_r.
      unfold len. rewrite Nat2Z.id.
      replace (Z.to_nat (Z.of_nat (List.length line) + 1))
        with (List.length line + 1)%nat by lia.
      set (tok := dropCR (subslice (held s) 0 (List.length line)) m).
      pose proof (@scanning_advance base s m (List.length line + 1) (Some tok) 0 Hsc
                    ltac:(lia)) as [Hsc' Hd'].
      assert (Hsub : deref m (subslice (held s) 0 (List.length line)) = line).
      { rewrite deref_subslice by (rewrite Hsl; lia).
        cbn [skipn]. rewrite Nat.sub_0_r, Hsplit.
        rewrite firstn_app, firstn_all, Nat.sub_diag. cbn [firstn].
        apply app_nil_r. }
      pose proof (@deref_dropCR m (subslice (held s) 0 (List.length line))) as Hdrop.
      cbn [subslice held arr off slen] in Hdrop.
      destruct Hdrop as [Hdc Harr]; [rewrite H4, Hl; lia|].
      fold (held s) in Hdc. fold (subslice (held s) 0 (List.length line)) in Hdc.
      fold tok in Hdc, Harr. rewrite Hsub in Hdc.
      rewrite Happ. cbn [fst snd].
      split; [reflexivity|]. split; [exact Hsc'|].
      split; [unfold shortLine; apply Nat.ltb_lt; lia|].
      split.
      { unfold pending. rewrite Hsplit. destruct line; discriminate. }
      split; [exact Hdc|]. split.
      { unfold pending. rewrite Hd'. cbn [rd withEmpties withToken withWindow].
        f_equal. rewrite Hsplit.
        rewrite skipn_app, skipn_all2 by lia.
        replace (List.length line + 1 - List.length line)%nat with 1%nat by lia.
        reflexivity. }
      cbn [Scanner_Bytes token withEmpties withToken withWindow buf].
      rewrite Harr. split; [reflexivity | exact Hb].
    + (* no line feed in the data held *)
      change (0 <=? -1)%Z with false. cbv iota.
      assert (Hline : line = deref m (held s)).
      { rewrite Hsplit. rewrite app_nil_r. reflexivity. }
      destruct (isSet (scan_err s)) eqn:Hset.
      * (* at the end of the input: the data held is the last line *)
        cbn [andb] in Hempty. apply Nat.eqb_neq in Hempty.
        destruct (Hvalid ltac:(lia)) as (Hb & Ha & Hl).
        destruct H9 as [Hn | (He & Hex & Hroom)];
          [rewrite Hn in Hset; discriminate|].
        unfold advance.
        replace (Z.of_nat (end_ s - start s) <? 0)%Z with false
          by (symmetry; apply Z.ltb_ge; lia).
        rewrite Z.ltb_irrefl.
        replace (0 <? Z.of_nat (end_ s - start s))%Z with true
          by (symmetry; apply Z.ltb_lt; lia).
        rewrite orb_true_r. rewrite Nat2Z.id.
        set (tok := dropCR (held s) m).
        pose proof (@scanning_advance base s m (end_ s - start s) (Some tok) 0 Hsc
                      ltac:(lia)) as [Hsc' Hd'].
        pose proof (@deref_dropCR m (held s)) as Hdrop.
        cbn [held subslice arr off slen] in Hdrop.
        destruct Hdrop as [Hdc Harr]; [rewrite H4, Hl; lia|].
        fold (held s) in Hdc. fold tok in Hdc, Harr.
        assert (Hrest : skipn (r_i (rd s)) (r_s (rd s)) = [])
          by (apply skipn_all2; exact Hex).
        assert (Hpend : pending s m = deref m (held s)).
        { unfold pending. rewrite Hrest. apply app_nil_r. }
        rewrite Happ, Hrest, app_nil_r. cbn [breakLine fst snd].
        split; [reflexivity|]. split; [exact Hsc'|].
        split; [unfold shortLine; apply Nat.ltb_lt; lia|].
        split.
        { rewrite Hpend. intros Hnil. rewrite Hnil in Hhlen. cbn in Hhlen. lia. }
        split; [exact Hdc|]. split.
        { unfold pending. rewrite Hd'.
          cbn [rd withEmpties withToken withWindow]. rewrite Hrest.
          rewrite skipn_all2 by lia. reflexivity. }
        cbn [Scanner_Bytes token withEmpties withToken withWindow buf].
        rewrite Harr. split; [reflexivity | exact Hb].
      * (* more data is needed *)
        unfold advance. cbn [Z.ltb Z.compare].
        replace (Z.of_nat (end_ s - start s) <? 0)%Z with false
          by (symmetry; apply Z.ltb_ge; lia).
        cbn [Z.to_nat].
        pose proof (scanning_token None Hsc) as (Hsc' & Hd' & Hp').
        pose proof (@fill_scanning base
                      (withToken (withWindow s (buf s) (start s + 0) (end_ s)) None)
                      m Hsc') as Hfill.
        rewrite Hd', Hp', Hbl in Hfill. cbn [snd scan_err withToken withWindow] in Hfill.
        rewrite Hset in Hfill.
        specialize (Hfill eq_refl ltac:(discriminate)).
        by_fill Hfill.
Qed.

(** [Scan]'s loop with the line splitter: from what is pending it yields
    the first line, without its carriage return, as a window on the buffer,
    unless nothing is pending or the line does not fit. *)
Lemma scanToken_ScanLines (base : nat) (s : Scanner) (m : Mem) :
  scanning base s m ->
  exists s' m',
    frame base m m' /\
    match pending s m with
    | [] => scanToken s m = (Return (false, s'), m')
    | x :: rest =>
        if shortLine (fst (breakLine (x :: rest)))
        then scanToken s m = (Return (true, s'), m') /\
             scanning base s' m' /\
             deref m' (Scanner_Bytes s') = trimCR (fst (breakLine (x :: rest))) /\
             pending s' m' = match snd (breakLine (x :: rest)) with
                             | Some after => after
                             | None => []
                             end /\
             arr (Scanner_Bytes s') = arr (buf s') /\
             (base <= arr (Scanner_Bytes s'))%nat
        else scanToken s m = (Return (false, s'), m')
    end.
Proof.
  intros Hsc. funelim (scanToken s m).
  - pose proof (scanPass_ScanLines Hsc) as Hp0.
    match goal with E : scanPass s m = _ |- _ => rewrite E in Hp0 end.
    destruct result as [[[|] s']|msg].
    + destruct Hp0 as (-> & Hsc' & Hshort & Hne & Htok & Hpend & Harr & Hb).
      exists s', m. split; [apply frame_refl|].
      destruct (pending s m) as [|x rest]; [congruence|].
      rewrite Hshort.
      repeat (split; [first [reflexivity | assumption]|]). assumption.
    + destruct Hp0 as [Hf Hstop]. exists s', m'. split; [exact Hf|].
      destruct (pending s m) as [|x rest]; [reflexivity|].
      destruct Hstop as [Hnil | Hlong]; [discriminate|].
      rewrite Hlong. reflexivity.
    + destruct Hp0.
  - pose proof (scanPass_ScanLines Hsc) as Hp0.
    match goal with E : scanPass s m = _ |- _ => rewrite E in Hp0 end.
    destruct Hp0 as (Hsc' & Hpend & Hf).
    match goal with IH : forall base0, scanning base0 _ _ -> _ |- _ =>
      destruct (IH base Hsc') as (s2 & m2 & Hf2 & Hres)
    end.
    exists s2, m2. split; [eapply frame_trans; eassumption|].
    rewrite Hpend in Hres. exact Hres.
Qed.

Lemma scannedLines_cons (x : byte) (rest : bytes) :
  scannedLines (x :: rest) =
  if shortLine (fst (breakLine (x :: rest)))
  then trimCR (fst (breakLine (x :: rest)))
       :: scannedLines match snd (breakLine (x :: rest)) with
                       | Some after => after
                       | None => []
                       end
  else [].
Proof.
  unfold scannedLines. rewrite lines_breakLine. cbn [takeWhile].
  destruct (shortLine (fst (breakLine (x :: rest)))); [|reflexivity].
  destruct (snd (breakLine (x :: rest))); reflexivity.
Qed.

Lemma breakLine_after_shorter (x : byte) (rest : bytes) :
  (List.length match snd (breakLine (x :: rest)) with
               | Some after => after
               | None => []
               end < List.length (x :: rest))%nat.
Proof.
  pose proof (breakLine_split (x :: rest)) as Hsplit.
  destruct (snd (breakLine (x :: rest))) as [after|].
  - rewrite Hsplit at 1. rewrite length_app. cbn [List.length]. lia.
  - cbn [List.length]. lia.
Qed.

(** The scanner that [Write] starts with. *)
Lemma scanning_start (p : bytes) (fn : SplitFunc) (m : Mem) :
  fn = ScanLines ->
  scanning (List.length m) (Scanner_Split (NewScanner (NewReader p)) fn) m /\
  pending (Scanner_Split (NewScanner (NewReader p)) fn) m = p.
Proof.
  intros ->. pose proof MaxScanTokenSize_pos as HM. split.
  - constructor; cbn; try reflexivity; try lia; auto.
  - reflexivity.
Qed.

(** ** Write, observed through the log of a recording buffer *)

Section WriteFacts.

Context {C B : Type} `{AsyncBuffer C B} `{AwsEnv C}.

Notation "'RWriter'" := (Writer C (Recorded B)).
Notation "'scanLoopR'" := (@scanLoop C (Recorded B) recordedBuffer).
Notation "'WriteR'" := (@Write C (Recorded B) recordedBuffer).

Lemma recorded_Write (m : Mem) (line : slice) (rb : Recorded B) :
  buffer_Write (AsyncBuffer := recordedBuffer) m line rb =
  (fst (buffer_Write m line (inner rb)),
   {| inner := snd (buffer_Write m line (inner rb));
      enqueued := enqueued rb
                  ++ [(line, deref m line,
                       snd (fst (buffer_Write m line (inner rb))))] |}).
Proof.
  simpl. destruct (buffer_Write m line (inner rb)) as [[n err] kb]. reflexivity.
Qed.

(** Whatever the split function, a run of the loop that returns ends in one
    of the two ways, and leaves the configuration alone. *)
Lemma scanLoop_result (fuel : nat) (s : Scanner) (w : RWriter) (p : bytes)
    (m : Mem) (n : Z) (err : option error) (w' : RWriter) (m' : Mem) :
  scanLoopR fuel s w p m = Some (Return (n, err), w', m') ->
  config w' = config w /\
  exists new,
    enqueued (kinesisBuffer w') = enqueued (kinesisBuffer w) ++ new /\
    write_outcome p n err new.
Proof.
  revert s w m. induction fuel as [|fuel IH]; intros s w m Hrun; [discriminate|].
  cbn [scanLoop] in Hrun.
  destruct (Scan s m) as [[[[|] s']|msg] m1]; try discriminate.
  - rewrite recorded_Write in Hrun.
    destruct (buffer_Write m1 (Scanner_Bytes s') (inner (kinesisBuffer w)))
      as [[k [cause|]] kb] eqn:Hw; cbn [fst snd] in Hrun.
    + injection Hrun as <- <- <- <-. split; [reflexivity|].
      exists [(Scanner_Bytes s', deref m1 (Scanner_Bytes s'), Some cause)].
      split; [reflexivity|]. right.
      exists [], (Scanner_Bytes s', deref m1 (Scanner_Bytes s')), cause.
      repeat split; auto.
    + apply IH in Hrun. destruct Hrun as (Hconf & new & Hlog & Hout).
      split; [exact Hconf|].
      exists ((Scanner_Bytes s', deref m1 (Scanner_Bytes s'), None) :: new).
      cbn [kinesisBuffer withBuffer enqueued] in Hlog.
      split; [rewrite Hlog, <- app_assoc; reflexivity|].
      destruct Hout as [(He & Hn & Hall) | (pre & line & cause & Hnew & Hall & He & Hn)].
      * left. repeat split; auto. constructor; [reflexivity | assumption].
      * right. exists ((Scanner_Bytes s', deref m1 (Scanner_Bytes s'), None) :: pre),
                 line, cause.
        subst new. repeat split; auto. constructor; [reflexivity | assumption].
  - injection Hrun as <- <- <- <-. split; [reflexivity|].
    exists []. rewrite app_nil_r.
    split; [reflexivity|]. left. repeat split; auto.
Qed.

(** With the line splitter the loop returns within as many iterations as
    bytes are pending, plus one.  What the records hold when they are handed
    to the buffer is a prefix of the scanned lines: all of them unless a
    write is refused.  The records are windows on arrays allocated since the
    memory had [base] arrays, and older arrays are left as they were. *)
Lemma scanLoop_ScanLines (base fuel : nat) (s : Scanner) (w : RWriter)
    (p : bytes) (m : Mem) :
  scanning base s m ->
  (List.length (pending s m) < fuel)%nat ->
  exists n err w' m' new,
    scanLoopR fuel s w p m = Some (Return (n, err), w', m') /\
    enqueued (kinesisBuffer w') = enqueued (kinesisBuffer w) ++ new /\
    write_outcome p n err new /\
    (exists more, scannedLines (pending s m) = map handed new ++ more) /\
    (Forall accepted new -> map handed new = scannedLines (pending s m)) /\
    frame base m m' /\
    Forall (fun e => (base <= arr (reference e))%nat) new.
Proof.
  revert s w m. induction fuel as [|fuel IH]; intros s w m Hsc Hfuel; [lia|].
  cbn [scanLoop]. unfold Scan. rewrite (sc_done Hsc).
  destruct (scanToken_ScanLines Hsc) as (s' & m1 & Hf1 & Hstep).
  destruct (pending s m) as [|x rest] eqn:Hpend.
  - rewrite Hstep.
    exists (len p), None, w, m1, []. rewrite app_nil_r.
    repeat split; auto; try apply Hf1.
    + left. repeat split; auto.
    + exists []. reflexivity.
  - rewrite scannedLines_cons.
    pose proof (breakLine_after_shorter x rest) as Hshorter.
    destruct (shortLine (fst (breakLine (x :: rest)))).
    + destruct Hstep as (-> & Hsc' & Htok & Hpend' & _ & Hb).
      rewrite recorded_Write. rewrite Htok.
      set (line := trimCR (fst (breakLine (x :: rest)))) in *.
      destruct (buffer_Write m1 (Scanner_Bytes s') (inner (kinesisBuffer w)))
        as [[k [cause|]] kb] eqn:Hw; cbn [fst snd].
      * eexists _, _, _, _, [(Scanner_Bytes s', line, Some cause)].
        split; [reflexivity|]. cbn [kinesisBuffer withBuffer enqueued].
        split; [reflexivity|]. split.
        { right. exists [], (Scanner_Bytes s', line), cause. repeat split; auto. }
        split; [eexists; reflexivity|]. split.
        { intros Hall. inversion Hall; subst. discriminate. }
        split; [exact Hf1|]. constructor; [exact Hb | constructor].
      * match goal with |- context [scanLoop fuel s' ?w1 p m1] =>
          destruct (IH s' w1 m1 Hsc')
            as (n & err & w' & m' & new & Hrun & Hlog & Hout & Hpre & Hall & Hf & Hbs)
        end.
        { rewrite Hpend'. cbn [List.length] in *.
          eapply Nat.lt_le_trans; [exact Hshorter | lia]. }
        exists n, err, w', m', ((Scanner_Bytes s', line, None) :: new).
        cbn [kinesisBuffer withBuffer enqueued] in Hlog. rewrite Hpend' in Hpre, Hall.
        split; [exact Hrun|]. split; [rewrite Hlog, <- app_assoc; reflexivity|].
        split.
        { destruct Hout as [(He & Hn & Hacc) | (pre & l & cause & Hnew & Hacc & He & Hn)].
          - left. repeat split; auto. constructor; [reflexivity | assumption].
          - right. exists ((Scanner_Bytes s', line, None) :: pre), l, cause.
            subst new. repeat split; auto. constructor; [reflexivity | assumption]. }
        split.
        { destruct Hpre as [more Hmore]. exists more. cbn [map handed fst snd app].
          rewrite Hmore. reflexivity. }
        split.
        { intros Hacc. inversion Hacc; subst. cbn [map handed fst snd].
          rewrite Hall by assumption. reflexivity. }
        split; [eapply frame_trans; eassumption|].
        constructor; [exact Hb | exact Hbs].
    + rewrite Hstep.
      exists (len p), None, w, m1, []. rewrite app_nil_r.
      repeat split; auto; try apply Hf1.
      * left. repeat split; auto.
      * exists []. reflexivity.
Qed.

Lemma scanLoop_unrecorded (fuel : nat) (s : Scanner) (w : RWriter) (p : bytes)
    (m : Mem) :
  scanLoop (H := H) fuel s (unrecorded w) p m =
  option_map (fun r => (fst (fst r), unrecorded (snd (fst r)), snd r))
             (scanLoopR fuel s w p m).
Proof.
  revert s w m. induction fuel as [|fuel IH]; intros s w m; [reflexivity|].
  cbn [scanLoop]. destruct (Scan s m) as [[[[|] s']|msg] m1]; try reflexivity.
  rewrite recorded_Write. cbn [unrecorded kinesisBuffer].
  destruct (buffer_Write m1 (Scanner_Bytes s') (inner (kinesisBuffer w)))
    as [[k [cause|]] kb]; cbn [fst snd].
  - reflexivity.
  - rewrite <- IH. reflexivity.
Qed.

End WriteFacts.

(** ** Where the tokens lie *)

Lemma scanToken_step (s : Scanner) (m : Mem) :
  scanToken s m = match scanPass s m with
                  | (Stop result, m') => (result, m')
                  | (Again s', m') => scanToken s' m'
                  end.
Proof.
  funelim (scanToken s m);
    match goal with E : scanPass _ _ = _ |- _ => rewrite E end; congruence.
Qed.

Lemma setArray_same (m : Mem) (a : nat) : setArray m a (array m a) = m.
Proof.
  unfold array. revert a. induction m as [|x rest IH]; intros a; [reflexivity|].
  destruct a as [|a]; cbn [setArray nth]; [reflexivity|].
  rewrite IH. reflexivity.
Qed.

Lemma setArray_last (m : Mem) (old content : bytes) :
  setArray (m ++ [old]) (List.length m) content = m ++ [content].
Proof.
  induction m as [|x rest IH]; [reflexivity|].
  change (setArray ((x :: rest) ++ [old]) (List.length (x :: rest)) content)
    with (x :: setArray (rest ++ [old]) (List.length rest) content).
  rewrite IH. reflexivity.
Qed.

Lemma skipn_repeat_x00 (n k : nat) :
  skipn n (repeat x00 k) = repeat x00 (k - n).
Proof.
  revert k. induction n as [|n IH]; intros k.
  - rewrite Nat.sub_0_r. reflexivity.
  - destruct k as [|k]; [reflexivity|]. cbn [repeat skipn Nat.sub]. apply IH.
Qed.

(** The first pass of the first [Scan] of [Write]: the scanner allocates
    its first buffer and reads into it as much of the input as fits. *)
Lemma first_pass (p : bytes) (m : Mem) :
  exists s1,
    scanPass (Scanner_Split (NewScanner (NewReader p)) ScanLines) m
    = (Again s1,
       m ++ [firstn (Nat.min startBufSize (List.length p)) p
             ++ repeat x00 (startBufSize - Nat.min startBufSize (List.length p))]) /\
    r_s (rd s1) = p /\
    r_i (rd s1) = Nat.min startBufSize (List.length p) /\
    slen (buf s1) = startBufSize.
Proof.
  pose proof MaxScanTokenSize_pos as HM.
  pose proof startBufSize_bounds as [HS1 HS2].
  remember (Scanner_Split (NewScanner (NewReader p)) ScanLines) as s0 eqn:Hs0.
  assert (Hst : start s0 = 0%nat) by (subst s0; reflexivity).
  assert (Hen : end_ s0 = 0%nat) by (subst s0; reflexivity).
  assert (Hbuf : buf s0 = nil_slice) by (subst s0; reflexivity).
  assert (Herr : scan_err s0 = NoErr) by (subst s0; reflexivity).
  assert (Hmax : maxTokenSize s0 = MaxScanTokenSize) by (subst s0; reflexivity).
  assert (Hrd : rd s0 = {| r_s := p; r_i := 0 |}) by (subst s0; reflexivity).
  clear Hs0.
  unfold scanPass. rewrite Hst, Hen, Herr. cbn [isSet Nat.ltb Nat.leb orb].
  unfold fill. rewrite Herr. cbn [isSet].
  unfold shift. rewrite Hst. cbn [Nat.ltb Nat.leb andb].
  unfold grow. rewrite Hen, Hbuf, Hmax, Hst. cbn [nil_slice slen Nat.eqb].
  replace (MaxScanTokenSize <=? 0)%nat with false
    by (symmetry; apply Nat.leb_gt; exact HM).
  change (maxInt / 2 <? Z.of_nat 0)%Z with false.
  cbn [orb Nat.mul Nat.eqb]. rewrite (Nat.min_l _ _ HS2).
  unfold make.
  set (m1 := m ++ [repeat x00 startBufSize]).
  set (newBuf := {| arr := List.length m; off := 0; slen := startBufSize |}).
  assert (Hcopy : copy newBuf (deref m1 (held s0)) m1 = (0%nat, m1)).
  { unfold copy, deref, held, subslice. rewrite Hst, Hen, Hbuf.
    cbn [arr off slen nil_slice Nat.sub firstn List.length].
    rewrite Nat.min_0_r. cbn [firstn app skipn Nat.add newBuf arr off].
    rewrite setArray_same. reflexivity. }
  rewrite Hcopy. cbn [Nat.sub].
  remember (withWindow s0 newBuf 0 0) as s2 eqn:Hs2.
  assert (Hst2 : start s2 = 0%nat) by (subst s2; reflexivity).
  assert (Hen2 : end_ s2 = 0%nat) by (subst s2; reflexivity).
  assert (Hbuf2 : buf s2 = newBuf) by (subst s2; reflexivity).
  assert (Herr2 : scan_err s2 = NoErr) by (subst s2; exact Herr).
  assert (Hrd2 : rd s2 = {| r_s := p; r_i := 0 |}) by (subst s2; exact Hrd).
  clear Hs2.
  assert (Hunfold : forall tries,
             readMore tries s2 m1 =
             let '(n, err, r, m') :=
               Reader_Read (rd s2) (subslice (buf s2) (end_ s2) (slen (buf s2))) m1 in
             let s := withReader s2 r in
             if (slen (buf s) - end_ s <? n)%nat
             then (setErr s (Failed ErrBadReadCount), m')
             else
               let s := withWindow s (buf s) (start s) (end_ s + n) in
               if isSet err then (setErr s err, m')
               else if (0 <? n)%nat then (withEmpties s 0, m')
               else match tries with
                    | O => (setErr s (Failed ErrNoProgress), m')
                    | S tries' => readMore tries' s m'
                    end).
  { intros tries. destruct tries; reflexivity. }
  rewrite Hunfold. clear Hunfold. unfold Reader_Read.
  rewrite Hrd2, Hbuf2, Hen2. cbn [r_s r_i newBuf slen].
  destruct p as [|x rest].
  - cbn [List.length Nat.leb withReader withWindow buf end_ start slen].
    rewrite Hbuf2, Hen2, Hst2. cbn [newBuf slen].
    replace (startBufSize - 0 <? 0)%nat with false
      by (symmetry; apply Nat.ltb_ge; lia).
    cbn [isSet]. unfold setErr. cbn [scan_err withWindow withReader].
    rewrite Herr2.
    eexists. split; [rewrite Nat.min_0_r, Nat.sub_0_r; reflexivity|].
    cbn. rewrite Nat.min_0_r. repeat split.
  - replace (List.length (x :: rest) <=? 0)%nat with false by reflexivity.
    unfold copy. cbn [subslice arr off slen skipn Nat.add].
    rewrite Nat.sub_0_r.
    set (n := Nat.min startBufSize (List.length (x :: rest))).
    assert (Hn : (0 < n)%nat /\ (n <= startBufSize)%nat).
    { unfold n. cbn [List.length]. lia. }
    cbn [withReader withWindow buf end_ start slen].
    rewrite Hbuf2, Hen2, Hst2. cbn [newBuf slen].
    replace (startBufSize - 0 <? n)%nat with false
      by (symmetry; apply Nat.ltb_ge; lia).
    cbn [isSet]. replace (0 <? n)%nat with true
      by (symmetry; apply Nat.ltb_lt; lia).
    eexists. split.
    + apply f_equal2; [reflexivity|]. unfold m1. cbn [newBuf arr off Nat.add].
      replace (array (m ++ [repeat x00 startBufSize]) (List.length m))
        with (repeat x00 startBufSize)
        by (unfold array; rewrite app_nth2 by lia; rewrite Nat.sub_diag; reflexivity).
      cbn [firstn app]. rewrite skipn_repeat_x00.
      apply setArray_last.
    + cbn. repeat split.
Qed.

(** The shape of a pass with the line splitter: it ends the call without
    touching the memory, or it goes on to read more with the same reader,
    buffer, error and data held, none of which holds a line feed. *)
Lemma scanPass_shape (s : Scanner) (m : Mem) :
  split s = ScanLines ->
  (exists result,
      scanPass s m = (Stop result, m) /\
      forall found s', result = Return (found, s') ->
                       rd s' = rd s /\ buf s' = buf s) \/
  (exists s0,
      scanPass s m = fill s0 m /\
      rd s0 = rd s /\ buf s0 = buf s /\ scan_err s0 = scan_err s /\
      start s0 = start s /\ end_ s0 = end_ s /\
      snd (breakLine (deref m (held s))) = None /\
      (isSet (scan_err s) = true -> deref m (held s) = [])).
Proof.
  intros Hsplit.
  assert (Hnil : (end_ s - start s = 0)%nat -> deref m (held s) = []).
  { intros Hz. unfold deref, held, subslice. cbn [slen]. rewrite Hz. reflexivity. }
  assert (Hstops : forall k t e,
             rd (withEmpties (withToken (withWindow s (buf s) k (end_ s)) t) e) = rd s /\
             buf (withEmpties (withToken (withWindow s (buf s) k (end_ s)) t) e) = buf s).
  { intros. split; reflexivity. }
  assert (HsetErr : forall e, rd (setErr s e) = rd s /\ buf (setErr s e) = buf s).
  { intros e. unfold setErr. destruct (scan_err s); split; reflexivity. }
  unfold scanPass.
  destruct ((start s <? end_ s)%nat || isSet (scan_err s)) eqn:Hcond.
  2:{ apply orb_false_iff in Hcond. destruct Hcond as [Hlt Hset].
      apply Nat.ltb_ge in Hlt. right. exists s.
      rewrite (Hnil ltac:(lia)).
      repeat split; auto. }
  rewrite Hsplit. unfold ScanLines.
  change (slen (held s)) with (end_ s - start s)%nat.
  destruct (isSet (scan_err s) && (end_ s - start s =? 0)%nat) eqn:Hempty.
  - apply andb_true_iff in Hempty. destruct Hempty as [Hset Hz].
    apply Nat.eqb_eq in Hz.
    unfold advance. cbn [Z.ltb Z.compare].
    destruct (Z.of_nat (end_ s - start s) <? 0)%Z.
    + left. eexists. split; [reflexivity|].
      intros found s' Hres. injection Hres as _ <-. apply HsetErr.
    + cbn [Z.to_nat]. right. eexists. split; [reflexivity|].
      rewrite (Hnil Hz). cbn. rewrite Nat.add_0_r. repeat split; auto.
  - destruct (0 <=? IndexByte (deref m (held s)) LF)%Z eqn:Hi.
    + left. unfold advance.
      repeat match goal with
             | |- context [if ?c then _ else _] => destruct c
             end;
        (eexists; split; [reflexivity|]; intros found s' Hres;
         first [discriminate
               | injection Hres as _ <-; first [apply HsetErr | apply Hstops]]).
    + assert (Hnolf : snd (breakLine (deref m (held s))) = None).
      { rewrite IndexByte_breakLine in Hi.
        destruct (snd (breakLine (deref m (held s)))); [|reflexivity].
        apply Z.leb_gt in Hi. unfold len in Hi. lia. }
      destruct (isSet (scan_err s)) eqn:Hset.
      * left. unfold advance.
        repeat match goal with
               | |- context [if ?c then _ else _] => destruct c
               end;
          (eexists; split; [reflexivity|]; intros found s' Hres;
           first [discriminate
                 | injection Hres as _ <-; first [apply HsetErr | apply Hstops]]).
      * unfold advance. cbn [Z.ltb Z.compare].
        destruct (Z.of_nat (end_ s - start s) <? 0)%Z.
        -- left. eexists. split; [reflexivity|].
           intros found s' Hres. injection Hres as _ <-. apply HsetErr.
        -- cbn [Z.to_nat]. right. eexists. split; [reflexivity|].
           cbn. rewrite Nat.add_0_r. repeat split; auto. discriminate.
Qed.

Lemma breakLine_no_LF (q : bytes) : snd (breakLine q) = None -> ~ In LF q.
Proof.
  induction q as [|x rest IH]; [intros _ []|].
  cbn [breakLine]. destruct (Byte.eqb x LF) eqn:Ex; [discriminate|].
  destruct (breakLine rest) as [line after]. cbn [snd] in *.
  intros Hn [Hx | Hin]; [|exact (IH Hn Hin)].
  subst x. rewrite (Byte.byte_dec_lb eq_refl) in Ex. discriminate.
Qed.

Lemma In_last {A : Type} (l : list A) (d : A) : l <> [] -> In (last l d) l.
Proof.
  induction l as [|x rest IH]; [congruence|]. intros _.
  destruct rest as [|y rest]; [left; reflexivity|].
  right. apply IH. discriminate.
Qed.

(** An input that is empty or ends with a line feed holds a line feed
    unless it is empty. *)
Lemma terminated_no_LF (q : bytes) :
  terminated q = q -> snd (breakLine q) = None -> q = [].
Proof.
  intros Ht Hn. destruct q as [|x rest]; [reflexivity|]. exfalso.
  apply (breakLine_no_LF _ Hn). unfold terminated in Ht.
  destruct (Byte.eqb (last (x :: rest) x00) LF) eqn:El.
  - apply Byte.byte_dec_bl in El. rewrite <- El. apply In_last. discriminate.
  - apply (f_equal (@List.length byte)) in Ht. rewrite length_app in Ht.
    cbn [List.length] in Ht. lia.
Qed.

Lemma last_append {A : Type} (l1 l2 : list A) (d : A) :
  l2 <> [] -> last (l1 ++ l2) d = last l2 d.
Proof.
  intros Hne. induction l1 as [|x l1 IH]; [reflexivity|].
  change ((x :: l1) ++ l2) with (x :: (l1 ++ l2)).
  destruct (l1 ++ l2) as [|y l] eqn:Happ.
  - apply app_eq_nil in Happ. destruct Happ as [_ Hl2]. congruence.
  - exact IH.
Qed.

Lemma terminated_after (q : bytes) :
  terminated q = q ->
  terminated match snd (breakLine q) with Some after => after | None => [] end
  = match snd (breakLine q) with Some after => after | None => [] end.
Proof.
  intros Ht. pose proof (breakLine_split q) as Hs.
  destruct (snd (breakLine q)) as [after|]; [|reflexivity].
  destruct after as [|y after]; [reflexivity|].
  assert (Hq : q <> []) by (rewrite Hs; destruct (fst (breakLine q)); discriminate).
  assert (Hl : last q x00 = last (y :: after) x00).
  { rewrite Hs. rewrite last_append by discriminate.
    change (LF :: y :: after) with ([LF] ++ y :: after).
    rewrite last_append by discriminate. reflexivity. }
  unfold terminated in *. destruct q as [|x rest]; [congruence|].
  rewrite <- Hl.
  destruct (Byte.eqb (last (x :: rest) x00) LF); [reflexivity|].
  apply (f_equal (@List.length byte)) in Ht. rewrite length_app in Ht.
  cbn [List.length] in Ht. lia.
Qed.

(** Once the reader has nothing left and nothing is held, reading more
    changes no byte of the memory. *)
Lemma fill_quiet (s : Scanner) (m : Mem) :
  (List.length (r_s (rd s)) <= r_i (rd s))%nat ->
  (0 < slen (buf s))%nat ->
  start s = end_ s ->
  (end_ s <= slen (buf s))%nat ->
  snd (fill s m) = m /\
  forall s',
    (fst (fill s m) = Again s' \/
     exists found, fst (fill s m) = Stop (Return (found, s'))) ->
    rd s' = rd s /\ buf s' = buf s.
Proof.
  intros Hex Hpos Heq Hel.
  assert (Hnil : deref m (held s) = []).
  { unfold deref, held, subslice. cbn [slen]. rewrite Heq, Nat.sub_diag.
    reflexivity. }
  unfold fill. destruct (isSet (scan_err s)) eqn:Hset.
  - split; [reflexivity|]. intros s' [Hs' | [found Hs']]; [discriminate|].
    cbn [fst] in Hs'. injection Hs' as _ <-. split; reflexivity.
  - assert (Hshift : exists s1, shift s m = (s1, m) /\
               rd s1 = rd s /\ buf s1 = buf s /\
               (end_ s1 =? slen (buf s1))%nat = false).
    { unfold shift.
      destruct ((0 <? start s)%nat
                && ((end_ s =? slen (buf s))%nat || (slen (buf s) / 2 <? start s)%nat))
        eqn:Hcond.
      - rewrite Hnil. unfold copy. cbn [List.length]. rewrite Nat.min_0_r.
        cbn [firstn app]. rewrite Nat.add_0_r, firstn_skipn, setArray_same.
        eexists. split; [reflexivity|]. cbn. repeat split.
        apply Nat.eqb_neq. lia.
      - exists s. repeat split. apply Nat.eqb_neq. intros Hfull.
        apply andb_false_iff in Hcond. destruct Hcond as [Hc | Hc].
        + apply Nat.ltb_ge in Hc. lia.
        + apply orb_false_iff in Hc. destruct Hc as [Hc _].
          apply Nat.eqb_neq in Hc. congruence. }
    destruct Hshift as (s1 & -> & Hr1 & Hb1 & Hfull).
    unfold grow. rewrite Hfull.
    assert (Hunfold : forall tries,
               readMore tries s1 m =
               let '(n, err, r, m') :=
                 Reader_Read (rd s1) (subslice (buf s1) (end_ s1) (slen (buf s1))) m in
               let s := withReader s1 r in
               if (slen (buf s) - end_ s <? n)%nat
               then (setErr s (Failed ErrBadReadCount), m')
               else
                 let s := withWindow s (buf s) (start s) (end_ s + n) in
                 if isSet err then (setErr s err, m')
                 else if (0 <? n)%nat then (withEmpties s 0, m')
                 else match tries with
                      | O => (setErr s (Failed ErrNoProgress), m')
                      | S tries' => readMore tries' s m'
                      end).
    { intros tries. destruct tries; reflexivity. }
    rewrite Hunfold. clear Hunfold. unfold Reader_Read. rewrite Hr1.
    replace (List.length (r_s (rd s)) <=? r_i (rd s))%nat with true
      by (symmetry; apply Nat.leb_le; exact Hex).
    cbn [withReader buf end_].
    destruct (slen (buf s1) - end_ s1 <? 0)%nat; cbn [isSet fst snd];
      (split; [reflexivity|]);
      (intros s' [Hs' | [found Hs']]; [|discriminate]); injection Hs' as <-;
      unfold setErr; cbn [scan_err withWindow withReader];
      destruct (scan_err s1); cbn; auto.
Qed.

(** A pass over an input that has been read to its end and is empty or
    ends with a line feed changes no byte of the memory. *)
Lemma scanPass_quiet (base : nat) (s : Scanner) (m : Mem) :
  scanning base s m ->
  (List.length (r_s (rd s)) <= r_i (rd s))%nat ->
  (0 < slen (buf s))%nat ->
  terminated (pending s m) = pending s m ->
  snd (scanPass s m) = m /\
  forall s',
    (fst (scanPass s m) = Again s' \/
     exists found, fst (scanPass s m) = Stop (Return (found, s'))) ->
    (List.length (r_s (rd s')) <= r_i (rd s'))%nat /\ (0 < slen (buf s'))%nat.
Proof.
  intros Hsc Hex Hpos Hterm.
  destruct (scanPass_shape s m (sc_split Hsc))
    as [(result & -> & Hres)
       | (s0 & -> & Hr0 & Hb0 & He0 & Hs0 & Hn0 & Hnolf & Heof)].
  - split; [reflexivity|]. intros s' [Hs' | [found Hs']]; [discriminate|].
    cbn [fst] in Hs'. injection Hs' as ->.
    destruct (Hres _ _ eq_refl) as [-> ->]. split; assumption.
  - assert (Hnil : deref m (held s) = []).
    { apply terminated_no_LF; [|exact Hnolf].
      unfold pending in Hterm. rewrite skipn_all2, app_nil_r in Hterm by exact Hex.
      exact Hterm. }
    pose proof (held_deref Hsc) as [_ Hlen]. rewrite Hnil in Hlen.
    cbn [List.length] in Hlen.
    destruct Hsc as [H1 H2 H3 H4 H5 H6 H7 [Hse Hel] H9].
    destruct (@fill_quiet s0 m) as [Hmem Hnext];
      rewrite ?Hr0, ?Hb0, ?Hs0, ?Hn0; try assumption; try lia.
    split; [exact Hmem|].
    intros s' Hs'. destruct (Hnext _ Hs') as [-> ->].
    rewrite Hr0, Hb0. split; assumption.
Qed.

(** So does the loop of [Scan]. *)
Lemma scanToken_quiet (base : nat) (s : Scanner) (m : Mem) :
  scanning base s m ->
  (List.length (r_s (rd s)) <= r_i (rd s))%nat ->
  (0 < slen (buf s))%nat ->
  terminated (pending s m) = pending s m ->
  snd (scanToken s m) = m /\
  forall found s',
    fst (scanToken s m) = Return (found, s') ->
    (List.length (r_s (rd s')) <= r_i (rd s'))%nat /\ (0 < slen (buf s'))%nat.
Proof.
  intros Hsc Hex Hpos Hterm. funelim (scanToken s m).
  - destruct (scanPass_quiet Hsc Hex Hpos Hterm) as [Hmem Hnext].
    match goal with E : scanPass s m = _ |- _ => rewrite E in Hmem, Hnext end.
    cbn [fst snd] in *. split; [exact Hmem|].
    intros found s' ->. apply Hnext. right. exists found. reflexivity.
  - destruct (scanPass_quiet Hsc Hex Hpos Hterm) as [Hmem Hnext].
    pose proof (scanPass_ScanLines Hsc) as Hp0.
    match goal with E : scanPass s m = _ |- _ => rewrite E in Hmem, Hnext, Hp0 end.
    cbn [fst snd] in *. subst m'.
    destruct Hp0 as (Hsc' & Hpend & _).
    destruct (Hnext s' (or_introl eq_refl)) as [Hex' Hpos'].
    match goal with IH : forall base0, scanning base0 _ _ -> _ |- _ =>
      apply (IH base Hsc' Hex' Hpos')
    end.
    rewrite Hpend. exact Hterm.
Qed.

(** The first [Scan] of [Write] goes on, after its first pass, as a scan of
    the buffer that holds the beginning of the input. *)
Lemma Scan_first (p : bytes) (m : Mem) :
  exists s1,
    Scan (Scanner_Split (NewScanner (NewReader p)) ScanLines) m
    = Scan s1 (m ++ [firstn (Nat.min startBufSize (List.length p)) p
                     ++ repeat x00 (startBufSize
                                    - Nat.min startBufSize (List.length p))]) /\
    scanning (List.length m) s1
      (m ++ [firstn (Nat.min startBufSize (List.length p)) p
             ++ repeat x00 (startBufSize - Nat.min startBufSize (List.length p))]) /\
    pending s1
      (m ++ [firstn (Nat.min startBufSize (List.length p)) p
             ++ repeat x00 (startBufSize - Nat.min startBufSize (List.length p))])
    = p /\
    r_s (rd s1) = p /\
    r_i (rd s1) = Nat.min startBufSize (List.length p) /\
    slen (buf s1) = startBufSize.
Proof.
  destruct (first_pass p m) as (s1 & Hpass & Hrs & Hri & Hsl).
  destruct (@scanning_start p ScanLines m eq_refl) as [Hsc0 Hp0].
  pose proof (scanPass_ScanLines Hsc0) as Hp. rewrite Hpass in Hp.
  destruct Hp as (Hsc1 & Hpend & _). rewrite Hp0 in Hpend.
  exists s1. split; [|repeat (split; [assumption|]); assumption].
  unfold Scan. rewrite (sc_done Hsc0), (sc_done Hsc1).
  rewrite scanToken_step, Hpass. reflexivity.
Qed.

Section WriteQuiet.

Context {C B : Type} `{AsyncBuffer C B} `{AwsEnv C}.

Lemma scanLoop_ext (fuel : nat) (s s' : Scanner) (w : Writer C B) (p : bytes)
    (m m' : Mem) :
  Scan s m = Scan s' m' -> scanLoop fuel s w p m = scanLoop fuel s' w p m'.
Proof. intros Heq. destruct fuel; [reflexivity|]. cbn [scanLoop]. rewrite Heq. reflexivity. Qed.

(** Over an input that has been read to its end and is empty or ends with
    a line feed, the loop of [Write] changes no byte of the memory, so that
    every record it hands over still holds, when the loop ends, what it held
    when it was handed over. *)
Lemma scanLoop_quiet (base fuel : nat) (s : Scanner) (w : Writer C (Recorded B))
    (p : bytes) (m : Mem) (r : Outcome (Z * option error))
    (w' : Writer C (Recorded B)) (m' : Mem) :
  scanning base s m ->
  (List.length (r_s (rd s)) <= r_i (rd s))%nat ->
  (0 < slen (buf s))%nat ->
  terminated (pending s m) = pending s m ->
  scanLoop (H := recordedBuffer) fuel s w p m = Some (r, w', m') ->
  m' = m /\
  exists new,
    enqueued (kinesisBuffer w') = enqueued (kinesisBuffer w) ++ new /\
    Forall (fun e => deref m (reference e) = handed e) new.
Proof.
  revert s w. induction fuel as [|fuel IH];
    intros s w Hsc Hex Hpos Hterm Hrun; [discriminate|].
  cbn [scanLoop] in Hrun. unfold Scan in Hrun. rewrite (sc_done Hsc) in Hrun.
  destruct (scanToken_quiet Hsc Hex Hpos Hterm) as [Hmem Hnext].
  destruct (scanToken_ScanLines Hsc) as (s2 & m2 & _ & Hstep).
  destruct (scanToken s m) as [[[[|] s']|msg] m1] eqn:Hst;
    cbn [fst snd] in Hmem; subst m1.
  - destruct (Hnext _ _ eq_refl) as [Hex' Hpos'].
    assert (Hs' : scanning base s' m /\
                  pending s' m = match snd (breakLine (pending s m)) with
                                 | Some after => after
                                 | None => []
                                 end).
    { destruct (pending s m) as [|x rest]; [discriminate|].
      destruct (shortLine (fst (breakLine (x :: rest)))); [|discriminate].
      destruct Hstep as (Heq & Hsc' & _ & Hpend' & _).
      injection Heq as <- <-. split; assumption. }
    destruct Hs' as [Hsc' Hpend'].
    rewrite recorded_Write in Hrun.
    destruct (buffer_Write m (Scanner_Bytes s') (inner (kinesisBuffer w)))
      as [[k [cause|]] kb] eqn:Hw; cbn [fst snd] in Hrun.
    + injection Hrun as <- <- <-. split; [reflexivity|].
      eexists. split; [reflexivity|]. constructor; [reflexivity | constructor].
    + apply IH in Hrun; try assumption.
      * destruct Hrun as (-> & new & Hlog & Hall). split; [reflexivity|].
        cbn [kinesisBuffer withBuffer enqueued] in Hlog.
        eexists. split; [rewrite Hlog, <- app_assoc; reflexivity|].
        constructor; [reflexivity | exact Hall].
      * rewrite Hpend'. apply terminated_after. exact Hterm.
  - injection Hrun as <- <- <-. split; [reflexivity|].
    exists []. rewrite app_nil_r. split; [reflexivity | constructor].
  - injection Hrun as <- <- <-. split; [reflexivity|].
    exists []. rewrite app_nil_r. split; [reflexivity | constructor].
Qed.

End WriteQuiet.
(** *** Lines and their reconstruction *)

Lemma lines_nil_inv (p : bytes) : lines p = [] -> p = [].
Proof.
  destruct p as [|x rest]; [reflexivity|]. cbn [lines].
  destruct (Byte.eqb x LF); [intros; discriminate|].
  destruct (lines rest); intros; discriminate.
Qed.

Lemma terminated_cons (x : byte) (rest : bytes) :
  rest <> [] -> terminated (x :: rest) = x :: terminated rest.
Proof.
  intros Hne. destruct rest as [|y rest]; [congruence|].
  unfold terminated.
  change (last (x :: y :: rest) x00) with (last (y :: rest) x00).
  destruct (Byte.eqb (last (y :: rest) x00) LF); reflexivity.
Qed.

(** Putting a line feed after each line gives the input back, up to the
    line feed that a last unterminated line lacks. *)
Lemma rejoin_lines (p : bytes) : rejoin (lines p) = terminated p.
Proof.
  induction p as [|x rest IH]; [reflexivity|].
  cbn [lines]. destruct (Byte.eqb x LF) eqn:Ex.
  - apply Byte.byte_dec_bl in Ex. subst x.
    unfold rejoin in *. cbn [map List.concat app]. rewrite IH.
    destruct rest as [|y rest]; [reflexivity|].
    rewrite (@terminated_cons LF (y :: rest)) by discriminate. reflexivity.
  - destruct (lines rest) as [|line more] eqn:Hl.
    + apply lines_nil_inv in Hl. subst rest.
      unfold rejoin, terminated. cbn [map List.concat app last]. rewrite Ex.
      reflexivity.
    + assert (Hne : rest <> []) by (intros ->; discriminate).
      rewrite (@terminated_cons x rest) by assumption. rewrite <- IH.
      unfold rejoin. cbn [map List.concat app]. reflexivity.
Qed.

Lemma trimCR_clean (line : bytes) : endsWithCR line = false -> trimCR line = line.
Proof. unfold endsWithCR, trimCR. intros ->. reflexivity. Qed.

Lemma scannedLines_clean (p : bytes) :
  Forall (fun line => shortLine line = true /\ endsWithCR line = false) (lines p) ->
  scannedLines p = lines p.
Proof.
  unfold scannedLines. induction (lines p) as [|line more IH]; intros Hall.
  - reflexivity.
  - inversion Hall as [|? ? [Hshort Hcr] Hmore]; subst.
    cbn [takeWhile]. rewrite Hshort. cbn [map].
    rewrite trimCR_clean by assumption. rewrite IH by assumption. reflexivity.
Qed.

(** * Claims *)

(** ** The flusher: delivery, retry and errors *)

Section FlusherClaims.

Context {C : Type} `{KinesisClient C}.

Lemma collectFailed_empty_batch (results : list PutRecordsResultEntry) (i : nat)
    (acc : list bytes) :
  collectFailed [] i results acc =
  if existsb hasErrorCode results then Panic "index out of range" else Return acc.
Proof.
  revert i acc. induction results as [|rr rest IH]; intros i acc.
  - reflexivity.
  - simpl. unfold hasErrorCode at 1.
    destruct (ErrorCode rr); simpl.
    + destruct i; reflexivity.
    + apply IH.
Qed.

(** C3 (as the code has it).  The flusher has no guard for an empty batch:
    [Flush] on the empty record list makes exactly one remote call, whose
    record list is empty, never retries, and returns what the response of
    that call dictates; in particular it succeeds when the call returns no
    error and a nil or zero failed count. *)
Theorem Flush_empty_batch_one_call (f : flusher) (w : World C) :
  exists c w',
    Flush f [] w = (empty_batch_result c, w') /\
    calls w' = calls w ++ [c] /\
    Records (call_input c) = [].
Proof.
  destruct (Flush_run f [] w) as (cs & c & w' & HF & Hk & Hch & Hl & _).
  assert (Hone : cs = [c] /\ call_data c = []).
  { inversion Hch; subst.
    - simpl in Hl. injection Hl as ->. auto.
    - exfalso.
      match goal with
      | Hd : call_data ?c0 = [], Hr : call_result ?c0 = Return (?F, None),
        Hne : ?F <> [] |- _ =>
          unfold call_result in Hr; rewrite Hd in Hr; unfold response_result in Hr;
          destruct (call_output c0) as [out|]; destruct (call_err c0);
          try discriminate;
          destruct (FailedRecordCount out) as [n|]; [|congruence];
          destruct (n =? 0)%Z; [congruence|];
          destruct (n <? 0)%Z; [discriminate|];
          rewrite collectFailed_empty_batch in Hr;
          destruct (existsb hasErrorCode (out_Records out)); congruence
      end. }
  destruct Hone as [-> Hd].
  exists c, w'. rewrite HF. split; [|split; [assumption|]].
  - f_equal. unfold flush_result, empty_batch_result, call_result.
    rewrite Hd. unfold response_result.
    destruct (call_output c) as [out|]; destruct (call_err c); try reflexivity.
    destruct (FailedRecordCount out) as [n|]; [|reflexivity].
    destruct (n =? 0)%Z; [reflexivity|].
    destruct (n <? 0)%Z; [reflexivity|].
    rewrite collectFailed_empty_batch.
    destruct (existsb hasErrorCode (out_Records out)); reflexivity.
  - unfold call_data in Hd. apply map_eq_nil in Hd. exact Hd.
Qed.

(** C4.  When a remote call of a flush returns an error, be it the first
    call or a retry, that call is the last one of the flush, and [Flush]
    returns the error wrapped, once by [putRecords] and once by itself. *)
Theorem Flush_transport_error_is_final (f : flusher) (records : list bytes)
    (w : World C) (pre : list Call) (c : Call) (post : list Call) (e : error) :
  calls (snd (Flush f records w)) = calls w ++ pre ++ c :: post ->
  call_err c = Some e ->
  post = [] /\
  fst (Flush f records w)
    = Return (Some (ErrorfW "failed to put records"
                      (ErrorfW "failed to put records" e))).
Proof.
  intros Hcalls He.
  destruct (Flush_run_calls f records w _ Hcalls) as (c' & HF & Hch & Hl & _).
  assert (Hres : call_result c = Return ([], Some (ErrorfW "failed to put records" e))).
  { unfold call_result, response_result. rewrite He.
    destruct (call_output c); reflexivity. }
  assert (Hpost : post = []).
  { destruct post as [|p0 post]; [reflexivity|]. exfalso.
    eapply retry_chain_middle in Hch; [|discriminate].
    destruct Hch as (F & HrF & _). congruence. }
  subst post. split; [reflexivity|].
  rewrite last_call_app in Hl. injection Hl as <-.
  rewrite HF. unfold flush_result. rewrite Hres. reflexivity.
Qed.

(** C5.  When the first remote call returns no error and names no failed
    record, [Flush] returns nil and that call is the only one. *)
Theorem Flush_success_no_retry (f : flusher) (records : list bytes)
    (w : World C) (c0 : Call) (rest : list Call) (out : PutRecordsOutput) :
  calls (snd (Flush f records w)) = calls w ++ c0 :: rest ->
  call_err c0 = None ->
  call_output c0 = Some out ->
  zero_failed out = true ->
  rest = [] /\ fst (Flush f records w) = Return None.
Proof.
  intros Hcalls He Ho Hz.
  destruct (Flush_run_calls f records w _ Hcalls) as (c' & HF & Hch & Hl & _).
  assert (Hres : call_result c0 = Return ([], None)).
  { unfold call_result. rewrite He, Ho. apply zero_failed_result. exact Hz. }
  assert (Hrest : rest = []).
  { inversion Hch; subst; [reflexivity|]. congruence. }
  subst rest. split; [reflexivity|].
  simpl in Hl. injection Hl as <-.
  rewrite HF. unfold flush_result. rewrite Hres. reflexivity.
Qed.

(** C6.  When the last call of a flush still leaves records failed, the
    retries are used up (three, or as many as the deadline allowed), and
    [Flush] returns a non-nil error whose message gives the number of
    records left. *)
Theorem Flush_reports_failed_count (f : flusher) (records : list bytes)
    (w : World C) (pre : list Call) (c : Call) (stillFailed : list bytes) :
  calls (snd (Flush f records w)) = calls w ++ pre ++ [c] ->
  call_result c = Return (stillFailed, None) ->
  stillFailed <> [] ->
  List.length pre = Nat.min 3 (deadline_attempts w) /\
  exists err,
    fst (Flush f records w) = Return (Some err) /\
    Error err = ("failed to put records: " ++ Itoa (len stillFailed)
                 ++ " records are failed")%string.
Proof.
  intros Hcalls Hres Hne.
  destruct (Flush_run_calls f records w _ Hcalls)
    as (c' & HF & Hch & Hl & _ & _ & Hex).
  rewrite last_call_app in Hl. injection Hl as <-.
  specialize (Hex _ Hres Hne). rewrite length_app in Hex.
  cbn [List.length] in Hex. split; [lia|].
  eexists. split.
  - rewrite HF. unfold flush_result. rewrite Hres.
    destruct stillFailed; [congruence|]. reflexivity.
  - reflexivity.
Qed.

(** C9.  [putRecords] trusts the failed count: on a response without error
    whose failed count is nil or zero it reports no failed record, whatever
    error codes the entries of the response carry; a flush that starts with
    such a response ends there, with nil. *)
Theorem putRecords_trusts_failed_count (f : flusher) (ctx : Context)
    (records : list bytes) (w : World C) (c : Call) (out : PutRecordsOutput) :
  calls (snd (putRecords f ctx records w)) = calls w ++ [c] ->
  call_err c = None ->
  call_output c = Some out ->
  FailedRecordCount out = None \/ FailedRecordCount out = Some 0%Z ->
  fst (putRecords f ctx records w) = Return ([], None) /\
  (ctx = WithTimeout Background (flushTimeout f) ->
   Flush f records w = (Return None, snd (putRecords f ctx records w))).
Proof.
  intros Hcalls He Ho Hcount.
  destruct (putRecords_spec f ctx records w) as (c' & w' & Hp & Hk & _).
  rewrite Hp in Hcalls. simpl in Hcalls. rewrite Hk in Hcalls.
  apply app_inv_head in Hcalls. injection Hcalls as ->.
  assert (Hres : call_result c = Return ([], None)).
  { unfold call_result, response_result. rewrite He, Ho.
    destruct Hcount as [-> | ->]; reflexivity. }
  rewrite Hres in Hp. split.
  - rewrite Hp. reflexivity.
  - intros ->. unfold Flush, bind. rewrite Hp. reflexivity.
Qed.

End FlusherClaims.

(** C1 (as the code has it).  Against the client that refuses every
    odd-indexed record, a flush of four records whose deadline leaves time
    for two retries makes exactly three remote calls, carrying r1 r2 r3 r4,
    then r2 r4, then r4: each retry carries the failed subset of the call
    before it, in the original order, and the retries number no more than
    three. *)
Theorem Flush_partial_failure_calls (f : flusher) (r1 r2 r3 r4 : bytes)
    (w : World testClientState) :
  (2 <= deadline_attempts w)%nat ->
  exists cs w',
    Flush (H:=partialFailedKinesisClient) f [r1; r2; r3; r4] w = (Return None, w') /\
    calls w' = calls w ++ cs /\
    map call_data cs = [[r1; r2; r3; r4]; [r2; r4]; [r4]] /\
    retry_chain [r1; r2; r3; r4] cs /\
    (List.length cs - 1 <= 3)%nat.
Proof.
  intros Hdl.
  destruct (Flush_run (H:=partialFailedKinesisClient) f [r1; r2; r3; r4] w)
    as (cs & c & w' & HF & Hk & Hch & Hl & _ & _ & Hall & Hex).
  exists cs, w'.
  assert (Hres : forall c0, In c0 cs ->
             call_result c0 = Return (oddFrom 0 (call_data c0), None)).
  { intros c0 Hin. eapply partial_call_result.
    rewrite Forall_forall in Hall. apply Hall. exact Hin. }
  pose proof Hch as Hch0.
  inversion Hch as [? c0 Hd0 | ? F0 c0 rest0 Hd0 Hr0 Hne0 Hch1]; subst.
  { exfalso. simpl in Hl. injection Hl as <-.
    pose proof (Hres c0 (or_introl eq_refl)) as Hr. rewrite Hd0 in Hr.
    specialize (Hex _ Hr). simpl in Hex.
    assert (1 = S (Nat.min 3 (deadline_attempts w)))%nat by (apply Hex; discriminate).
    lia. }
  pose proof (Hres c0 (or_introl eq_refl)) as Hr. rewrite Hd0 in Hr.
  rewrite Hr in Hr0. injection Hr0 as <-. cbn in Hch1.
  inversion Hch1 as [? c1 Hd1 | ? F1 c1 rest1 Hd1 Hr1 Hne1 Hch2]; subst.
  { exfalso. simpl in Hl. injection Hl as <-.
    pose proof (Hres c1 (or_intror (or_introl eq_refl))) as Hr'.
    rewrite Hd1 in Hr'. specialize (Hex _ Hr'). simpl in Hex.
    assert (2 = S (Nat.min 3 (deadline_attempts w)))%nat by (apply Hex; discriminate).
    lia. }
  pose proof (Hres c1 (or_intror (or_introl eq_refl))) as Hr'.
  rewrite Hd1 in Hr'. rewrite Hr' in Hr1. injection Hr1 as <-. cbn in Hch2.
  inversion Hch2 as [? c2 Hd2 | ? F2 c2 rest2 Hd2 Hr2 Hne2 Hch3]; subst.
  2: { exfalso.
       pose proof (Hres c2 (or_intror (or_intror (or_introl eq_refl)))) as Hr''.
       rewrite Hd2 in Hr''. rewrite Hr'' in Hr2. injection Hr2 as <-.
       apply Hne2. reflexivity. }
  pose proof (Hres c2 (or_intror (or_intror (or_introl eq_refl)))) as Hr''.
  rewrite Hd2 in Hr''. simpl in Hl. injection Hl as <-.
  rewrite HF. unfold flush_result. rewrite Hr''. cbn.
  rewrite Hd0, Hd1, Hd2. repeat split; auto.
Qed.

(** *** Runs on concrete batches *)

Lemma Flush_partial_failure_calls_witness :
  (2 <= 3)%nat /\
  exists cs w',
    Flush (H:=partialFailedKinesisClient) testFlusher
      [b "record1"; b "record2"; b "record3"; b "record4"]
      (newWorld newTestClient 3) = (Return None, w') /\
    calls w' = calls (newWorld newTestClient 3) ++ cs /\
    map call_data cs = [[b "record1"; b "record2"; b "record3"; b "record4"];
                        [b "record2"; b "record4"]; [b "record4"]] /\
    retry_chain [b "record1"; b "record2"; b "record3"; b "record4"] cs /\
    (List.length cs - 1 <= 3)%nat.
Proof.
  split; [lia|].
  apply (@Flush_partial_failure_calls testFlusher (b "record1") (b "record2")
           (b "record3") (b "record4") (newWorld newTestClient 3)).
  simpl. lia.
Defined.

(** C1 (as stated) fails: the retries are scheduled within the flush
    deadline.  When the deadline leaves time for one retry only, the flush
    of four records makes the first call and the retry with record2 and
    record4, never the call with record4 alone, and reports one record as
    failed; with no time for a retry it makes the first call only. *)
Lemma Flush_partial_failure_cut_short :
  let batch := [b "record1"; b "record2"; b "record3"; b "record4"] in
  let R1 := Flush (H:=partialFailedKinesisClient) testFlusher batch
                  (newWorld newTestClient 1) in
  let R0 := Flush (H:=partialFailedKinesisClient) testFlusher batch
                  (newWorld newTestClient 0) in
  map call_data (calls (snd R1)) = [batch; [b "record2"; b "record4"]] /\
  map call_data (calls (snd R1))
    <> [batch; [b "record2"; b "record4"]; [b "record4"]] /\
  fst R1 = Return (Some (Errorf "failed to put records: 1 records are failed")) /\
  map call_data (calls (snd R0)) = [batch] /\
  map call_data (calls (snd R0))
    <> [batch; [b "record2"; b "record4"]; [b "record4"]] /\
  fst R0 = Return (Some (Errorf "failed to put records: 2 records are failed")).
Proof.
  vm_compute. repeat split; intros Heq; discriminate Heq.
Qed.

(** C3 (as stated) fails: on the empty batch the flusher does call the
    remote client, with an empty record list. *)
Lemma Flush_empty_batch_calls_remote :
  let w0 := newWorld newTestClient 3 in
  let R := Flush (H:=successKinesisClient) testFlusher [] w0 in
  calls w0 = [] /\
  map call_input (calls (snd R))
    = [{| Records := []; StreamARN := Some "stream-arn" |}] /\
  inputs (client (snd R)) = [{| Records := []; StreamARN := Some "stream-arn" |}] /\
  calls (snd R) <> calls w0.
Proof.
  vm_compute. repeat split. discriminate.
Qed.

Lemma Flush_transport_error_is_final_witness :
  let w0 := scriptedWorld retryThenTimeout 3 in
  let R := Flush (H:=scriptedClient) testFlusher [b "a"; b "b"] w0 in
  map call_data (calls (snd R)) = [[b "a"; b "b"]; [b "b"]] /\
  skipn 2 (calls (snd R)) = [] /\
  fst R = Return (Some (ErrorfW "failed to put records"
                          (ErrorfW "failed to put records"
                             (ExternalError "context deadline exceeded")))).
Proof.
  split; [vm_compute; reflexivity|].
  apply (@Flush_transport_error_is_final _ scriptedClient testFlusher
           [b "a"; b "b"] (scriptedWorld retryThenTimeout 3)
           (firstn 1 (calls (snd (Flush (H:=scriptedClient) testFlusher
                                    [b "a"; b "b"]
                                    (scriptedWorld retryThenTimeout 3)))))
           (nth 1 (calls (snd (Flush (H:=scriptedClient) testFlusher
                                 [b "a"; b "b"]
                                 (scriptedWorld retryThenTimeout 3)))) noCall)
           (skipn 2 (calls (snd (Flush (H:=scriptedClient) testFlusher
                                   [b "a"; b "b"]
                                   (scriptedWorld retryThenTimeout 3)))))
           (ExternalError "context deadline exceeded"));
    vm_compute; reflexivity.
Defined.

Lemma Flush_success_no_retry_witness :
  let w0 := newWorld newTestClient 3 in
  let R := Flush (H:=successKinesisClient) testFlusher [b "record1"] w0 in
  map call_data (calls (snd R)) = [[b "record1"]] /\
  tl (calls (snd R)) = [] /\ fst R = Return None.
Proof.
  split; [vm_compute; reflexivity|].
  apply (@Flush_success_no_retry _ successKinesisClient testFlusher
           [b "record1"] (newWorld newTestClient 3)
           (hd noCall (calls (snd (Flush (H:=successKinesisClient) testFlusher
                                     [b "record1"] (newWorld newTestClient 3)))))
           (tl (calls (snd (Flush (H:=successKinesisClient) testFlusher
                              [b "record1"] (newWorld newTestClient 3)))))
           {| out_Records := [{| ErrorCode := None; SequenceNumber := Some "0";
                                 ShardId := Some "1" |}];
              FailedRecordCount := None |});
    vm_compute; reflexivity.
Defined.

Lemma Flush_reports_failed_count_witness :
  let w0 := scriptedWorld alwaysRefused 3 in
  let R := Flush (H:=scriptedClient) testFlusher [b "a"] w0 in
  map call_data (calls (snd R)) = [[b "a"]; [b "a"]; [b "a"]; [b "a"]] /\
  List.length (firstn 3 (calls (snd R))) = Nat.min 3 (deadline_attempts w0) /\
  exists err,
    fst R = Return (Some err) /\
    Error err = "failed to put records: 1 records are failed".
Proof.
  split; [vm_compute; reflexivity|].
  apply (@Flush_reports_failed_count _ scriptedClient testFlusher [b "a"]
           (scriptedWorld alwaysRefused 3)
           (firstn 3 (calls (snd (Flush (H:=scriptedClient) testFlusher [b "a"]
                                    (scriptedWorld alwaysRefused 3)))))
           (nth 3 (calls (snd (Flush (H:=scriptedClient) testFlusher [b "a"]
                                 (scriptedWorld alwaysRefused 3)))) noCall)
           [b "a"]);
    [vm_compute; reflexivity | vm_compute; reflexivity | discriminate].
Defined.

Lemma putRecords_trusts_failed_count_witness :
  let w0 := scriptedWorld codeWithoutCount 3 in
  let ctx := WithTimeout Background (flushTimeout testFlusher) in
  existsb hasErrorCode [errEntry] = true /\
  fst (putRecords (H:=scriptedClient) testFlusher ctx [b "a"] w0)
    = Return ([], None) /\
  (ctx = WithTimeout Background (flushTimeout testFlusher) ->
   Flush (H:=scriptedClient) testFlusher [b "a"] w0
   = (Return None, snd (putRecords (H:=scriptedClient) testFlusher ctx [b "a"] w0))).
Proof.
  split; [reflexivity|].
  apply (@putRecords_trusts_failed_count _ scriptedClient testFlusher
           (WithTimeout Background (flushTimeout testFlusher)) [b "a"]
           (scriptedWorld codeWithoutCount 3)
           (hd noCall (calls (snd (putRecords (H:=scriptedClient) testFlusher
                                     (WithTimeout Background
                                        (flushTimeout testFlusher))
                                     [b "a"] (scriptedWorld codeWithoutCount 3)))))
           {| out_Records := [errEntry]; FailedRecordCount := None |});
    try (vm_compute; reflexivity).
  left. reflexivity.
Defined.

(** ** The Writer: configuration, Write and Sync *)

Section WriterClaims.

Context {C B : Type} `{AsyncBuffer C B} `{AwsEnv C}.

(** C8.  A Writer that [New] creates without options has the documented
    defaults: lines as records, a window of 10 records, 5 s to write, 30 s to
    flush, a flush every 30 s, and the handler that prints to standard
    error; the flusher and the buffer are set up with the same values. *)
Theorem New_without_options_has_defaults (ctx : Context) (streamARN : string)
    (w : Writer C B) :
  New ctx streamARN [] = inl w ->
  splitFunc (config w) = ScanLines /\
  recordWindow (bufferConfig_ (config w)) = 10%Z /\
  writeTimeout (bufferConfig_ (config w)) = (5 * Second)%Z /\
  flushTimeout_ (bufferConfig_ (config w)) = (30 * Second)%Z /\
  flushInterval (bufferConfig_ (config w)) = (30 * Second)%Z /\
  errorHandler (bufferConfig_ (config w)) = defaultBufferErrorHandler /\
  exists cl,
    client_ (config w) = Some cl /\
    kinesisBuffer w =
      buffer_New {| flushTimeout := (30 * Second)%Z; streamARN := streamARN |} cl
        {| Threshold := 10%Z; WriteTimeout := (5 * Second)%Z;
           FlushTimeout := (30 * Second)%Z; FlushInterval := (30 * Second)%Z;
           ErrHandler_ := defaultBufferErrorHandler |}.
Proof.
  unfold New. cbn [fold_left client_].
  destruct (LoadDefaultConfig ctx) as [awsCfg|err]; [|discriminate].
  intros Hw. injection Hw as <-. cbn.
  repeat split. eexists. split; reflexivity.
Qed.

End WriterClaims.

Section SyncClaims.

Context {C : Type} `{KinesisClient C}.


End SyncClaims.

Section WriteClaims.

Context {C B : Type} `{AsyncBuffer C B} `{AwsEnv C}.

(** C10.  Every run of [Write] that returns ends in one of two ways.  Either
    every write to the buffer was accepted, and it returns the length of the
    input and nil; or a write was refused, which then is the last one made,
    after any number of accepted ones, and it returns 0 and the refusal
    wrapped.  With the line splitter, [Write] does return for every input,
    within as many iterations as the input has bytes, plus one. *)
Theorem Write_consumed_count (w : Writer C (Recorded B)) (p : bytes) (m : Mem) :
  (forall fuel n err w' m',
      Write (H := recordedBuffer) fuel w p m = Some (Return (n, err), w', m') ->
      exists new,
        enqueued (kinesisBuffer w') = enqueued (kinesisBuffer w) ++ new /\
        ((err = None /\ n = len p /\ Forall accepted new) \/
         (exists pre line cause,
             new = pre ++ [(line, Some cause)] /\ Forall accepted pre /\
             err = Some (ErrorfW "failed to write to buffer" cause) /\
             n = 0%Z))) /\
  (splitFunc (config w) = ScanLines ->
   exists n err w' m',
     Write (H := recordedBuffer) (S (List.length p)) w p m
       = Some (Return (n, err), w', m')).
Proof.
  split.
  - intros fuel n err w' m' Hrun. unfold Write in Hrun.
    apply scanLoop_result in Hrun. apply Hrun.
  - intros Hsplit. unfold Write.
    destruct (scanning_start p m Hsplit) as [Hsc Hpend].
    destruct (@scanLoop_ScanLines C B H (List.length m) (S (List.length p))
                (Scanner_Split (NewScanner (NewReader p)) (splitFunc (config w)))
                w p m Hsc)
      as (n & err & w' & m' & new & Hrun & _).
    + rewrite Hpend. lia.
    + exists n, err, w', m'. exact Hrun.
Qed.

(** C7 (as the code has it).  For an input whose lines are all shorter than
    the scanner's 64 KiB limit and none of which ends with a carriage
    return, what the records hold when they are handed to the buffer are, in
    order, lines of the input; when every write is accepted they are all its
    lines, so that each followed by a line feed they concatenate to the
    input (completed by a final line feed if it lacks one), and [Write]
    returns the length of the input and nil. *)
Theorem Write_forwards_lines (w : Writer C (Recorded B)) (p : bytes) (m : Mem) :
  splitFunc (config w) = ScanLines ->
  Forall (fun line => shortLine line = true /\ endsWithCR line = false) (lines p) ->
  exists n err w' m' new,
    Write (H := recordedBuffer) (S (List.length p)) w p m
      = Some (Return (n, err), w', m') /\
    enqueued (kinesisBuffer w') = enqueued (kinesisBuffer w) ++ new /\
    (exists more, lines p = map handed new ++ more) /\
    (Forall accepted new ->
     map handed new = lines p /\
     rejoin (map handed new) = terminated p /\
     n = len p /\ err = None).
Proof.
  intros Hsplit Hlines. unfold Write.
  destruct (scanning_start p m Hsplit) as [Hsc Hpend].
  destruct (@scanLoop_ScanLines C B H (List.length m) (S (List.length p))
              (Scanner_Split (NewScanner (NewReader p)) (splitFunc (config w)))
              w p m Hsc)
    as (n & err & w' & m' & new & Hrun & Hlog & Hout & Hpre & Hall & _).
  - rewrite Hpend. lia.
  - rewrite Hpend in Hpre, Hall.
    rewrite (scannedLines_clean p Hlines) in Hpre, Hall.
    exists n, err, w', m', new.
    split; [assumption|]. split; [assumption|]. split; [assumption|].
    intros Hacc.
    assert (Hok : err = None /\ n = len p).
    { destruct Hout as [(He & Hn & _) | (pre & line & cause & -> & _ & _ & _)];
        [auto|].
      exfalso. apply Forall_app in Hacc. destruct Hacc as [_ Hlast].
      inversion Hlast; subst. discriminate. }
    destruct Hok as [He Hn]. rewrite Hall by assumption.
    repeat split; auto. apply rejoin_lines.
Qed.

End WriteClaims.

(** *** Runs of the Writer *)

Lemma New_without_options_has_defaults_witness :
  New (H := scriptedBuffer) (H0 := readyAwsEnv newTestClient)
      Background "stream-arn" [] = inl defaultWriter /\
  recordWindow (bufferConfig_ (config defaultWriter)) = 10%Z /\
  errorHandler (bufferConfig_ (config defaultWriter)) = defaultBufferErrorHandler.
Proof.
  split; [reflexivity|].
  pose proof (@New_without_options_has_defaults _ _ scriptedBuffer
                (readyAwsEnv newTestClient) Background "stream-arn"
                defaultWriter eq_refl) as Hd.
  split; apply Hd.
Defined.



(** C7 (as stated) fails: the carriage return before a line feed is not
    handed to the buffer, so the records of "a\r\nb" are those of "a\nb" and
    no way of putting line feeds back gives the input. *)
Lemma Write_drops_carriage_return :
  returned [] crlfInput = Some (Return (len crlfInput, None)) /\
  forwarded crlfInput = [b "a"; b "b"] /\
  forwarded lfInput = forwarded crlfInput /\
  lfInput <> crlfInput /\
  rejoin (forwarded crlfInput) <> crlfInput /\
  rejoin (forwarded crlfInput) <> terminated crlfInput /\
  joinLF (forwarded crlfInput) <> crlfInput.
Proof.
  vm_compute. repeat split; intros Heq; discriminate Heq.
Qed.

(** A line of 64 KiB stops the scanner: nothing is handed to the buffer,
    and [Write] still reports the whole input as consumed. *)
Example Write_long_line :
  returned [] longLine = Some (Return (65536%Z, None)) /\
  forwarded longLine = [].
Proof. vm_compute. split; reflexivity. Qed.

Lemma Write_forwards_lines_witness :
  splitFunc (config (recordingWriter [])) = ScanLines /\
  exists n err w' m' new,
    recordingWrite [] twoLines = Some (Return (n, err), w', m') /\
    enqueued (kinesisBuffer w') = enqueued (kinesisBuffer (recordingWriter [])) ++ new /\
    (exists more, lines twoLines = map handed new ++ more) /\
    (Forall accepted new ->
     map handed new = lines twoLines /\
     rejoin (map handed new) = terminated twoLines /\
     n = len twoLines /\ err = None).
Proof.
  split; [reflexivity|].
  apply (@Write_forwards_lines testClientState (list (option error)) scriptedBuffer
           (recordingWriter []) twoLines []).
  - reflexivity.
  - replace (lines twoLines) with [b "record1"; b "record2"]
      by (vm_compute; reflexivity).
    repeat (constructor; [split; vm_compute; reflexivity|]). constructor.
Defined.

Example Write_two_lines :
  returned [] twoLines = Some (Return (15%Z, None)) /\
  forwarded twoLines = [b "record1"; b "record2"] /\
  rejoin (forwarded twoLines) = twoLines ++ [LF].
Proof. vm_compute. repeat split. Qed.

Lemma Write_consumed_count_witness :
  recordingWrite [None; Some (ExternalError "write timeout")] threeLines
    = Some (Return (0%Z, Some (ErrorfW "failed to write to buffer"
                                 (ExternalError "write timeout"))),
            refusedWriter, lineMem threeLines) /\
  exists new,
    enqueued (kinesisBuffer refusedWriter)
      = enqueued (kinesisBuffer
                    (recordingWriter [None; Some (ExternalError "write timeout")]))
        ++ new /\
    ((Some (ErrorfW "failed to write to buffer" (ExternalError "write timeout"))
        = None /\ 0%Z = len threeLines /\ Forall accepted new) \/
     (exists pre line cause,
         new = pre ++ [(line, Some cause)] /\ Forall accepted pre /\
         Some (ErrorfW "failed to write to buffer" (ExternalError "write timeout"))
           = Some (ErrorfW "failed to write to buffer" cause) /\
         0%Z = 0%Z)).
Proof.
  split; [vm_compute; reflexivity|].
  apply (proj1 (@Write_consumed_count testClientState (list (option error))
                  scriptedBuffer
                  (recordingWriter [None; Some (ExternalError "write timeout")])
                  threeLines [])
           (S (List.length threeLines)) _ _ _ (lineMem threeLines)).
  vm_compute. reflexivity.
Defined.

(** The second of three records is refused: one record has been handed
    over, the third never is, and the count returned is 0. *)
Example Write_refused_midway :
  match recordingWrite [None; Some (ExternalError "write timeout")] threeLines with
  | Some (r, w', _) =>
      r = Return (0%Z, Some (ErrorfW "failed to write to buffer"
                               (ExternalError "write timeout"))) /\
      map (fun e => (handed e, snd e)) (enqueued (kinesisBuffer w'))
        = [(b "a", None); (b "b", Some (ExternalError "write timeout"))]
  | None => False
  end.
Proof. vm_compute. split; reflexivity. Qed.

(** The records are windows on the buffer of the scanner, which later
    passes of the scan overwrite.  The input is a line of 3000 bytes, a line
    feed and three bytes more: the first record is handed over holding the
    line, and when [Write] returns it begins with the three bytes of the
    second one, which the scanner has moved to the beginning of its
    buffer. *)
Example Write_keeps_no_copy :
  returned [] movedInput = Some (Return (3004%Z, None)) /\
  forwarded movedInput = [repeat x61 3000; b "bbb"] /\
  retained movedInput = [b "bbb" ++ repeat x61 2997; b "bbb"].
Proof. vm_compute. repeat split. Qed.

(** * Further properties *)

(** ** The flusher: requests, log and client *)

Lemma keyedEntries_data (rnd : nat -> Z) (pos : nat) (records : list bytes) :
  map Data (keyedEntries rnd pos records) = records.
Proof.
  revert pos. induction records as [|r rest IH]; intros pos; [reflexivity|].
  cbn [keyedEntries map Data]. rewrite IH. reflexivity.
Qed.

Lemma keyedEntries_app (rnd : nat -> Z) (pos : nat) (l1 l2 : list bytes) :
  keyedEntries rnd pos (l1 ++ l2) =
  keyedEntries rnd pos l1 ++ keyedEntries rnd (pos + List.length l1) l2.
Proof.
  revert pos. induction l1 as [|r rest IH]; intros pos.
  - cbn. rewrite Nat.add_0_r. reflexivity.
  - simpl. rewrite IH.
    replace (S pos + List.length rest)%nat with (pos + S (List.length rest))%nat
      by lia.
    reflexivity.
Qed.

Section FlusherEffects.

Context {C : Type} `{KinesisClient C}.

Lemma makeEntries_full (records : list bytes) (w : World C) :
  exists w',
    makeEntries records w
      = (Return (keyedEntries (rand_src w) (rand_pos w) records), w') /\
    client w' = client w /\ rand_src w' = rand_src w /\
    rand_pos w' = (rand_pos w + List.length records)%nat /\
    log_out w' = log_out w /\
    deadline_attempts w' = deadline_attempts w /\ calls w' = calls w.
Proof.
  revert w. induction records as [|r rest IH]; intros w.
  - exists w. cbn. rewrite Nat.add_0_r. repeat split.
  - cbn [makeEntries]. unfold bind at 1. unfold rand_Int at 1.
    match goal with |- context [bind (makeEntries rest) _ ?w1] =>
      destruct (IH w1) as (w2 & Hm & Hc & Hs & Hp & Hl & Ha & Hk) end.
    erewrite bind_Return by exact Hm. unfold ret. cbn in *.
    exists w2. rewrite Hs. repeat split; auto. lia.
Qed.

(** What one call of [putRecords] does to the world. *)
Lemma putRecords_full (f : flusher) (ctx : Context) (records : list bytes)
    (w : World C) :
  exists c w',
    putRecords f ctx records w = (call_result c, w') /\
    call_input c = {| Records := keyedEntries (rand_src w) (rand_pos w) records;
                      StreamARN := Some (streamARN f) |} /\
    (call_output c, call_err c) = fst (PutRecords ctx (call_input c) (client w)) /\
    client w' = snd (PutRecords ctx (call_input c) (client w)) /\
    rand_src w' = rand_src w /\
    rand_pos w' = (rand_pos w + List.length records)%nat /\
    log_out w' = log_out w /\
    deadline_attempts w' = deadline_attempts w /\
    calls w' = calls w ++ [c].
Proof.
  unfold putRecords.
  destruct (makeEntries_full records w) as (w1 & Hm & Hc & Hs & Hp & Hl & Ha & Hk).
  unfold bind at 1. rewrite Hm.
  unfold bind at 1. unfold client_PutRecords at 1.
  set (input := {| Records := keyedEntries (rand_src w) (rand_pos w) records;
                   StreamARN := Some (streamARN f) |}).
  destruct (PutRecords ctx input (client w1)) as [r c'] eqn:Hput.
  set (c := {| call_input := input; call_output := fst r; call_err := snd r |}).
  exists c.
  assert (Hdata : call_data c = records)
    by (unfold call_data; cbn; apply keyedEntries_data).
  unfold call_result. rewrite Hdata.
  assert (Hput' : PutRecords ctx input (client w) = (r, c'))
    by (rewrite <- Hc; exact Hput).
  destruct r as [[out|] [err|]]; simpl;
    try (eexists; split; [reflexivity|]; subst c; cbn; rewrite Hput'; cbn;
         rewrite ?Hs, ?Hp, ?Hl, ?Ha, ?Hk; repeat split; auto).
  destruct (FailedRecordCount out) as [n|];
    try (eexists; split; [reflexivity|]; subst c; cbn; rewrite Hput'; cbn;
         rewrite ?Hs, ?Hp, ?Hl, ?Ha, ?Hk; repeat split; auto).
  destruct (n =? 0)%Z;
    try (eexists; split; [reflexivity|]; subst c; cbn; rewrite Hput'; cbn;
         rewrite ?Hs, ?Hp, ?Hl, ?Ha, ?Hk; repeat split; auto).
  destruct (n <? 0)%Z;
    try (eexists; split; [reflexivity|]; subst c; cbn; rewrite Hput'; cbn;
         rewrite ?Hs, ?Hp, ?Hl, ?Ha, ?Hk; repeat split; auto).
  unfold bind, lift.
  destruct (collectFailed records 0 (out_Records out) []);
    (eexists; split; [reflexivity|]; subst c; cbn; rewrite Hput'; cbn;
     rewrite ?Hs, ?Hp, ?Hl, ?Ha, ?Hk; repeat split; auto).
Qed.

Lemma requests_app (f : flusher) (rnd : nat -> Z) (pos : nat)
    (l1 l2 : list (list bytes)) :
  requests f rnd pos (l1 ++ l2) =
  requests f rnd pos l1
  ++ requests f rnd (pos + List.length (List.concat l1)) l2.
Proof.
  revert pos. induction l1 as [|d rest IH]; intros pos.
  - cbn. rewrite Nat.add_0_r. reflexivity.
  - simpl. rewrite IH, length_app, Nat.add_assoc. reflexivity.
Qed.

Lemma genuine_app (ctx : Context) (cst : C) (cs1 cs2 : list Call) :
  genuine ctx cst cs1 -> genuine ctx (client_after ctx cst cs1) cs2 ->
  genuine ctx cst (cs1 ++ cs2).
Proof.
  revert cst. induction cs1 as [|c rest IH]; intros cst H1 H2; [exact H2|].
  cbn in *. destruct H1 as [Ha Hr]. split; [exact Ha|]. apply IH; assumption.
Qed.

Lemma client_after_app (ctx : Context) (cst : C) (cs1 cs2 : list Call) :
  client_after ctx cst (cs1 ++ cs2)
  = client_after ctx (client_after ctx cst cs1) cs2.
Proof.
  revert cst. induction cs1 as [|c rest IH]; intros cst; [reflexivity|].
  cbn. apply IH.
Qed.

Lemma run_effects_nil (f : flusher) (ctx : Context) (w : World C) :
  run_effects f ctx w [] w.
Proof.
  unfold run_effects. cbn. rewrite app_nil_r, Nat.add_0_r. repeat split.
Qed.

Lemma run_effects_trans (f : flusher) (ctx : Context) (w w1 w2 : World C)
    (cs1 cs2 : list Call) :
  run_effects f ctx w cs1 w1 -> run_effects f ctx w1 cs2 w2 ->
  run_effects f ctx w (cs1 ++ cs2) w2.
Proof.
  intros (Hk1 & Hi1 & Hs1 & Hp1 & Hg1 & Hc1 & Ha1)
         (Hk2 & Hi2 & Hs2 & Hp2 & Hg2 & Hc2 & Ha2).
  unfold run_effects.
  rewrite Hk2, Hk1, app_assoc, !map_app, requests_app, concat_app, length_app.
  rewrite Hi1, Hi2, Hs2, Hs1, Hp2, Hp1, Hc2, Hc1, Ha2, Ha1, client_after_app.
  repeat split; auto; try lia.
  apply genuine_app; [assumption|]. rewrite <- Hc1. assumption.
Qed.

(** One call of [putRecords], as a stretch of one call. *)
Lemma putRecords_effects (f : flusher) (ctx : Context) (records : list bytes)
    (w : World C) :
  exists c w',
    putRecords f ctx records w = (call_result c, w') /\
    call_data c = records /\
    run_effects f ctx w [c] w' /\
    log_out w' = log_out w.
Proof.
  destruct (putRecords_full f ctx records w)
    as (c & w' & Hp & Hin & Hans & Hcl & Hs & Hpos & Hl & Ha & Hk).
  assert (Hd : call_data c = records)
    by (unfold call_data; rewrite Hin; apply keyedEntries_data).
  exists c, w'. repeat split; auto.
  all: cbn; rewrite ?Hd, ?Hin, ?app_nil_r; auto.
Qed.

Lemma retryBody_effects (f : flusher) (ctx : Context) (records : list bytes)
    (w : World C) :
  exists c w',
    retryBody f ctx records w = (call_result c, w') /\
    call_data c = records /\
    run_effects f ctx w [c] w' /\
    log_out w' = log_out w ++ [retry_line c].
Proof.
  unfold retryBody, bind at 1, log_Printf.
  match goal with |- context [putRecords f ctx records ?w1] =>
    destruct (putRecords_effects f ctx records w1)
      as (c & w' & Hp & Hd & He & Hl) end.
  exists c, w'. unfold retry_line. rewrite Hd.
  repeat split; auto; apply He.
Qed.

(** The retry loop, as a stretch of calls with one log line before each. *)
Lemma retryLoop_effects (f : flusher) (ctx : Context) (retrier : Retrier)
    (failedRecords : list bytes) (w : World C) :
  exists cs,
    run_effects f ctx w cs (snd (retryLoop f ctx retrier failedRecords w)) /\
    log_out (snd (retryLoop f ctx retrier failedRecords w))
      = log_out w ++ map retry_line cs.
Proof.
  funelim (retryLoop f ctx retrier failedRecords w);
    try match goal with
    | Hb : retryBody ?f ?ctx ?rs ?w = (_, _) |- _ =>
        destruct (retryBody_effects f ctx rs w) as (c & w0 & Hs & Hd & He & Hl);
        rewrite Hb in Hs; injection Hs as Hres Hw; subst w0
    end.
  - exists []. cbn. rewrite app_nil_r. split; [apply run_effects_nil | reflexivity].
  - exists [c]. cbn. split; assumption.
  - exists [c]. cbn. split; assumption.
  - exists [c]. cbn. split; assumption.
  - match goal with
    | IH : exists _, _ |- _ => destruct IH as (cs & Hrun & Hlog)
    end.
    exists (c :: cs). split.
    + change (c :: cs) with ([c] ++ cs). eapply run_effects_trans; eassumption.
    + rewrite Hlog, Hl, <- app_assoc. reflexivity.
Qed.

(** [Flush], as a stretch of calls with one log line before each retry. *)
Lemma Flush_effects (f : flusher) (records : list bytes) (w : World C) :
  exists cs,
    run_effects f (WithTimeout Background (flushTimeout f)) w cs
                (snd (Flush f records w)) /\
    log_out (snd (Flush f records w)) = log_out w ++ map retry_line (tl cs).
Proof.
  unfold Flush.
  destruct (putRecords_effects f (WithTimeout Background (flushTimeout f)) records w)
    as (c0 & w1 & Hp & Hd & He & Hl).
  unfold bind at 1 3. rewrite Hp.
  destruct (call_result c0) as [[failedRecords [err|]]|msg].
  - exists [c0]. cbn. rewrite app_nil_r. split; assumption.
  - destruct (List.length failedRecords =? 0)%nat.
    + exists [c0]. cbn. rewrite app_nil_r. split; assumption.
    + match goal with |- context [retryLoop ?f ?ctx ?r ?fr] =>
        destruct (retryLoop_effects f ctx r fr w1) as (cs & Hrun & Hlog);
        unfold bind; destruct (retryLoop f ctx r fr w1) as [res w2] eqn:HL
      end.
      cbn [snd] in Hrun, Hlog.
      assert (Hsnd : forall X : Outcome (option error) * World C,
                 snd X = w2 ->
                 exists cs0,
                   run_effects f (WithTimeout Background (flushTimeout f)) w cs0
                     (snd X) /\
                   log_out (snd X) = log_out w ++ map retry_line (tl cs0)).
      { intros X ->. exists (c0 :: cs). split.
        - change (c0 :: cs) with ([c0] ++ cs).
          eapply run_effects_trans; eassumption.
        - cbn [tl]. rewrite Hlog, Hl. reflexivity. }
      destruct res as [[e|fr]|m]; try (apply Hsnd; reflexivity).
      destruct (0 <? List.length fr)%nat; apply Hsnd; reflexivity.
  - exists [c0]. cbn. rewrite app_nil_r. split; assumption.
Qed.

End FlusherEffects.

(** *** Sub-sequences and failed subsets *)

Lemma subseq_nil_l {A : Type} (l : list A) : subseq [] l.
Proof. induction l; constructor; assumption. Qed.

Lemma subseq_refl {A : Type} (l : list A) : subseq l l.
Proof. induction l; constructor; assumption. Qed.

Lemma subseq_trans {A : Type} (l1 l2 l3 : list A) :
  subseq l1 l2 -> subseq l2 l3 -> subseq l1 l3.
Proof.
  intros H12 H23. revert l1 H12.
  induction H23 as [|x l2 l3 H23 IH|x l2 l3 H23 IH]; intros l1 H12.
  - exact H12.
  - apply subseq_skip. apply IH. exact H12.
  - inversion H12; subst.
    + apply subseq_skip. apply IH. assumption.
    + apply subseq_take. apply IH. assumption.
Qed.

Lemma subseq_length {A : Type} (l1 l2 : list A) :
  subseq l1 l2 -> (List.length l1 <= List.length l2)%nat.
Proof. induction 1; cbn [List.length]; lia. Qed.

Lemma subseq_skipn_S {A : Type} (i : nat) (l : list A) :
  subseq (skipn (S i) l) (skipn i l).
Proof.
  revert l. induction i as [|i IH]; intros l.
  - destruct l; cbn; [constructor|]. constructor. apply subseq_refl.
  - destruct l as [|x l]; [constructor|].
    change (skipn (S (S i)) (x :: l)) with (skipn (S i) l).
    change (skipn (S i) (x :: l)) with (skipn i l). apply IH.
Qed.

Lemma skipn_nth_error {A : Type} (i : nat) (l : list A) (x : A) :
  nth_error l i = Some x -> skipn i l = x :: skipn (S i) l.
Proof.
  revert l. induction i as [|i IH]; intros l Hn.
  - destruct l; [discriminate|]. injection Hn as ->. reflexivity.
  - destruct l as [|y l]; [discriminate|]. cbn in Hn.
    change (skipn (S i) (y :: l)) with (skipn i l).
    change (skipn (S (S i)) (y :: l)) with (skipn (S i) l). apply IH. exact Hn.
Qed.

(** The second loop of [putRecords] selects, in order, among the records
    from position [i] on. *)
Lemma collectFailed_subseq (records : list bytes)
    (results : list PutRecordsResultEntry) (i : nat) (acc out : list bytes) :
  collectFailed records i results acc = Return out ->
  exists sel, out = acc ++ sel /\ subseq sel (skipn i records).
Proof.
  revert i acc. induction results as [|rr rest IH]; intros i acc Hc.
  - cbn in Hc. injection Hc as <-. exists []. rewrite app_nil_r.
    split; [reflexivity | apply subseq_nil_l].
  - cbn [collectFailed] in Hc. destruct (ErrorCode rr).
    + destruct (nth_error records i) as [r|] eqn:Hn; [|discriminate].
      apply IH in Hc. destruct Hc as (sel & -> & Hsub).
      exists (r :: sel). rewrite <- app_assoc. split; [reflexivity|].
      rewrite (skipn_nth_error _ _ Hn). apply subseq_take. exact Hsub.
    + apply IH in Hc. destruct Hc as (sel & -> & Hsub).
      exists sel. split; [reflexivity|].
      eapply subseq_trans; [exact Hsub | apply subseq_skipn_S].
Qed.

Lemma call_result_subseq (c : Call) (failedRecords : list bytes) :
  call_result c = Return (failedRecords, None) ->
  subseq failedRecords (call_data c).
Proof.
  unfold call_result, response_result.
  destruct (call_output c) as [out|]; destruct (call_err c); try discriminate.
  destruct (FailedRecordCount out) as [n|].
  2:{ intros Hr. injection Hr as <-. apply subseq_nil_l. }
  destruct (n =? 0)%Z.
  { intros Hr. injection Hr as <-. apply subseq_nil_l. }
  destruct (n <? 0)%Z; [discriminate|].
  destruct (collectFailed (call_data c) 0 (out_Records out) []) as [fr|] eqn:Hc;
    [|discriminate].
  intros Hr. injection Hr as <-.
  apply collectFailed_subseq in Hc. destruct Hc as (sel & -> & Hsub).
  exact Hsub.
Qed.

Lemma retry_chain_subseq (records : list bytes) (cs : list Call) :
  retry_chain records cs ->
  Forall (fun c => subseq (call_data c) records) cs.
Proof.
  induction 1 as [records c Hd | records failedRecords c rest Hd Hr Hne Hch IH].
  - constructor; [|constructor]. rewrite Hd. apply subseq_refl.
  - constructor.
    + rewrite Hd. apply subseq_refl.
    + apply call_result_subseq in Hr. rewrite Hd in Hr.
      eapply Forall_impl; [|exact IH].
      intros c' Hc'. cbn beta in *.
      eapply subseq_trans; [exact Hc' | exact Hr].
Qed.

(** *** Responses that cannot make [putRecords] panic *)

Lemma collectFailed_returns (records : list bytes)
    (results : list PutRecordsResultEntry) (i : nat) (acc : list bytes) :
  (i + List.length results <= List.length records)%nat ->
  exists out, collectFailed records i results acc = Return out.
Proof.
  revert i acc. induction results as [|rr rest IH]; intros i acc Hlen.
  - eexists. reflexivity.
  - cbn [collectFailed]. cbn [List.length] in Hlen. destruct (ErrorCode rr).
    + destruct (nth_error records i) as [r|] eqn:Hn.
      * apply IH. lia.
      * apply nth_error_None in Hn. lia.
    + apply IH. lia.
Qed.

Lemma well_formed_response_returns (input : PutRecordsInput)
    (r : option PutRecordsOutput * option error) :
  well_formed_response input r = true ->
  exists v, response_result (map Data (Records input)) r = Return v.
Proof.
  unfold well_formed_response, response_result.
  destruct r as [[out|] [err|]]; try discriminate; try (eexists; reflexivity).
  destruct (FailedRecordCount out) as [n|]; [|eexists; reflexivity].
  intros Hwf. apply andb_true_iff in Hwf. destruct Hwf as [Hn Hlen].
  apply Z.leb_le in Hn. apply Nat.leb_le in Hlen.
  destruct (n =? 0)%Z; [eexists; reflexivity|].
  destruct (n <? 0)%Z eqn:Hneg; [apply Z.ltb_lt in Hneg; lia|].
  destruct (collectFailed_returns (map Data (Records input)) (out_Records out) 0 [])
    as [fr Hfr].
  { rewrite length_map. cbn. exact Hlen. }
  rewrite Hfr. eexists. reflexivity.
Qed.

Lemma requests_addressed (f : flusher) (rnd : nat -> Z) (pos : nat)
    (batches : list (list bytes)) :
  Forall (fun input =>
            StreamARN input = Some (streamARN f) /\
            Forall (fun e => PartitionKey e <> None) (Records input))
         (requests f rnd pos batches).
Proof.
  revert pos. induction batches as [|records rest IH]; intros pos; [constructor|].
  cbn [requests]. constructor; [|apply IH].
  split; [reflexivity|]. cbn [Records]. clear IH.
  revert pos. induction records as [|r more IHr]; intros pos; constructor.
  - cbn. discriminate.
  - apply IHr.
Qed.

(** ** The flusher: what every flush does *)

Section FlusherExtras.

Context {C : Type} `{KinesisClient C}.

(** X1.  Every flush makes at least one remote call and at most four (the
    first one and three retries), and no more retries than the deadline
    leaves time for; the first call carries the batch as it was given. *)
Theorem Flush_call_bounds (f : flusher) (records : list bytes) (w : World C) :
  exists c0 rest,
    calls (snd (Flush f records w)) = calls w ++ c0 :: rest /\
    call_data c0 = records /\
    (List.length rest <= 3)%nat /\
    (List.length rest <= deadline_attempts w)%nat.
Proof.
  destruct (Flush_run f records w)
    as (cs & c & w' & HF & Hk & Hch & Hl & Hb & Hd & _).
  rewrite HF. cbn [snd].
  inversion Hch; subst; eexists _, _; (split; [exact Hk|]);
    cbn [List.length] in *; repeat split; auto; lia.
Qed.

(** X2.  The request of every call of a flush names the flusher's stream and
    gives every record a partition key; the keys are successive draws from
    the random source, one per record submitted, so that a record that is
    sent again is keyed by a new draw. *)
Theorem Flush_requests (f : flusher) (records : list bytes) (w : World C) :
  exists cs,
    calls (snd (Flush f records w)) = calls w ++ cs /\
    map call_input cs
      = requests f (rand_src w) (rand_pos w) (map call_data cs) /\
    rand_pos (snd (Flush f records w))
      = (rand_pos w + List.length (List.concat (map call_data cs)))%nat /\
    Forall (fun c =>
              StreamARN (call_input c) = Some (streamARN f) /\
              Forall (fun e => PartitionKey e <> None) (Records (call_input c)))
           cs.
Proof.
  destruct (Flush_effects f records w)
    as (cs & (Hk & Hin & Hs & Hp & _) & _).
  exists cs. repeat split; auto.
  pose proof (requests_addressed f (rand_src w) (rand_pos w) (map call_data cs))
    as Hall.
  rewrite <- Hin in Hall. rewrite Forall_map in Hall. exact Hall.
Qed.

(** X3.  A flush logs one line before each retry, giving the number of
    records that retry submits, and nothing else: no line when the first
    call settles the batch. *)
Theorem Flush_log_lines (f : flusher) (records : list bytes) (w : World C) :
  exists cs,
    calls (snd (Flush f records w)) = calls w ++ cs /\
    log_out (snd (Flush f records w)) = log_out w ++ map retry_line (tl cs).
Proof.
  destruct (Flush_effects f records w) as (cs & (Hk & _) & Hlog).
  exists cs. split; assumption.
Qed.

(** The calls of a flush are made one after the other on the client:
    each response in the history is the client's answer in the state the
    previous call left, and the client ends in the state after the last. *)
Lemma Flush_client_sequence (f : flusher) (records : list bytes)
    (w : World C) :
  exists cs,
    calls (snd (Flush f records w)) = calls w ++ cs /\
    genuine (WithTimeout Background (flushTimeout f)) (client w) cs /\
    client (snd (Flush f records w))
      = client_after (WithTimeout Background (flushTimeout f)) (client w) cs.
Proof.
  destruct (Flush_effects f records w)
    as (cs & (Hk & _ & _ & _ & Hg & Hc & _) & _).
  exists cs. repeat split; assumption.
Qed.

(** X4.  Whatever the client answers, every call of a flush carries a
    sub-sequence of the batch: the flusher never sends a record that was not
    in the batch, never sends one more often in a call than the batch holds
    it, and keeps the order. *)
Theorem Flush_retries_subsequence (f : flusher) (records : list bytes)
    (w : World C) :
  exists cs,
    calls (snd (Flush f records w)) = calls w ++ cs /\
    Forall (fun c => subseq (call_data c) records /\
                     (List.length (call_data c) <= List.length records)%nat) cs.
Proof.
  destruct (Flush_run f records w) as (cs & c & w' & HF & Hk & Hch & _).
  exists cs. rewrite HF. split; [exact Hk|].
  apply retry_chain_subseq in Hch.
  eapply Forall_impl; [|exact Hch].
  intros c' Hsub. cbn beta in *. split; [exact Hsub|].
  apply subseq_length. exact Hsub.
Qed.

(** X5.  If the client only gives responses that [putRecords] can digest
    (an error, or an output with a failed count that is not negative and
    with no more entries than the request), [Flush] returns: it does not
    panic. *)
Theorem Flush_no_panic (f : flusher) (records : list bytes) (w : World C) :
  (forall ctx input cst,
      well_formed_response input (fst (PutRecords ctx input cst)) = true) ->
  exists r, fst (Flush f records w) = Return r.
Proof.
  intros Hwf.
  destruct (Flush_run f records w)
    as (cs & c & w' & HF & Hk & Hch & Hl & _ & _ & Hall & _).
  rewrite HF. cbn [fst].
  assert (Hin : In c cs).
  { clear -Hl. induction cs as [|c0 cs IH]; [discriminate|].
    destruct cs as [|c1 cs].
    - cbn in Hl. injection Hl as ->. left. reflexivity.
    - right. apply IH. exact Hl. }
  rewrite Forall_forall in Hall. destruct (Hall c Hin) as [cst Hans].
  specialize (Hwf (WithTimeout Background (flushTimeout f)) (call_input c) cst).
  rewrite <- Hans in Hwf.
  apply well_formed_response_returns in Hwf. destruct Hwf as [[fr err] Hv].
  unfold flush_result, call_result, call_data. rewrite Hv.
  destruct err; [eexists; reflexivity|].
  destruct (0 <? List.length fr)%nat; eexists; reflexivity.
Qed.

(** X6.  What [Flush] returns is settled by its last call.  It returns nil
    only when that call returned no error and left no record failed; an
    error of that call comes back wrapped twice, so that its message carries
    the prefix twice; records left failed come back as their number; and a
    panic is one of [putRecords] on that call's response. *)
Theorem Flush_result_cases (f : flusher) (records : list bytes) (w : World C) :
  exists pre c,
    calls (snd (Flush f records w)) = calls w ++ pre ++ [c] /\
    match fst (Flush f records w) with
    | Return None => call_err c = None /\ call_result c = Return ([], None)
    | Return (Some e) =>
        (exists e0,
            call_err c = Some e0 /\
            Unwrap e = Some (ErrorfW "failed to put records" e0) /\
            Error e = ("failed to put records: failed to put records: "
                       ++ Error e0)%string) \/
        (exists stillFailed,
            call_result c = Return (stillFailed, None) /\ stillFailed <> [] /\
            Unwrap e = None /\
            Error e = ("failed to put records: " ++ Itoa (len stillFailed)
                       ++ " records are failed")%string)
    | Panic msg => call_result c = Panic msg
    end.
Proof.
  destruct (Flush_run f records w) as (cs & c & w' & HF & Hk & Hch & Hl & _).
  assert (Hsplit : exists pre, cs = pre ++ [c]).
  { clear -Hl. induction cs as [|c0 cs IH]; [discriminate|].
    destruct cs as [|c1 cs].
    - cbn in Hl. injection Hl as ->. exists []. reflexivity.
    - destruct (IH Hl) as [pre Hpre]. exists (c0 :: pre). rewrite Hpre.
      reflexivity. }
  destruct Hsplit as [pre ->]. exists pre, c. rewrite HF. cbn [fst snd].
  split; [exact Hk|].
  unfold flush_result.
  destruct (call_result c) as [[fr [err|]]|msg] eqn:Hres.
  - left. unfold call_result, response_result in Hres.
    destruct (call_err c) as [e0|] eqn:He.
    + exists e0. destruct (call_output c); injection Hres as _ <-;
        repeat split; reflexivity.
    + exfalso. destruct (call_output c) as [out|]; [|discriminate].
      destruct (FailedRecordCount out) as [n|]; [|discriminate].
      destruct (n =? 0)%Z; [discriminate|].
      destruct (n <? 0)%Z; [discriminate|].
      destruct (collectFailed (call_data c) 0 (out_Records out) []); discriminate.
  - destruct fr as [|r0 fr]; cbn [List.length Nat.ltb Nat.leb].
    + split; [|reflexivity].
      unfold call_result, response_result in Hres.
      destruct (call_err c); [|reflexivity].
      destruct (call_output c); discriminate.
    + right. exists (r0 :: fr). repeat split; try reflexivity. discriminate.
  - reflexivity.
Qed.

End FlusherExtras.

(** ** The configuration: New and the options *)

Section ConfigExtras.

Context {C B : Type} `{AsyncBuffer C B} `{AwsEnv C}.

(** X8.  [New] fails in one case only: the options leave the client nil
    and the ambient AWS configuration does not load; the error it returns
    wraps the loader's.  When the last option gives a client, [New] returns
    a Writer with that client, whatever the environment.  When the last
    option gives the nil client, clients given before count for nothing:
    [New] turns to the ambient configuration and fails exactly when that does
    not load. *)
Theorem New_fails_without_client (ctx : Context) (streamARN : string)
    (opts : list (WriterConfigOption C)) :
  (forall e,
      New ctx streamARN opts = inr e <->
      client_ (applyOptions opts) = None /\
      exists e0,
        LoadDefaultConfig ctx = inr e0 /\
        e = ErrorfW "failed to load AWS config" e0) /\
  (forall cl,
      exists w, New ctx streamARN (opts ++ [WithKinesisClient (Some cl)]) = inl w /\
                client_ (config w) = Some cl) /\
  (forall e,
      New ctx streamARN (opts ++ [WithKinesisClient None]) = inr e <->
      exists e0,
        LoadDefaultConfig ctx = inr e0 /\
        e = ErrorfW "failed to load AWS config" e0) /\
  (forall w awsCfg,
      New ctx streamARN (opts ++ [WithKinesisClient None]) = inl w ->
      LoadDefaultConfig ctx = inl awsCfg ->
      client_ (config w) = Some (NewFromConfig awsCfg)).
Proof.
  split; [|split; [|split]].
  - intros e. unfold New. fold (initialConfig C). fold (applyOptions opts).
    destruct (client_ (applyOptions opts)) as [cl|] eqn:Hcl.
    + split; [discriminate|]. intros [Hn _]. discriminate.
    + destruct (LoadDefaultConfig ctx) as [awsCfg|err].
      * split; [discriminate|]. intros [_ (e0 & He0 & _)]. discriminate.
      * split.
        -- intros He. injection He as <-. split; [reflexivity|].
           exists err. split; reflexivity.
        -- intros [_ (e0 & He0 & ->)]. injection He0 as ->. reflexivity.
  - intros cl. unfold New. rewrite fold_left_app. cbn.
    eexists. split; reflexivity.
  - intros e. unfold New. rewrite fold_left_app. cbn.
    destruct (LoadDefaultConfig ctx) as [awsCfg|err].
    + split; [discriminate|]. intros (e0 & He0 & _). discriminate.
    + split.
      * intros He. injection He as <-. exists err. split; reflexivity.
      * intros (e0 & He0 & ->). injection He0 as ->. reflexivity.
  - intros w awsCfg. unfold New. rewrite fold_left_app. cbn.
    destruct (LoadDefaultConfig ctx) as [awsCfg'|err]; [|discriminate].
    intros Hw Hcfg. injection Hw as <-. injection Hcfg as ->. reflexivity.
Qed.

End ConfigExtras.

(** X9.  Options that set different fields can be given in either order,
    and of two options that set the same field the later one decides. *)
Theorem options_compose {C : Type} (first second : optionSpec C)
    (conf : writerConfig C) :
  (optionField first <> optionField second ->
   toOption second (toOption first conf)
   = toOption first (toOption second conf)) /\
  (optionField first = optionField second ->
   toOption second (toOption first conf) = toOption second conf).
Proof.
  split; intros Hk; destruct first, second; cbn in Hk;
    try reflexivity; try congruence; try discriminate.
Qed.

(** X10.  The default error handler keeps what was already written to
    standard error and adds one chunk with the message of the error followed
    by one chunk per undelivered record, in order, each with its index and
    its bytes. *)
Theorem defaultBufferErrorHandler_output (err : error) (elements : list bytes)
    (stderr : list string) :
  exists report,
    defaultBufferErrorHandler err elements stderr
      = stderr ++ ("async-buffer: error " ++ Error err)%string :: report /\
    List.length report = List.length elements /\
    forall i elem,
      nth_error elements i = Some elem ->
      nth_error report i
      = Some ("failed to write logs [" ++ Itoa (Z.of_nat i) ++ "]="
              ++ string_of_list_byte elem)%string.
Proof.
  exists (failedLogLines 0 elements).
  split; [reflexivity|].
  assert (Hgen : forall k,
             List.length (failedLogLines k elements) = List.length elements /\
             forall i elem,
               nth_error elements i = Some elem ->
               nth_error (failedLogLines k elements) i
               = Some ("failed to write logs [" ++ Itoa (Z.of_nat (k + i)) ++ "]="
                       ++ string_of_list_byte elem)%string).
  { induction elements as [|e rest IH]; intros k.
    - split; [reflexivity|]. intros i elem Hn. destruct i; discriminate.
    - destruct (IH (S k)) as [Hlen Hnth]. split.
      + cbn [failedLogLines List.length]. rewrite Hlen. reflexivity.
      + intros [|i] elem Hn; cbn [failedLogLines nth_error] in *.
        * injection Hn as ->. rewrite Nat.add_0_r. reflexivity.
        * rewrite (Hnth i elem Hn).
          replace (S k + i)%nat with (k + S i)%nat by lia. reflexivity. }
  exact (Hgen 0%nat).
Qed.

(** ** Write: what reaches the buffer *)

Lemma byte_eqb_refl (x : byte) : Byte.eqb x x = true.
Proof. apply Byte.byte_dec_lb. reflexivity. Qed.

Lemma lines_no_LF (p : bytes) : Forall (fun line => ~ In LF line) (lines p).
Proof.
  induction p as [|x rest IH]; [constructor|].
  cbn [lines]. destruct (Byte.eqb x LF) eqn:Ex.
  - constructor; [intros []|exact IH].
  - destruct (lines rest) as [|line more].
    + constructor; [|constructor]. intros [Hx|[]]. subst x.
      rewrite byte_eqb_refl in Ex. discriminate.
    + inversion IH as [|? ? Hline Hmore]; subst. constructor; [|exact Hmore].
      intros [Hx|Hin]; [|exact (Hline Hin)]. subst x.
      rewrite byte_eqb_refl in Ex. discriminate.
Qed.

Lemma In_removelast {A : Type} (x : A) (l : list A) :
  In x (removelast l) -> In x l.
Proof.
  induction l as [|y l IH]; [intros []|].
  destruct l as [|z l]; [intros []|].
  change (removelast (y :: z :: l)) with (y :: removelast (z :: l)).
  intros [->|Hin]; [left; reflexivity|]. right. apply IH. exact Hin.
Qed.

Lemma length_removelast_le {A : Type} (l : list A) :
  (List.length (removelast l) <= List.length l)%nat.
Proof.
  induction l as [|y l IH]; [cbn; lia|].
  destruct l as [|z l]; [cbn; lia|].
  change (removelast (y :: z :: l)) with (y :: removelast (z :: l)).
  cbn [List.length] in *. lia.
Qed.

Lemma trimCR_within (line : bytes) :
  (forall x, In x (trimCR line) -> In x line) /\
  (List.length (trimCR line) <= List.length line)%nat.
Proof.
  unfold trimCR.
  destruct ((0 <? List.length line)%nat && Byte.eqb (last line x00) CR).
  - split; [intros x; apply In_removelast | apply length_removelast_le].
  - split; [auto | lia].
Qed.

(** The scanned lines hold no line feed and fit the scanner's limit. *)
Lemma scannedLines_bounds (p : bytes) :
  Forall (fun record =>
            ~ In LF record /\ (List.length record < MaxScanTokenSize)%nat)
         (scannedLines p).
Proof.
  unfold scannedLines. pose proof (lines_no_LF p) as Hno.
  induction (lines p) as [|line more IH]; [constructor|].
  inversion Hno as [|? ? Hline Hmore]; subst.
  cbn [takeWhile]. destruct (shortLine line) eqn:Hshort; [|constructor].
  cbn [map]. constructor; [|apply IH; exact Hmore].
  destruct (trimCR_within line) as [Hin Hlen]. split.
  - intros HLF. apply Hline. apply Hin. exact HLF.
  - unfold shortLine in Hshort. apply Nat.ltb_lt in Hshort. lia.
Qed.

Section WriteExtras.

Context {C B : Type} `{AsyncBuffer C B} `{AwsEnv C}.

(** X11.  With the line splitter and for every input, what the records
    hold when [Write] hands them to the buffer are, in order, the lines of
    the input without their final carriage return, up to the first line
    that does not fit the scanner's limit: a prefix of them in general, all
    of them when every write is accepted.  No record holds a line feed and
    each is shorter than the limit. *)
Theorem Write_forwards_scanned_lines (w : Writer C (Recorded B)) (p : bytes)
    (m : Mem) :
  splitFunc (config w) = ScanLines ->
  exists n err w' m' new,
    Write (H := recordedBuffer) (S (List.length p)) w p m
      = Some (Return (n, err), w', m') /\
    enqueued (kinesisBuffer w') = enqueued (kinesisBuffer w) ++ new /\
    config w' = config w /\
    (exists more, scannedLines p = map handed new ++ more) /\
    (Forall accepted new -> map handed new = scannedLines p) /\
    Forall (fun record =>
              ~ In LF record /\ (List.length record < MaxScanTokenSize)%nat)
           (map handed new).
Proof.
  intros Hsplit. unfold Write.
  destruct (scanning_start p m Hsplit) as [Hsc Hpend].
  destruct (@scanLoop_ScanLines C B H (List.length m) (S (List.length p))
              (Scanner_Split (NewScanner (NewReader p)) (splitFunc (config w)))
              w p m Hsc)
    as (n & err & w' & m' & new & Hrun & Hlog & Hout & Hpre & Hall & _).
  - rewrite Hpend. lia.
  - rewrite Hpend in Hpre, Hall.
    exists n, err, w', m', new.
    split; [exact Hrun|]. split; [exact Hlog|].
    split; [apply (scanLoop_result _ _ _ _ _ Hrun)|].
    split; [exact Hpre|]. split; [exact Hall|].
    destruct Hpre as [more Hmore].
    pose proof (scannedLines_bounds p) as Hb. rewrite Hmore in Hb.
    apply Forall_app in Hb. apply Hb.
Qed.

(** X12.  On the empty input [Write] with the line splitter hands nothing to
    the buffer, leaves the Writer as it was and returns 0 and nil; the
    scanner has allocated its first buffer before it finds the input
    empty. *)
Theorem Write_empty_input (fuel : nat) (w : Writer C B) (m : Mem) :
  splitFunc (config w) = ScanLines ->
  Write (S fuel) w [] m
  = Some (Return (0%Z, None), w, m ++ [repeat x00 startBufSize]).
Proof.
  intros Hsplit. unfold Write. rewrite Hsplit. cbn [scanLoop].
  destruct (Scan_first [] m) as (s1 & -> & Hsc1 & Hp1 & Hrs & Hri & Hsl).
  cbn [List.length firstn app] in *. rewrite Nat.min_0_r in *.
  cbn [firstn] in *. rewrite Nat.sub_0_r in *.
  change ([] ++ repeat x00 startBufSize) with (repeat x00 startBufSize) in *.
  pose proof startBufSize_bounds as [HS1 _].
  unfold Scan. rewrite (sc_done Hsc1).
  destruct (scanToken_ScanLines Hsc1) as (s' & m' & _ & Hstep).
  rewrite Hp1 in Hstep.
  destruct (@scanToken_quiet (List.length m) s1
              (m ++ [repeat x00 startBufSize]) Hsc1) as [Hmem _].
  - rewrite Hrs, Hri. cbn. lia.
  - lia.
  - rewrite Hp1. reflexivity.
  - rewrite Hstep in Hmem |- *. cbn [snd] in Hmem. subst m'. reflexivity.
Qed.

(** X16.  An input that fits the first buffer of the scanner and is empty or
    ends with a line feed is read in one piece, and nothing is moved or read
    after that: [Write] with the line splitter allocates one array, which
    holds the input when [Write] returns, and every record it has handed to
    the buffer still holds what it held when it was handed over. *)
Theorem Write_short_input_keeps_records (w : Writer C (Recorded B)) (p : bytes)
    (m : Mem) :
  splitFunc (config w) = ScanLines ->
  (List.length p <= startBufSize)%nat ->
  terminated p = p ->
  exists n err w' new,
    Write (H := recordedBuffer) (S (List.length p)) w p m
      = Some (Return (n, err), w',
              m ++ [p ++ repeat x00 (startBufSize - List.length p)]) /\
    enqueued (kinesisBuffer w') = enqueued (kinesisBuffer w) ++ new /\
    Forall (fun e =>
              deref (m ++ [p ++ repeat x00 (startBufSize - List.length p)])
                    (reference e)
              = handed e) new.
Proof.
  intros Hsplit Hfit Hterm. unfold Write. rewrite Hsplit.
  destruct (Scan_first p m) as (s1 & HS & Hsc1 & Hp1 & Hrs & Hri & Hsl).
  rewrite (Nat.min_r _ _ Hfit), firstn_all in *.
  pose proof startBufSize_bounds as [HS1 _].
  rewrite (@scanLoop_ext C (Recorded B) recordedBuffer _ _ _ w p _ _ HS).
  destruct (@scanLoop_ScanLines C B H (List.length m) (S (List.length p)) s1 w p _ Hsc1)
    as (n & err & w' & m' & new & Hrun & Hlog & _).
  { rewrite Hp1. lia. }
  assert (Hex : (List.length (r_s (rd s1)) <= r_i (rd s1))%nat)
    by (rewrite Hrs, Hri; lia).
  assert (Hpos : (0 < slen (buf s1))%nat) by lia.
  rewrite <- Hp1 in Hterm.
  destruct (scanLoop_quiet _ _ _ Hsc1 Hex Hpos Hterm Hrun)
    as (-> & new' & Hlog' & Hkept).
  rewrite Hlog in Hlog'. apply app_inv_head in Hlog'. subst new'.
  exists n, err, w', new. repeat split; assumption.
Qed.

(** X17.  [Write] with the line splitter writes to the buffers of its own
    scanner only: the arrays that were there before the call hold what they
    held, and every record handed to the buffer is a window on an array
    allocated during the call.  What a later [Write] moves or reads
    therefore never reaches the records of an earlier one. *)
Theorem Write_writes_own_buffers (w : Writer C (Recorded B)) (p : bytes)
    (m : Mem) :
  splitFunc (config w) = ScanLines ->
  exists n err w' m' new,
    Write (H := recordedBuffer) (S (List.length p)) w p m
      = Some (Return (n, err), w', m') /\
    enqueued (kinesisBuffer w') = enqueued (kinesisBuffer w) ++ new /\
    (List.length m <= List.length m')%nat /\
    (forall a, (a < List.length m)%nat -> array m' a = array m a) /\
    Forall (fun e => (List.length m <= arr (reference e))%nat) new.
Proof.
  intros Hsplit. unfold Write.
  destruct (scanning_start p m Hsplit) as [Hsc Hpend].
  destruct (@scanLoop_ScanLines C B H (List.length m) (S (List.length p))
              (Scanner_Split (NewScanner (NewReader p)) (splitFunc (config w)))
              w p m Hsc)
    as (n & err & w' & m' & new & Hrun & Hlog & _ & _ & _ & [Hlen Hold] & Hown).
  - rewrite Hpend. lia.
  - exists n, err, w', m', new. repeat split; assumption.
Qed.

End WriteExtras.

(** ** The flusher against the clients of the tests *)

Lemma success_call_result (ctx : Context) (c : Call) :
  answered (H := successKinesisClient) ctx c ->
  call_result c = Return ([], None).
Proof.
  intros [cst Hans]. cbn in Hans. injection Hans as Hout Herr.
  unfold call_result, response_result. rewrite Hout, Herr. reflexivity.
Qed.

Lemma success_inputs_after (ctx : Context) (cst : testClientState)
    (cs : list Call) :
  inputs (client_after (H := successKinesisClient) ctx cst cs)
  = inputs cst ++ map call_input cs.
Proof.
  revert cst. induction cs as [|c rest IH]; intros cst.
  - cbn. rewrite app_nil_r. reflexivity.
  - cbn [client_after map]. rewrite IH. cbn. rewrite <- app_assoc. reflexivity.
Qed.

Lemma partial_inputs_after (ctx : Context) (cst : testClientState)
    (cs : list Call) :
  inputs (client_after (H := partialFailedKinesisClient) ctx cst cs)
  = inputs cst ++ map call_input cs.
Proof.
  revert cst. induction cs as [|c rest IH]; intros cst.
  - cbn. rewrite app_nil_r. reflexivity.
  - cbn [client_after map]. rewrite IH. cbn.
    unfold partialFailedKinesisClient_PutRecords.
    destruct (partialEntries cst 0 (Records (call_input c))) as [entries n].
    cbn. rewrite <- app_assoc. reflexivity.
Qed.

(** X13.  Against the accepting client of the tests a flush of any batch
    makes one call, which carries the batch, and returns nil. *)
Theorem Flush_success_client (f : flusher) (records : list bytes)
    (w : World testClientState) :
  exists c w',
    Flush (H := successKinesisClient) f records w = (Return None, w') /\
    calls w' = calls w ++ [c] /\
    call_data c = records.
Proof.
  destruct (Flush_run (H := successKinesisClient) f records w)
    as (cs & c & w' & HF & Hk & Hch & Hl & _ & _ & Hall & _).
  assert (Hres : forall c0, In c0 cs -> call_result c0 = Return ([], None)).
  { intros c0 Hin. eapply success_call_result.
    rewrite Forall_forall in Hall. apply Hall. exact Hin. }
  inversion Hch as [? c0 Hd0 | ? F0 c0 rest0 Hd0 Hr0 Hne0 Hch1]; subst.
  - cbn in Hl. injection Hl as <-.
    exists c0, w'. rewrite HF. unfold flush_result.
    rewrite (Hres c0 (or_introl eq_refl)). repeat split; auto.
  - exfalso. rewrite (Hres c0 (or_introl eq_refl)) in Hr0.
    injection Hr0 as <-. apply Hne0. reflexivity.
Qed.

(** X14.  What the clients of the tests keep as their inputs is what the
    flusher sent: after a flush, the inputs of the client have grown by the
    inputs of the calls of that flush, in order. *)
Theorem test_clients_record_calls (f : flusher) (records : list bytes)
    (w : World testClientState) :
  (exists cs,
      calls (snd (Flush (H := successKinesisClient) f records w)) = calls w ++ cs /\
      inputs (client (snd (Flush (H := successKinesisClient) f records w)))
      = inputs (client w) ++ map call_input cs) /\
  (exists cs,
      calls (snd (Flush (H := partialFailedKinesisClient) f records w))
      = calls w ++ cs /\
      inputs (client (snd (Flush (H := partialFailedKinesisClient) f records w)))
      = inputs (client w) ++ map call_input cs).
Proof.
  split.
  - destruct (Flush_effects (H := successKinesisClient) f records w)
      as (cs & (Hk & _ & _ & _ & _ & Hc & _) & _).
    exists cs. split; [exact Hk|]. rewrite Hc. apply success_inputs_after.
  - destruct (Flush_effects (H := partialFailedKinesisClient) f records w)
      as (cs & (Hk & _ & _ & _ & _ & Hc & _) & _).
    exists cs. split; [exact Hk|]. rewrite Hc. apply partial_inputs_after.
Qed.

(** *** The partially failing client on any batch *)








(** ** Runs for the further properties *)

Lemma Flush_no_panic_witness :
  exists r,
    fst (Flush (H := successKinesisClient) testFlusher [b "record1"]
               (newWorld newTestClient 3)) = Return r.
Proof.
  apply (@Flush_no_panic testClientState successKinesisClient testFlusher
           [b "record1"] (newWorld newTestClient 3)).
  intros ctx input cst. reflexivity.
Defined.

Lemma New_fails_without_client_witness :
  New (B := list (option error)) (H := scriptedBuffer)
      (H0 := noAwsEnv testClientState) Background "stream-arn" []
  = inr (ErrorfW "failed to load AWS config" (ExternalError "no credentials")).
Proof.
  apply (proj1 (@New_fails_without_client testClientState (list (option error))
                  scriptedBuffer (noAwsEnv testClientState) Background
                  "stream-arn" [])).
  split; [reflexivity|]. eexists. split; reflexivity.
Defined.

Lemma options_compose_witness :
  optionField (C := testClientState) (SetRecordWindow 3%Z)
    <> optionField (C := testClientState) (SetFlushInterval (10 * Millisecond)%Z) /\
  WithBufferFlushInterval (10 * Millisecond)%Z
    (WithBufferRecordWindow 3%Z (initialConfig testClientState))
  = WithBufferRecordWindow 3%Z
      (WithBufferFlushInterval (10 * Millisecond)%Z (initialConfig testClientState)).
Proof.
  split; [discriminate|].
  apply (proj1 (@options_compose testClientState (SetRecordWindow 3%Z)
                  (SetFlushInterval (10 * Millisecond)%Z)
                  (initialConfig testClientState))).
  discriminate.
Defined.

Lemma defaultBufferErrorHandler_output_witness :
  nth_error (defaultBufferErrorHandler (Errorf "boom") [b "x"; b "y"] ["earlier"]) 3
  = Some "failed to write logs [1]=y".
Proof.
  destruct (defaultBufferErrorHandler_output (Errorf "boom") [b "x"; b "y"]
              ["earlier"]) as (report & Heq & _ & Hnth).
  rewrite Heq.
  change (nth_error (["earlier"] ++ ("async-buffer: error " ++ Error (Errorf "boom"))%string
                       :: report) 3)
    with (nth_error report 1).
  apply (Hnth 1%nat (b "y")). reflexivity.
Defined.

Lemma Write_forwards_scanned_lines_witness :
  splitFunc (config (recordingWriter [])) = ScanLines /\
  exists n err w' m' new,
    recordingWrite [] crlfInput = Some (Return (n, err), w', m') /\
    enqueued (kinesisBuffer w') = enqueued (kinesisBuffer (recordingWriter [])) ++ new /\
    config w' = config (recordingWriter []) /\
    (exists more, scannedLines crlfInput = map handed new ++ more) /\
    (Forall accepted new -> map handed new = scannedLines crlfInput) /\
    Forall (fun record =>
              ~ In LF record /\ (List.length record < MaxScanTokenSize)%nat)
           (map handed new).
Proof.
  split; [reflexivity|].
  apply (@Write_forwards_scanned_lines testClientState (list (option error))
           scriptedBuffer (recordingWriter []) crlfInput []).
  reflexivity.
Defined.

Lemma Write_empty_input_witness :
  splitFunc (config defaultWriter) = ScanLines /\
  Write (H := scriptedBuffer) 1 defaultWriter [] [] =
  Some (Return (0%Z, None), defaultWriter, [] ++ [repeat x00 startBufSize]).
Proof.
  split; [reflexivity|].
  apply (@Write_empty_input testClientState (list (option error)) scriptedBuffer
           0%nat defaultWriter []).
  reflexivity.
Defined.

Lemma Write_short_input_keeps_records_witness :
  terminated twoRecords = twoRecords /\
  exists n err w' new,
    recordingWrite [] twoRecords
      = Some (Return (n, err), w',
              [] ++ [twoRecords
                     ++ repeat x00 (startBufSize - List.length twoRecords)]) /\
    enqueued (kinesisBuffer w') = enqueued (kinesisBuffer (recordingWriter [])) ++ new /\
    Forall (fun e =>
              deref ([] ++ [twoRecords
                            ++ repeat x00 (startBufSize - List.length twoRecords)])
                    (reference e)
              = handed e) new.
Proof.
  split; [reflexivity|].
  apply (@Write_short_input_keeps_records testClientState (list (option error))
           scriptedBuffer (recordingWriter []) twoRecords []).
  - reflexivity.
  - apply Nat.leb_le. vm_compute. reflexivity.
  - reflexivity.
Defined.

Lemma Write_writes_own_buffers_witness :
  splitFunc (config (recordingWriter [])) = ScanLines /\
  exists n err w' m' new,
    Write (H := recordedBuffer (H := scriptedBuffer)) (S (List.length movedInput))
          (recordingWriter []) movedInput (lineMem twoRecords)
      = Some (Return (n, err), w', m') /\
    enqueued (kinesisBuffer w') = enqueued (kinesisBuffer (recordingWriter [])) ++ new /\
    (List.length (lineMem twoRecords) <= List.length m')%nat /\
    (forall a, (a < List.length (lineMem twoRecords))%nat ->
               array m' a = array (lineMem twoRecords) a) /\
    Forall (fun e => (List.length (lineMem twoRecords) <= arr (reference e))%nat) new.
Proof.
  split; [reflexivity|].
  apply (@Write_writes_own_buffers testClientState (list (option error))
           scriptedBuffer (recordingWriter []) movedInput (lineMem twoRecords)).
  reflexivity.
Defined.


(** Sixteen records against the partially failing client: four calls, of
    16, 8, 4 and 2 records, and one record reported as failed. *)
Example Flush_sixteen_records :
  let R := Flush (H := partialFailedKinesisClient) testFlusher sixteenRecords
                 (newWorld newTestClient 3) in
  map (fun c => List.length (call_data c)) (calls (snd R)) = [16; 8; 4; 2]%nat /\
  fst R = Return (Some (Errorf "failed to put records: 1 records are failed")).
Proof. vm_compute. split; reflexivity. Qed.
